(** * ai-voice: the live audio session pipeline of [App.tsx]

    A shallow embedding of the audio utility functions ([decode],
    [decodeAudioData], [encode], [createBlob]) and of the live-session
    handlers of the [App] component ([handleStartLiveSession] with its four
    transport callbacks, [handleStopLiveSession]), followed by the
    properties the specification states about them.  The development then
    covers the code around them: [handleSaveAgent], the gating of the
    navigation, the recent calls of the dashboard, the call-flow shortcut
    of [geminiService] and the [AgentBuilder] component.

    Conventions.
    - A JavaScript number is a [number]: a finite value carried as an exact
      rational, or one of the three non-finite values.  Every arithmetic
      step the codec performs (a float32 sample times [2^15], a 16-bit
      integer divided by [2^15]) is exact in binary64, so the rational
      model of these steps loses nothing.  Clock times are carried as
      rationals as well; the one sum the scheduler computes on them is
      rounded as binary64 rounds it ([binary64]).
    - A [Uint8Array] is a [list Z] of values in [0, 256); an [Int16Array]
      is a [list Z] of values in [-32768, 32768).
    - A binary string (code units below 256) and a base64 text are Rocq
      [string]s.
    - A thrown exception or a rejected promise is [None].
    - What [JSON.parse] makes of a text is an input of the functions that
      call it: the properties of the parsed value in the order of
      [for ... in], or the fact that it parses.
    - The state of the application is a record [App] of the React state
      cells, the refs, and the browser objects the refs point to (kept in
      tables and held by index).  A handler is a function on [App]; the
      event loop is [step], which runs one handler, or one stretch of a
      handler between two [await]s, per event. *)

From Stdlib Require Import ZArith QArith Qabs Qminmax Qround Qpower Lia Lqa.
From Stdlib Require Import List String Ascii Bool.
From Stdlib Require Floats.
From stdpp Require Import gmap strings list.
Import ListNotations.
Open Scope Z_scope.

(** ** JavaScript numbers and typed-array element conversions *)

Inductive number : Type :=
| Finite (q : Q)
| NaN
| PosInf
| NegInf.

(** [x * 32768]: multiplication by a positive finite constant. *)
Definition mul32768 (x : number) : number :=
  match x with
  | Finite q => Finite (q * 32768)%Q
  | other => other
  end.

(** [v / 32768.0] for an [Int16Array] element [v]. *)
Definition div32768 (v : Z) : number := Finite (inject_Z v / 32768)%Q.

(** ECMAScript [truncate]: drop the fractional part, rounding toward zero. *)
Definition truncate (q : Q) : Z := Z.quot (Qnum q) (Z.pos (Qden q)).

(** ECMAScript [ToInt16], the conversion applied by a store into an
    [Int16Array]: non-finite values give 0; otherwise truncate, reduce
    modulo [2^16], and read values from [2^15] up as negative. *)
Definition ToInt16 (x : number) : Z :=
  match x with
  | Finite q =>
      let int := truncate q in
      let int16bit := int mod 65536 in
      if 32768 <=? int16bit then int16bit - 65536 else int16bit
  | _ => 0
  end.

(** The [Uint8Array] over the buffer of an [Int16Array]: two bytes per
    element, low byte first (PCM16 is little-endian). *)
Definition Uint8Array_of_Int16Array (int16 : list Z) : list Z :=
  flat_map (fun v => [v mod 256; (v / 256) mod 256]) int16.

(** [new Int16Array(data.buffer)]: a [RangeError] when the byte length is
    odd; otherwise each pair of bytes read as a signed 16-bit value. *)
Fixpoint Int16Array_of_buffer (data : list Z) : option (list Z) :=
  match data with
  | [] => Some []
  | [_] => None
  | lo :: hi :: rest =>
      let u := lo + 256 * hi in
      let v := if 32768 <=? u then u - 65536 else u in
      option_map (cons v) (Int16Array_of_buffer rest)
  end.

Definition is_byte (b : Z) : Prop := 0 <= b < 256.

(** ** Binary64 rounding *)

(** The result of an arithmetic operation on JavaScript numbers is the
    exact result rounded to the nearest binary64 number, ties to the one
    with an even significand.  [binary64 x] is that number for a rational
    [x]: 53 bits of significand, exponents from [-1022] up, and below
    [2^-1022] the subnormal numbers, multiples of [2^-1074].  The largest
    exponent is not modelled: the values rounded here are clock times in
    seconds and durations of audio buffers, and a finite clock time plus
    a duration below [2^970] seconds never rounds to infinity. *)
Definition pow2 (e : Z) : Q := (2 ^ e)%Q.

(** For [x > 0], the [e] with [2^e <= x < 2^(e+1)]. *)
Definition exponent (x : Q) : Z :=
  let e := Z.log2 (Qnum x) - Z.log2 (Z.pos (Qden x)) in
  if Qle_bool (pow2 e) x then e else e - 1.

(** The nearest integer, ties to even. *)
Definition roundTiesToEven (m : Q) : Z :=
  let f := Qfloor m in
  match (m - inject_Z f ?= 1 # 2)%Q with
  | Lt => f
  | Gt => f + 1
  | Eq => if Z.even f then f else f + 1
  end.

(** The distance between consecutive binary64 numbers around [x > 0]. *)
Definition quantum (x : Q) : Q := pow2 (Z.max (exponent x) (-1022) - 52).

Definition nearest (x : Q) : Q :=
  (inject_Z (roundTiesToEven (x / quantum x)) * quantum x)%Q.

Definition binary64 (x : Q) : Q :=
  match (x ?= 0)%Q with
  | Eq => 0%Q
  | Gt => nearest x
  | Lt => (- nearest (- x))%Q
  end.

Arguments binary64 : simpl never.

(** The primitive floats of Rocq are the binary64 numbers of the
    machine; they serve to compare [binary64] with the machine's
    arithmetic on sample values.  [Q_of_float] is the value of a finite
    float. *)
Definition Q_of_float (f : PrimFloat.float) : Q :=
  match FloatOps.Prim2SF f with
  | SpecFloat.S754_finite sign m e =>
      ((if sign then -1 else 1) * inject_Z (Z.pos m) * pow2 e)%Q
  | _ => 0%Q
  end.

Definition float_of_Z (z : Z) : PrimFloat.float :=
  PrimFloat.of_uint63 (Uint63.of_Z z).

(** For [a / b] and [c / d]: the quotient [a / b] and the sum of the two
    quotients, computed on the machine and rounded by [binary64], agree. *)
Definition machine_agrees (sample : Z * Z * (Z * Z)) : bool :=
  let '(a, b, (c, d)) := sample in
  let x := PrimFloat.div (float_of_Z a) (float_of_Z b) in
  let y := PrimFloat.div (float_of_Z c) (float_of_Z d) in
  Qeq_bool (binary64 (inject_Z a / inject_Z b)) (Q_of_float x)
  && Qeq_bool (binary64 (Q_of_float x + Q_of_float y))
       (Q_of_float (PrimFloat.add x y)).

(** ** Base64: the platform functions [btoa] and [atob] *)

(** Modelled from the spec: [encode] and [decode] call [btoa] and [atob],
    which the browser provides and the repository does not contain.
    Everything in this module is their model: the standard alphabet, the
    RFC 4648 encoding, and the forgiving-base64 decoding of the HTML
    standard with its bit buffer. *)
Module Base64.

Definition alphabet : string :=
  "ABCDEFGHIJKLMNOPQRSTUVWXYZabcdefghijklmnopqrstuvwxyz0123456789+/".

Definition code (c : ascii) : Z := Z.of_N (N_of_ascii c).
Definition chr (n : Z) : ascii := ascii_of_N (Z.to_N n).

(** The character of a six-bit group. *)
Definition b64_char (i : Z) : ascii :=
  nth (Z.to_nat i) (list_ascii_of_string alphabet) "="%char.

Fixpoint index_of (c : ascii) (l : list ascii) (i : Z) : option Z :=
  match l with
  | [] => None
  | x :: r => if Ascii.eqb c x then Some i else index_of c r (i + 1)
  end.

(** The position of a character in the alphabet, if it is in it. *)
Definition b64_index (c : ascii) : option Z :=
  index_of c (list_ascii_of_string alphabet) 0.

(** RFC 4648 section 4: each 24-bit group of three bytes gives four
    six-bit groups; a final group of one or two bytes is padded with zero
    bits on the right and completed with [=]. *)
Fixpoint encode_bytes (l : list Z) : list ascii :=
  match l with
  | [] => []
  | [a] =>
      let n := a * 16 in
      [b64_char (n / 64); b64_char (n mod 64); "="%char; "="%char]
  | [a; b] =>
      let n := (a * 256 + b) * 4 in
      [b64_char (n / 4096); b64_char (n / 64 mod 64); b64_char (n mod 64);
       "="%char]
  | a :: b :: c :: rest =>
      let n := a * 65536 + b * 256 + c in
      b64_char (n / 262144) :: b64_char (n / 4096 mod 64)
        :: b64_char (n / 64 mod 64) :: b64_char (n mod 64)
        :: encode_bytes rest
  end.

(** Modelled from the spec: [btoa] is a function of the browser, not of
    this repository ("base64Encode: standard alphabet, no line
    wrapping").  On a binary string it is the RFC 4648 encoding of the
    code units. *)
Definition btoa (binary : string) : string :=
  string_of_list_ascii
    (encode_bytes (map code (list_ascii_of_string binary))).

Definition is_ascii_whitespace (c : ascii) : bool :=
  let n := code c in
  (n =? 9) || (n =? 10) || (n =? 12) || (n =? 13) || (n =? 32).

(** Remove one or two trailing [=]. *)
Definition strip_padding (data : list ascii) : list ascii :=
  match rev data with
  | c1 :: c2 :: r =>
      if Ascii.eqb c1 "=" then
        if Ascii.eqb c2 "=" then rev r else rev (c2 :: r)
      else data
  | [c1] => if Ascii.eqb c1 "=" then [] else data
  | [] => data
  end.

Fixpoint indices (data : list ascii) : option (list Z) :=
  match data with
  | [] => Some []
  | c :: r =>
      match b64_index c, indices r with
      | Some i, Some rest => Some (i :: rest)
      | _, _ => None
      end
  end.

(** The bit buffer of the decoder: its value, the number of bits it
    holds, and the bytes put out so far. *)
Definition decoder : Type := Z * Z * list Z.

Definition push (st : decoder) (i : Z) : decoder :=
  let '(buffer, bits, output) := st in
  let buffer := buffer * 64 + i in
  let bits := bits + 6 in
  if bits =? 24 then
    (0, 0,
     output ++ [buffer / 65536; buffer / 256 mod 256; buffer mod 256])
  else (buffer, bits, output).

Definition flush (st : decoder) : list Z :=
  let '(buffer, bits, output) := st in
  if bits =? 12 then output ++ [buffer / 16]
  else if bits =? 18 then
    let buffer := buffer / 4 in
    output ++ [buffer / 256; buffer mod 256]
  else output.

(** Modelled from the spec: [atob] is a function of the browser, not of
    this repository ("base64Decode: fails with DecodeError on malformed
    input (non-alphabet characters or invalid padding)").  This is the
    forgiving-base64 decoding of the HTML standard: ASCII whitespace is
    removed; if the length is then a multiple of 4, one or two trailing
    [=] are removed; a length of 1 modulo 4 or a character outside the
    alphabet is a failure; the six-bit groups are accumulated, three
    bytes put out for every 24 bits, and the 12 or 18 bits left over
    give one or two more bytes. *)
Definition atob (data : string) : option string :=
  let data :=
    List.filter (fun c => negb (is_ascii_whitespace c))
           (list_ascii_of_string data) in
  let data :=
    if Z.of_nat (length data) mod 4 =? 0 then strip_padding data
    else data in
  if Z.of_nat (length data) mod 4 =? 1 then None
  else
    match indices data with
    | None => None
    | Some sextets =>
        Some (string_of_list_ascii
                (map chr (flush (fold_left push sextets (0, 0, [])))))
    end.

End Base64.

(** ** The audio utility functions *)

(** [decode(base64)]: the bytes of [atob(base64)], one per code unit. *)
Definition decode (base64 : string) : option (list Z) :=
  match Base64.atob base64 with
  | None => None
  | Some binaryString =>
      Some (map Base64.code (list_ascii_of_string binaryString))
  end.

(** [encode(bytes)]: [btoa] of the binary string with one code unit per
    byte. *)
Definition encode (bytes : list Z) : string :=
  let binary :=
    fold_left (fun binary b => (binary +:+ String (Base64.chr b) "")%string)
              bytes ""%string in
  Base64.btoa binary.

Record GenAIBlob : Type := mkBlob { data : string; mimeType : string }.

(** The loop of [createBlob]: [int16[i] = data[i] * 32768]. *)
Definition floatToInt16 (data : list number) : list Z :=
  map (fun x => ToInt16 (mul32768 x)) data.

Definition floatToPcm16 (data : list number) : list Z :=
  Uint8Array_of_Int16Array (floatToInt16 data).

Definition createBlob (data : list number) : GenAIBlob :=
  {| data := encode (floatToPcm16 data);
     mimeType := "audio/pcm;rate=16000" |}.

Record AudioBuffer : Type := mkAudioBuffer {
  numberOfChannels : nat;
  frames : nat;
  sampleRate : Z;
  channelData : list (list number)
}.

(** [buffer.duration]: length over sample rate, in seconds. *)
Definition duration (b : AudioBuffer) : Q :=
  (inject_Z (Z.of_nat (frames b)) / inject_Z (sampleRate b))%Q.

(** The two loops of [decodeAudioData]: channel [channel] receives
    [dataInt16[i * numChannels + channel] / 32768.0] for each frame [i]. *)
Definition deinterleave (dataInt16 : list Z) (numChannels frameCount : nat)
  : list (list number) :=
  map (fun channel =>
         map (fun i => div32768 (nth (i * numChannels + channel) dataInt16 0))
             (seq 0 frameCount))
      (seq 0 numChannels).

(** [decodeAudioData(data, ctx, sampleRate, numChannels)].  The frame count
    [dataInt16.length / numChannels] is cut to an integer by
    [createBuffer], which throws [NotSupportedError] for zero channels or
    zero frames; stores past the end of a channel are ignored. *)
Definition decodeAudioData (data : list Z) (sampleRate : Z) (numChannels : nat)
  : option AudioBuffer :=
  match Int16Array_of_buffer data with
  | None => None
  | Some dataInt16 =>
      let frameCount := (length dataInt16 / numChannels)%nat in
      if ((numChannels =? 0) || (frameCount =? 0))%nat then None
      else
        Some {| numberOfChannels := numChannels;
                frames := frameCount;
                sampleRate := sampleRate;
                channelData := deinterleave dataInt16 numChannels frameCount |}
  end.

(** ** The live session: React state, refs and browser objects *)

(** [agents.find(a => a.id === agentId)] works on these records
    ([types.ts]). *)
Record Agent : Type := mkAgent {
  id : string;
  name : string;
  persona : string;
  knowledgeBase : string;
  greeting : string;
  callFlow : string;
  phoneNumber : string
}.

Record Turn : Type := mkTurn { userInput : string; agentResponse : string }.

(** The fields of [message.serverContent] that [onmessage] reads.  A
    transcription object is truthy whenever it is present; its [text] may
    be undefined.  [inlineData] is
    [modelTurn?.parts[0]?.inlineData?.data]; a [modelTurn] without [parts]
    makes the handler throw at that point, after the transcript updates,
    which leaves the state as a message without audio does. *)
Record Transcription : Type := mkTranscription { text : option string }.

Record LiveServerMessage : Type := mkMessage {
  outputTranscription : option Transcription;
  inputTranscription : option Transcription;
  turnComplete : bool;
  inlineData : option string
}.

(** [s + text] on strings, where an undefined [text] reads ["undefined"]. *)
Definition string_add (s : string) (text : option string) : string :=
  (s +:+ match text with Some t => t | None => "undefined" end)%string.

(** A [.then] callback waiting on the promise of [connect]. *)
Inductive Reaction : Type :=
| SendRealtimeInput (media : GenAIBlob)
| CloseSession.

(** The promise of [connect] is pending ([Connecting]), or fulfilled with
    a session that is [Open] or [Closed]. *)
Inductive ConnectionStatus : Type := Connecting | Open | Closed.

(** One call of [ai.live.connect]: the promise it returned, the session
    behind it, and what its callbacks closed over, namely the
    [currentLiveTranscription] of the render whose
    [handleStartLiveSession] made the call. *)
Record Connection : Type := mkConnection {
  status : ConnectionStatus;
  reactions : list Reaction;
  sent : list GenAIBlob;
  systemInstruction : string;
  closure : Turn
}.

Record AudioContext : Type := mkAudioContext {
  contextSampleRate : Z;
  closed : bool
}.

(** An [AudioBufferSourceNode] after [source.start(when)]. *)
Record BufferSource : Type := mkBufferSource {
  buffer : AudioBuffer;
  when : Q;
  context : nat
}.

(** The [useState] cells of [App] that the live session uses. *)
Record ReactState : Type := mkReactState {
  agents : list Agent;
  isLiveSessionActive : bool;
  liveStatus : string;
  liveTranscript : list Turn;
  currentLiveTranscription : Turn
}.

(** The [useRef] cells; an object is held by its index in [Browser]. *)
Record Refs : Type := mkRefs {
  sessionPromiseRef : option nat;
  microphoneStreamRef : option nat;
  inputAudioContextRef : option nat;
  outputAudioContextRef : option nat;
  scriptProcessorRef : option nat;
  nextStartTimeRef : Q;
  audioSourcesRef : gset nat
}.

(** The objects the handlers create and act on.  A media stream is [true]
    while its tracks are live; a script processor is [true] while it is
    connected. *)
Record Browser : Type := mkBrowser {
  API_KEY : option string;
  alerts : list string;
  connections : list Connection;
  streams : list bool;
  contexts : list AudioContext;
  processors : list bool;
  sources : list BufferSource
}.

Record App : Type := mkApp { ui : ReactState; refs : Refs; browser : Browser }.

Definition with_ui (f : ReactState -> ReactState) (s : App) : App :=
  {| ui := f (ui s); refs := refs s; browser := browser s |}.
Definition with_refs (f : Refs -> Refs) (s : App) : App :=
  {| ui := ui s; refs := f (refs s); browser := browser s |}.
Definition with_browser (f : Browser -> Browser) (s : App) : App :=
  {| ui := ui s; refs := refs s; browser := f (browser s) |}.

Definition setIsLiveSessionActive (v : bool) : App -> App :=
  with_ui (fun u =>
    mkReactState (agents u) v (liveStatus u) (liveTranscript u)
                 (currentLiveTranscription u)).
Definition setLiveStatus (v : string) : App -> App :=
  with_ui (fun u =>
    mkReactState (agents u) (isLiveSessionActive u) v (liveTranscript u)
                 (currentLiveTranscription u)).
Definition setLiveTranscript (f : list Turn -> list Turn) : App -> App :=
  with_ui (fun u =>
    mkReactState (agents u) (isLiveSessionActive u) (liveStatus u)
                 (f (liveTranscript u)) (currentLiveTranscription u)).
Definition setCurrentLiveTranscription (f : Turn -> Turn) : App -> App :=
  with_ui (fun u =>
    mkReactState (agents u) (isLiveSessionActive u) (liveStatus u)
                 (liveTranscript u) (f (currentLiveTranscription u))).

Definition set_sessionPromiseRef (v : option nat) : App -> App :=
  with_refs (fun r =>
    mkRefs v (microphoneStreamRef r) (inputAudioContextRef r)
           (outputAudioContextRef r) (scriptProcessorRef r)
           (nextStartTimeRef r) (audioSourcesRef r)).
Definition set_microphoneStreamRef (v : option nat) : App -> App :=
  with_refs (fun r =>
    mkRefs (sessionPromiseRef r) v (inputAudioContextRef r)
           (outputAudioContextRef r) (scriptProcessorRef r)
           (nextStartTimeRef r) (audioSourcesRef r)).
Definition set_inputAudioContextRef (v : option nat) : App -> App :=
  with_refs (fun r =>
    mkRefs (sessionPromiseRef r) (microphoneStreamRef r) v
           (outputAudioContextRef r) (scriptProcessorRef r)
           (nextStartTimeRef r) (audioSourcesRef r)).
Definition set_outputAudioContextRef (v : option nat) : App -> App :=
  with_refs (fun r =>
    mkRefs (sessionPromiseRef r) (microphoneStreamRef r)
           (inputAudioContextRef r) v (scriptProcessorRef r)
           (nextStartTimeRef r) (audioSourcesRef r)).
Definition set_scriptProcessorRef (v : option nat) : App -> App :=
  with_refs (fun r =>
    mkRefs (sessionPromiseRef r) (microphoneStreamRef r)
           (inputAudioContextRef r) (outputAudioContextRef r) v
           (nextStartTimeRef r) (audioSourcesRef r)).
Definition set_nextStartTimeRef (v : Q) : App -> App :=
  with_refs (fun r =>
    mkRefs (sessionPromiseRef r) (microphoneStreamRef r)
           (inputAudioContextRef r) (outputAudioContextRef r)
           (scriptProcessorRef r) v (audioSourcesRef r)).
Definition set_audioSourcesRef (v : gset nat) : App -> App :=
  with_refs (fun r =>
    mkRefs (sessionPromiseRef r) (microphoneStreamRef r)
           (inputAudioContextRef r) (outputAudioContextRef r)
           (scriptProcessorRef r) (nextStartTimeRef r) v).

Definition set_alerts (f : list string -> list string) : App -> App :=
  with_browser (fun b =>
    mkBrowser (API_KEY b) (f (alerts b)) (connections b) (streams b)
              (contexts b) (processors b) (sources b)).
Definition set_connections (f : list Connection -> list Connection)
  : App -> App :=
  with_browser (fun b =>
    mkBrowser (API_KEY b) (alerts b) (f (connections b)) (streams b)
              (contexts b) (processors b) (sources b)).
Definition set_streams (f : list bool -> list bool) : App -> App :=
  with_browser (fun b =>
    mkBrowser (API_KEY b) (alerts b) (connections b) (f (streams b))
              (contexts b) (processors b) (sources b)).
Definition set_contexts (f : list AudioContext -> list AudioContext)
  : App -> App :=
  with_browser (fun b =>
    mkBrowser (API_KEY b) (alerts b) (connections b) (streams b)
              (f (contexts b)) (processors b) (sources b)).
Definition set_processors (f : list bool -> list bool) : App -> App :=
  with_browser (fun b =>
    mkBrowser (API_KEY b) (alerts b) (connections b) (streams b)
              (contexts b) (f (processors b)) (sources b)).
Definition set_sources (f : list BufferSource -> list BufferSource)
  : App -> App :=
  with_browser (fun b =>
    mkBrowser (API_KEY b) (alerts b) (connections b) (streams b)
              (contexts b) (processors b) (f (sources b))).

(** [App] as first rendered: the initial values of [useState] and
    [useRef]. *)
Definition initialApp (stored : list Agent) (key : option string) : App :=
  {| ui := mkReactState stored false "Disconnected" [] (mkTurn "" "");
     refs := mkRefs None None None None None 0 ∅;
     browser := mkBrowser key [] [] [] [] [] [] |}.

(** *** Promises and sessions *)

(** A reaction run on the fulfilled promise: [sendRealtimeInput] reaches
    the remote end only while the session is open; [close] closes it. *)
Definition run_reaction (c : Connection) (r : Reaction) : Connection :=
  match r with
  | SendRealtimeInput media =>
      match status c with
      | Open =>
          mkConnection Open (reactions c) (sent c ++ [media])
                       (systemInstruction c) (closure c)
      | _ => c
      end
  | CloseSession =>
      mkConnection Closed (reactions c) (sent c) (systemInstruction c)
                   (closure c)
  end.

(** [promise.then(reaction)]: kept until fulfilment while the promise is
    pending, run at once (in the microtask that follows) when it is
    already fulfilled. *)
Definition promise_then (r : Reaction) (c : Connection) : Connection :=
  match status c with
  | Connecting =>
      mkConnection Connecting (reactions c ++ [r]) (sent c)
                   (systemInstruction c) (closure c)
  | _ => run_reaction c r
  end.

(** Fulfilment of the promise of [connect]: the session is open and the
    waiting reactions run in the order they were registered. *)
Definition fulfil (c : Connection) : Connection :=
  match status c with
  | Connecting =>
      fold_left run_reaction (reactions c)
        (mkConnection Open [] (sent c) (systemInstruction c) (closure c))
  | _ => c
  end.

(** The remote end or the network closed the socket. *)
Definition socket_closed (c : Connection) : Connection :=
  mkConnection Closed [] (sent c) (systemInstruction c) (closure c).

Definition close_context (c : AudioContext) : AudioContext :=
  mkAudioContext (contextSampleRate c) true.

(** *** The handlers of [App] *)

(** [handleStopLiveSession]. *)
Definition handleStopLiveSession (s : App) : App :=
  let s :=
    match sessionPromiseRef (refs s) with
    | Some c => set_connections (alter (promise_then CloseSession) c) s
    | None => s
    end in
  let s := set_sessionPromiseRef None s in
  let s :=
    match microphoneStreamRef (refs s) with
    | Some stream => set_streams (<[stream := false]>) s
    | None => s
    end in
  let s := set_microphoneStreamRef None s in
  let s :=
    match scriptProcessorRef (refs s) with
    | Some p => set_processors (<[p := false]>) s
    | None => s
    end in
  let s := set_scriptProcessorRef None s in
  let s :=
    match inputAudioContextRef (refs s) with
    | Some ctx => set_contexts (alter close_context ctx) s
    | None => s
    end in
  let s :=
    match outputAudioContextRef (refs s) with
    | Some ctx => set_contexts (alter close_context ctx) s
    | None => s
    end in
  let s := setIsLiveSessionActive false s in
  setLiveStatus "Disconnected" s.

(** [onopen], up to its [await] of [getUserMedia]. *)
Definition onopen (s : App) : App :=
  let s := setLiveStatus "Connected" s in
  let ctx := length (contexts (browser s)) in
  let s := set_contexts (fun l => l ++ [mkAudioContext 16000 false]) s in
  set_inputAudioContextRef (Some ctx) s.

(** [onopen], from the fulfilment of [getUserMedia] with a new live
    stream to its end.  The stream is stored before anything else is done
    with it; the model lets the nodes be created whether or not the input
    context is still open. *)
Definition onopen_resume (s : App) : App :=
  let stream := length (streams (browser s)) in
  let s := set_streams (fun l => l ++ [true]) s in
  let s := set_microphoneStreamRef (Some stream) s in
  match inputAudioContextRef (refs s) with
  | None => s
  | Some _ =>
      let p := length (processors (browser s)) in
      let s := set_processors (fun l => l ++ [true]) s in
      set_scriptProcessorRef (Some p) s
  end.

(** [onaudioprocess], the callback of the script processor. *)
Definition onaudioprocess (inputData : list number) (s : App) : App :=
  let pcmBlob := createBlob inputData in
  match sessionPromiseRef (refs s) with
  | Some c =>
      set_connections (alter (promise_then (SendRealtimeInput pcmBlob)) c) s
  | None => s
  end.

(** [onmessage].  [captured] is the [currentLiveTranscription] the
    callback closed over; [currentTime] is the clock of the output
    context when the message is handled.  A payload that fails to decode
    makes the handler throw after it has moved [nextStartTimeRef].  The
    one [await] of the handler is on a promise that is already settled:
    the handler is taken to run to its end before any other callback.
    [nextStartTimeRef.current += audioBuffer.duration] is a binary64 sum
    of binary64 numbers: [audioBuffer.duration] is the length over the
    sample rate as a binary64 number, and the sum is rounded again.
    [Math.max] is exact. *)
Definition onmessage (captured : Turn) (message : LiveServerMessage)
    (currentTime : Q) (s : App) : App :=
  let s :=
    match outputTranscription message with
    | Some transcription =>
        setCurrentLiveTranscription
          (fun prev =>
             mkTurn (userInput prev)
                    (string_add (agentResponse prev) (text transcription))) s
    | None =>
        match inputTranscription message with
        | Some transcription =>
            setCurrentLiveTranscription
              (fun prev =>
                 mkTurn (string_add (userInput prev) (text transcription))
                        (agentResponse prev)) s
        | None => s
        end
    end in
  let s :=
    if turnComplete message then
      let s := setLiveTranscript (fun prev => prev ++ [captured]) s in
      setCurrentLiveTranscription (fun _ => mkTurn "" "") s
    else s in
  match inlineData message, outputAudioContextRef (refs s) with
  | Some (String _ _ as base64Audio), Some ctx =>
      let s :=
        set_nextStartTimeRef
          (Qmax (nextStartTimeRef (refs s)) currentTime) s in
      match decode base64Audio with
      | None => s
      | Some bytes =>
          match decodeAudioData bytes 24000 1 with
          | None => s
          | Some audioBuffer =>
              let source := length (sources (browser s)) in
              let s :=
                set_sources
                  (fun l =>
                     l ++ [mkBufferSource audioBuffer
                             (nextStartTimeRef (refs s)) ctx]) s in
              let s :=
                set_nextStartTimeRef
                  (binary64 (nextStartTimeRef (refs s)
                             + binary64 (duration audioBuffer))) s in
              set_audioSourcesRef (audioSourcesRef (refs s) ∪ {[source]}) s
          end
      end
  | _, _ => s
  end.

(** [onerror]. *)
Definition onerror (message : string) (s : App) : App :=
  let s := setLiveStatus ("Error: " +:+ message) s in
  handleStopLiveSession s.

(** [onclose]. *)
Definition onclose (s : App) : App :=
  let s := setLiveStatus "Disconnected" s in
  handleStopLiveSession s.

Definition newline : string := String (ascii_of_nat 10) "".

(** The system instruction [handleStartLiveSession] passes to [connect]. *)
Definition systemInstruction_of (agent : Agent) : string :=
  (persona agent +:+ newline +:+ newline +:+ "KNOWLEDGE BASE:" +:+ newline
   +:+ knowledgeBase agent)%string.

(** [handleStartLiveSession].  The callbacks it passes to [connect] close
    over the [currentLiveTranscription] of the render it belongs to, which
    is the state it is called in. *)
Definition handleStartLiveSession (agentId : string) (s : App) : App :=
  match List.find (fun a => String.eqb (id a) agentId) (agents (ui s)),
        API_KEY (browser s) with
  | Some agent, Some (String _ _) =>
      let captured := currentLiveTranscription (ui s) in
      let s := setIsLiveSessionActive true s in
      let s := setLiveStatus "Connecting..." s in
      let s := setLiveTranscript (fun _ => []) s in
      let s := setCurrentLiveTranscription (fun _ => mkTurn "" "") s in
      let ctx := length (contexts (browser s)) in
      let s := set_contexts (fun l => l ++ [mkAudioContext 24000 false]) s in
      let s := set_outputAudioContextRef (Some ctx) s in
      let s := set_nextStartTimeRef 0 s in
      let s := set_audioSourcesRef ∅ s in
      let c := length (connections (browser s)) in
      let s :=
        set_connections
          (fun l =>
             l ++ [mkConnection Connecting [] [] (systemInstruction_of agent)
                     captured]) s in
      set_sessionPromiseRef (Some c) s
  | _, _ =>
      set_alerts
        (fun l => l ++ ["Agent not found or API key is missing."%string]) s
  end.

(** *** The [LiveConversation] component *)

(** The component renders the start panel only while [isSessionActive] is
    false, and its button is disabled while no agent is selected; it
    renders the stop button only while [isSessionActive] is true. *)
Definition LiveConversation_start (selectedAgentId : string) (s : App) : App :=
  if isLiveSessionActive (ui s) then s
  else
    match selectedAgentId with
    | EmptyString => s
    | _ => handleStartLiveSession selectedAgentId s
    end.

Definition LiveConversation_stop (s : App) : App :=
  if isLiveSessionActive (ui s) then handleStopLiveSession s else s.

(** *** The event loop *)

(** What can run between two turns of the event loop.  Each event runs one
    handler, or one stretch of a handler between two [await]s, to its
    end.  The user reaches [handleStartLiveSession] and
    [handleStopLiveSession] through the [LiveConversation] component; the
    transport calls back for a connection that exists.  Which sequences
    the transport and the browser can produce is not part of the model. *)
Inductive Event : Type :=
| StartLiveSession (agentId : string)
| StopLiveSession
| TransportOpen (c : nat)
| MicrophoneGranted (c : nat)
| ConnectFulfilled (c : nat)
| TransportMessage (c : nat) (message : LiveServerMessage) (currentTime : Q)
| TransportError (c : nat) (message : string)
| TransportClose (c : nat)
| AudioProcess (p : nat) (inputData : list number)
| SourceEnded (source : nat).

Definition step (s : App) (e : Event) : App :=
  match e with
  | StartLiveSession agentId => LiveConversation_start agentId s
  | StopLiveSession => LiveConversation_stop s
  | TransportOpen c =>
      match connections (browser s) !! c with
      | Some _ => onopen s
      | None => s
      end
  | MicrophoneGranted c =>
      match connections (browser s) !! c with
      | Some _ => onopen_resume s
      | None => s
      end
  | ConnectFulfilled c => set_connections (alter fulfil c) s
  | TransportMessage c message currentTime =>
      match connections (browser s) !! c with
      | Some conn => onmessage (closure conn) message currentTime s
      | None => s
      end
  | TransportError c message =>
      match connections (browser s) !! c with
      | Some _ => onerror message s
      | None => s
      end
  | TransportClose c =>
      match connections (browser s) !! c with
      | Some _ => onclose (set_connections (alter socket_closed c) s)
      | None => s
      end
  | AudioProcess p inputData =>
      match processors (browser s) !! p with
      | Some true => onaudioprocess inputData s
      | _ => s
      end
  | SourceEnded source =>
      set_audioSourcesRef (audioSourcesRef (refs s) ∖ {[source]}) s
  end.

Definition run (s : App) (events : list Event) : App :=
  fold_left step events s.

(** ** The wording of the specification *)

(** "Multiply by 32768 and truncate to a 16-bit signed integer ...
    out-of-range inputs wrap per two's-complement truncation": the
    product rounded toward zero, and the low 16 bits of that integer read
    as a two's-complement number. *)
Definition round_toward_zero (q : Q) : Z :=
  if Qle_bool 0 q then Qfloor q else Qceiling q.

Definition wrap_int16 (n : Z) : Z :=
  let low := Z.land n 65535 in
  if Z.testbit low 15 then low - 65536 else low.

Definition pcm16_of_sample (q : Q) : Z :=
  wrap_int16 (round_toward_zero (q * 32768)).

(** "Within one quantization step". *)
Definition within_step (original reconstructed : Q) : Prop :=
  (Qabs (original - reconstructed) <= 1 # 32768)%Q.

(** ** Notions the properties are stated with *)

(** The buffer an audio payload decodes to, as [onmessage] obtains it. *)
Definition decodeChunk (base64Audio : string) : option AudioBuffer :=
  match decode base64Audio with
  | Some bytes => decodeAudioData bytes 24000 1
  | None => None
  end.

(** An audio chunk as it arrives: the message that carries it, the clock
    of the output context at that moment, and the buffer its payload
    decodes to. *)
Record Arrival : Type := mkArrival {
  arrivalMessage : LiveServerMessage;
  arrivalTime : Q;
  arrivalBuffer : AudioBuffer
}.

Definition carries_audio (a : Arrival) : Prop :=
  exists base64Audio : string,
    inlineData (arrivalMessage a) = Some base64Audio /\
    base64Audio <> ""%string /\
    decodeChunk base64Audio = Some (arrivalBuffer a).

Definition deliver (captured : Turn) (s : App) (a : Arrival) : App :=
  onmessage captured (arrivalMessage a) (arrivalTime a) s.

(** The next start time after a buffer started at [t], as the scheduler
    computes it: the binary64 sum of [t] and the duration of the buffer. *)
Definition advance (t : Q) (b : AudioBuffer) : Q :=
  binary64 (t + binary64 (duration b)).

(** No idle gap: every chunk arrives before the audio scheduled so far
    has run out, [next] being the next start time the scheduler holds. *)
Fixpoint in_time (next : Q) (arrivals : list Arrival) : Prop :=
  match arrivals with
  | [] => True
  | a :: rest =>
      (arrivalTime a <= next)%Q /\
      in_time (advance next (arrivalBuffer a)) rest
  end.

(** The start times [t], [t (+) d1], [(t (+) d1) (+) d2], ..., with [(+)]
    the sum the scheduler computes. *)
Fixpoint scheduled (t : Q) (buffers : list AudioBuffer) : list Q :=
  match buffers with
  | [] => []
  | b :: rest => t :: scheduled (advance t b) rest
  end.

(** Each source starts at the next start time computed after the one
    before it. *)
Fixpoint consecutive (l : list BufferSource) : Prop :=
  match l with
  | x :: (y :: _) as rest =>
      when y = advance (when x) (buffer x) /\ consecutive rest
  | _ => True
  end.

(** The next start time computed after a source is its exact end up to
    the rounding of the sum: they differ by at most [2^-51] of the end. *)
Definition ends_within_rounding (x : BufferSource) : Prop :=
  (Qabs (advance (when x) (buffer x) - (when x + duration (buffer x)))
   <= (when x + duration (buffer x)) * pow2 (-51))%Q.

(** The same notions in exact arithmetic, as the specification words
    them.  "No idle gap": every chunk arrives before the audio scheduled
    so far has run out, [next] being the exact end of that audio. *)
Fixpoint no_idle_gap (next : Q) (arrivals : list Arrival) : Prop :=
  match arrivals with
  | [] => True
  | a :: rest =>
      (arrivalTime a <= next)%Q /\
      no_idle_gap (next + duration (arrivalBuffer a)) rest
  end.

(** The start times [t], [t + d1], [t + d1 + d2], ... *)
Fixpoint back_to_back (t : Q) (durations : list Q) : list Q :=
  match durations with
  | [] => []
  | d :: rest => t :: back_to_back (t + d) rest
  end.

(** Each source starts exactly where the one before it ends. *)
Fixpoint abutting (l : list BufferSource) : Prop :=
  match l with
  | x :: (y :: _) as rest =>
      when y = (when x + duration (buffer x))%Q /\ abutting rest
  | _ => True
  end.

(** [ref.current?.close()] on the table of audio contexts. *)
Definition close_ref (ref : option nat) (l : list AudioContext)
  : list AudioContext :=
  match ref with
  | Some ctx => alter close_context ctx l
  | None => l
  end.

(** The transport of a connection is closed or will be closed as soon as
    [connect] resolves: the session is closed, or the promise is pending
    with a [session.close()] waiting on it. *)
Definition closing (c : Connection) : Prop :=
  status c = Closed \/
  (status c = Connecting /\ In CloseSession (reactions c)).

(** Connection [c] exists and satisfies [P]. *)
Definition connection_is (P : Connection -> Prop) (c : nat) (s : App) : Prop :=
  exists conn : Connection,
    connections (browser s) !! c = Some conn /\ P conn.

(** A session is held and is Connecting or Open. *)
Definition session_live (s : App) : Prop :=
  exists (c : nat) (conn : Connection),
    sessionPromiseRef (refs s) = Some c /\
    connections (browser s) !! c = Some conn /\
    (status conn = Connecting \/ status conn = Open).

(** Whenever a session promise is held, the session is shown as active. *)
Definition held_is_active (s : App) : Prop :=
  sessionPromiseRef (refs s) <> None -> isLiveSessionActive (ui s) = true.

(** ** Sample inputs *)

Definition ann : Agent :=
  mkAgent "a1" "Ann" "You are Ann." "Open from 9 to 5." "Hello!" "{}"
          "555-0100".

(** The application as first rendered, and after a first start. *)
Definition fresh : App := initialApp [ann] (Some "key"%string).
Definition started : App := handleStartLiveSession "a1" fresh.

Definition inputDelta (t : string) : LiveServerMessage :=
  mkMessage None (Some (mkTranscription (Some t))) false None.
Definition outputDelta (t : string) : LiveServerMessage :=
  mkMessage (Some (mkTranscription (Some t))) None false None.
Definition turnCompleted : LiveServerMessage :=
  mkMessage None None true None.
Definition bothDeltas (out inp : string) : LiveServerMessage :=
  mkMessage (Some (mkTranscription (Some out)))
            (Some (mkTranscription (Some inp))) false None.
Definition audioChunk (base64Audio : string) : LiveServerMessage :=
  mkMessage None None false (Some base64Audio).

(** Two frames of silence, and their arrival at a given time. *)
Definition silence : AudioBuffer :=
  mkAudioBuffer 1 2 24000 [[Finite (0 # 32768); Finite (0 # 32768)]].
Definition silentChunk (now : Q) : Arrival :=
  mkArrival (audioChunk "AAAAAA==") now silence.

(** A session in progress: started, opened, microphone granted, connect
    resolved, and one audio chunk scheduled. *)
Definition live : App :=
  run fresh
    [StartLiveSession "a1"; TransportOpen 0; MicrophoneGranted 0;
     ConnectFulfilled 0; TransportMessage 0 (audioChunk "AAAAAA==") 0].

(** Stop before the socket opens; the socket then opens, [connect]
    resolves, the session is closed and its close event arrives, and only
    then is the microphone granted. *)
Definition early_stop : list Event :=
  [StartLiveSession "a1"; StopLiveSession; TransportOpen 0;
   ConnectFulfilled 0; TransportClose 0; MicrophoneGranted 0].

(** ** The rest of [App]: agents and navigation *)

(** [prev.findIndex(a => a.id === agentId)]; [None] is [-1]. *)
Fixpoint findIndex (agentId : string) (prev : list Agent) : option nat :=
  match prev with
  | [] => None
  | a :: rest =>
      if String.eqb (id a) agentId then Some 0%nat
      else option_map S (findIndex agentId rest)
  end.

(** The updater [handleSaveAgent] passes to [setAgents]: the agent with
    the same id is replaced in a copy of the list, or the agent is
    appended. *)
Definition saveAgent (agentToSave : Agent) (prev : list Agent) : list Agent :=
  match findIndex (id agentToSave) prev with
  | Some index => <[index := agentToSave]> prev
  | None => prev ++ [agentToSave]
  end.

Definition setAgents (f : list Agent -> list Agent) : App -> App :=
  with_ui (fun u =>
    mkReactState (f (agents u)) (isLiveSessionActive u) (liveStatus u)
                 (liveTranscript u) (currentLiveTranscription u)).

(** [handleSaveAgent]. *)
Definition handleSaveAgent (agentToSave : Agent) : App -> App :=
  setAgents (saveAgent agentToSave).

(** [agents.find(a => a.id === agentId)]. *)
Definition findAgent (agentId : string) (l : list Agent) : option Agent :=
  List.find (fun a => String.eqb (id a) agentId) l.

Inductive Tab : Type :=
| dashboard | builder | manager | simulation | logs | live_tab.

Inductive Role : Type := user_role | agent_role.

(** [TranscriptEntry] and [CallLog] of [types.ts]. *)
Record TranscriptEntry : Type := mkTranscriptEntry {
  entry_role : Role;
  entry_text : string;
  entry_timestamp : Z
}.

Record CallLog : Type := mkCallLog {
  call_id : string;
  call_agentId : string;
  call_agentName : string;
  call_customerNumber : string;
  call_startTime : Z;
  call_endTime : option Z;
  call_transcript : list TranscriptEntry;
  call_audioRecordingUrl : option string
}.

Definition Tab_eqb (a b : Tab) : bool :=
  match a, b with
  | dashboard, dashboard | builder, builder | manager, manager
  | simulation, simulation | logs, logs | live_tab, live_tab => true
  | _, _ => false
  end.

(** [isDisabled] of [NavButton], its four assignments in order. *)
Definition NavButton_isDisabled (tabName : Tab) (currentCall : option CallLog)
    (isLiveSessionActive : bool) : bool :=
  let isDisabled :=
    Tab_eqb tabName simulation
    && match currentCall with None => true | Some _ => false end in
  let isDisabled :=
    if Tab_eqb tabName live_tab then
      match currentCall with None => false | Some _ => true end
    else isDisabled in
  let isDisabled :=
    if negb (Tab_eqb tabName live_tab) && negb (Tab_eqb tabName simulation)
       && isLiveSessionActive
    then true else isDisabled in
  let isDisabled :=
    if Tab_eqb tabName simulation && isLiveSessionActive then true
    else isDisabled in
  isDisabled.

(** [recentLogs] of [Dashboard]: [logs.slice().reverse().slice(0, 5)]. *)
Definition recentLogs (logs : list CallLog) : list CallLog :=
  take 5 (rev logs).

(** [statusColor] of [LiveConversation]. *)
Definition statusColor (status : string) : string :=
  if String.eqb status "Connected" then "text-green-400"
  else if String.prefix "Error" status then "text-red-400"
  else if String.eqb status "Disconnected" then "text-gray-400"
  else "text-yellow-400".

(** ** The call-flow shortcut of [geminiService] *)

(** [toLowerCase] on one code unit below 256: the letters A-Z and the
    Latin-1 capitals U+00C0-U+00DE (U+00D7, the multiplication sign,
    excepted) move up by 32. *)
Definition toLowerCase_unit (c : ascii) : ascii :=
  let n := Base64.code c in
  if ((65 <=? n) && (n <=? 90))
     || ((192 <=? n) && (n <=? 222) && negb (n =? 215))
  then Base64.chr (n + 32) else c.

Fixpoint toLowerCase (s : string) : string :=
  match s with
  | EmptyString => EmptyString
  | String c rest => String (toLowerCase_unit c) (toLowerCase rest)
  end.

(** [s.includes(search)]. *)
Fixpoint includes (s search : string) : bool :=
  String.prefix search s
  || match s with
     | EmptyString => false
     | String _ rest => includes rest search
     end.

(** A value of a property of the parsed call flow.  The contents of an
    array or an object are never looked at. *)
Inductive JsonValue : Type :=
| JsonString (s : string)
| JsonNumber (q : Q)
| JsonBoolean (b : bool)
| JsonNull
| JsonArray
| JsonObject.

(** The loop of [checkCallFlow] over the enumerable properties of the
    parsed flow, in the order of [for ... in]. *)
Fixpoint firstMatch (lowerUserInput : string)
    (flow : list (string * JsonValue)) : option JsonValue :=
  match flow with
  | [] => None
  | (key, value) :: rest =>
      if includes lowerUserInput (toLowerCase key) then Some value
      else firstMatch lowerUserInput rest
  end.

(** [checkCallFlow(userInput, callFlow)], given what [JSON.parse(callFlow)]
    yields: [None] when it throws (the function catches that and returns
    [null]), else the enumerable properties of the parsed value in the
    order of [for ... in].  [JsonNull] is [null]. *)
Definition checkCallFlow (userInput : string)
    (parsed : option (list (string * JsonValue))) : JsonValue :=
  match parsed with
  | None => JsonNull
  | Some flow =>
      match firstMatch (toLowerCase userInput) flow with
      | Some value => value
      | None => JsonNull
      end
  end.

(** JavaScript truthiness of a parsed JSON value. *)
Definition truthy (v : JsonValue) : bool :=
  match v with
  | JsonString EmptyString => false
  | JsonString _ => true
  | JsonNumber q => negb (Qeq_bool q 0)
  | JsonBoolean b => b
  | JsonNull => false
  | JsonArray | JsonObject => true
  end.

(** What [simulateAgentResponse] resolves to. *)
Inductive Resolved : Type :=
| Undefined
| Value (v : JsonValue).

(** [simulateAgentResponse(agent, conversationHistory, userInput)], given
    what [JSON.parse(agent.callFlow)] yields, the API key, and the outcome
    of [generateContent]: [None] when the call throws, else the [text] of
    the response, which may be undefined. *)
Definition simulateAgentResponse (userInput : string)
    (parsed : option (list (string * JsonValue))) (key : option string)
    (remote : option (option string)) : Resolved :=
  let keywordResponse := checkCallFlow userInput parsed in
  if truthy keywordResponse then Value keywordResponse
  else
    match key with
    | Some (String _ _) =>
        match remote with
        | Some (Some responseText) => Value (JsonString responseText)
        | Some None => Undefined
        | None =>
            Value (JsonString
              "I'm sorry, I encountered a technical issue and can't respond right now.")
        end
    | _ =>
        Value (JsonString
          "Error: API key is not configured. Please set the API_KEY environment variable.")
    end.

(** ** The agent builder *)

Definition quote : string := String (ascii_of_nat 34) "".

(** [defaultCallFlow]: [JSON.stringify] of the two sample rules, indented
    by two spaces. *)
Definition defaultCallFlow : string :=
  ("{" +:+ newline
   +:+ "  " +:+ quote +:+ "pricing" +:+ quote +:+ ": " +:+ quote
   +:+ "I can share our latest rate card. What specific service are you interested in?"
   +:+ quote +:+ "," +:+ newline
   +:+ "  " +:+ quote +:+ "cancel" +:+ quote +:+ ": " +:+ quote
   +:+ "I can help with that. To start the cancellation process, I'll need your account number."
   +:+ quote +:+ newline +:+ "}")%string.

(** The form: an [Agent] without its [id], or, once an agent has been
    loaded into it, with it. *)
Record FormState : Type := mkFormState {
  form_id : option string;
  form_name : string;
  form_persona : string;
  form_knowledgeBase : string;
  form_greeting : string;
  form_callFlow : string;
  form_phoneNumber : string
}.

(** The form of a new agent; [phone] is the number drawn at random. *)
Definition newForm (phone : string) : FormState :=
  mkFormState None ""
    "You are a friendly and helpful customer support representative."
    "Our company, Think Mirai, specializes in AI-driven solutions. We offer three tiers of service: Basic, Pro, and Enterprise."
    "Hello, thank you for calling Think Mirai. How can I help you today?"
    defaultCallFlow phone.

(** [setFormState(agent)]. *)
Definition formOfAgent (a : Agent) : FormState :=
  mkFormState (Some (id a)) (name a) (persona a) (knowledgeBase a)
              (greeting a) (callFlow a) (phoneNumber a).

(** The component, with the [agents] it is given and saves into. *)
Record Builder : Type := mkBuilder {
  builderAgents : list Agent;
  selectedAgentId : string;
  formState : FormState;
  jsonError : option string
}.

Definition invalidJson : string :=
  "Invalid JSON. Check for syntax errors like missing commas or quotes.".

(** White space in the sense of [trim], among the code units below 256. *)
Definition isWhiteSpace (c : ascii) : bool :=
  let n := Base64.code c in
  ((9 <=? n) && (n <=? 13)) || (n =? 32) || (n =? 160).

(** [value.trim() === '']. *)
Fixpoint isBlank (value : string) : bool :=
  match value with
  | EmptyString => true
  | String c rest => isWhiteSpace c && isBlank rest
  end.

(** The inputs of the form, by their [name]. *)
Inductive Field : Type :=
| nameField | personaField | knowledgeBaseField | greetingField
| callFlowField.

(** [{ ...prev, [name]: value }]. *)
Definition setField (field : Field) (value : string) (f : FormState)
  : FormState :=
  match field with
  | nameField =>
      mkFormState (form_id f) value (form_persona f) (form_knowledgeBase f)
                  (form_greeting f) (form_callFlow f) (form_phoneNumber f)
  | personaField =>
      mkFormState (form_id f) (form_name f) value (form_knowledgeBase f)
                  (form_greeting f) (form_callFlow f) (form_phoneNumber f)
  | knowledgeBaseField =>
      mkFormState (form_id f) (form_name f) (form_persona f) value
                  (form_greeting f) (form_callFlow f) (form_phoneNumber f)
  | greetingField =>
      mkFormState (form_id f) (form_name f) (form_persona f)
                  (form_knowledgeBase f) value (form_callFlow f)
                  (form_phoneNumber f)
  | callFlowField =>
      mkFormState (form_id f) (form_name f) (form_persona f)
                  (form_knowledgeBase f) (form_greeting f) value
                  (form_phoneNumber f)
  end.

(** The effect on [selectedAgentId] and [agents].  [JSON_parses] tells
    whether [JSON.parse] accepts a text. *)
Definition builderEffect (JSON_parses : string -> bool) (phone : string)
    (b : Builder) : Builder :=
  if String.eqb (selectedAgentId b) "new" then
    mkBuilder (builderAgents b) (selectedAgentId b) (newForm phone) None
  else
    match findAgent (selectedAgentId b) (builderAgents b) with
    | Some agent =>
        mkBuilder (builderAgents b) (selectedAgentId b) (formOfAgent agent)
          (if JSON_parses (callFlow agent) then None else Some invalidJson)
    | None => b
    end.

(** [handleChange] of [AgentBuilder]. *)
Definition handleChange (JSON_parses : string -> bool) (field : Field)
    (value : string) (b : Builder) : Builder :=
  let error :=
    match field with
    | callFlowField =>
        if isBlank value then None
        else if JSON_parses value then None else Some invalidJson
    | _ => jsonError b
    end in
  mkBuilder (builderAgents b) (selectedAgentId b)
            (setField field value (formState b)) error.

(** [handleSubmit] of [AgentBuilder], up to the effect that follows it;
    [None] when it returns at its guard.  [now] is
    [Date.now().toString()].  The [id] of the form, when it has one,
    overrides the one computed, since the form is spread after it. *)
Definition handleSubmit (now : string) (b : Builder) : option Builder :=
  match jsonError b, form_name (formState b) with
  | None, String _ _ =>
      let f := formState b in
      let newId :=
        if String.eqb (selectedAgentId b) "new" then now
        else selectedAgentId b in
      let agentToSave :=
        mkAgent (match form_id f with Some i => i | None => newId end)
                (form_name f) (form_persona f) (form_knowledgeBase f)
                (form_greeting f) (form_callFlow f) (form_phoneNumber f) in
      Some (mkBuilder (saveAgent agentToSave (builderAgents b))
              (if String.eqb (selectedAgentId b) "new" then id agentToSave
               else selectedAgentId b)
              f (jsonError b))
  | _, _ => None
  end.

(** The values the agent selector offers. *)
Definition selectOptions (b : Builder) : list string :=
  "new"%string :: map id (builderAgents b).

(** What the user does in the builder.  [phone] is the number the effect
    draws if it makes a new form. *)
Inductive BuilderEvent : Type :=
| SelectAgent (agentId phone : string)
| Change (field : Field) (value : string)
| TextFileLoaded (fileName content : string)
| PdfFileChosen (fileName : string)
| Submit (now phone : string).

Definition builderStep (JSON_parses : string -> bool) (b : Builder)
    (e : BuilderEvent) : Builder :=
  match e with
  | SelectAgent agentId phone =>
      if String.eqb agentId (selectedAgentId b)
         || negb (existsb (String.eqb agentId) (selectOptions b))
      then b
      else
        builderEffect JSON_parses phone
          (mkBuilder (builderAgents b) agentId (formState b) (jsonError b))
  | Change field value => handleChange JSON_parses field value b
  | TextFileLoaded fileName content =>
      mkBuilder (builderAgents b) (selectedAgentId b)
        (setField knowledgeBaseField
           (form_knowledgeBase (formState b) +:+ newline +:+ newline
            +:+ "--- Content from " +:+ fileName +:+ " ---" +:+ newline
            +:+ content)
           (formState b))
        (jsonError b)
  | PdfFileChosen fileName =>
      mkBuilder (builderAgents b) (selectedAgentId b)
        (setField knowledgeBaseField
           (form_knowledgeBase (formState b) +:+ newline +:+ newline
            +:+ "[Content from PDF: " +:+ fileName +:+ "]" +:+ newline
            +:+ "This is placeholder text. In a real application, the extracted text from the PDF would appear here."
            +:+ newline)
           (formState b))
        (jsonError b)
  | Submit now phone =>
      match handleSubmit now b with
      | Some b' => builderEffect JSON_parses phone b'
      | None => b
      end
  end.

(** The component as mounted, after its first effect. *)
Definition mountBuilder (stored : list Agent) (phone : string) : Builder :=
  mkBuilder stored "new" (newForm phone) None.

Definition runBuilder (JSON_parses : string -> bool) (b : Builder)
    (events : list BuilderEvent) : Builder :=
  fold_left (builderStep JSON_parses) events b.

(** ** Notions the further properties are stated with *)

Definition is_start (e : Event) : bool :=
  match e with StartLiveSession _ => true | _ => false end.

(** The sources of a list, in order, each starting no earlier than the
    next start time computed after the one before it, the first no
    earlier than [from]. *)
Fixpoint apart (from : Q) (l : list BufferSource) : Prop :=
  match l with
  | [] => True
  | x :: rest =>
      (from <= when x)%Q /\ apart (advance (when x) (buffer x)) rest
  end.

(** The turn an event appends to the transcript, [closures] being what
    the callbacks of each connection closed over. *)
Definition finalized (closures : list Turn) (e : Event) : list Turn :=
  match e with
  | TransportMessage c message _ =>
      if turnComplete message then
        match closures !! c with Some t => [t] | None => [] end
      else []
  | _ => []
  end.

Definition delta_text (t : Transcription) : string :=
  match text t with Some x => x | None => "undefined"%string end.

(** What a message adds to each side of the partial turn. *)
Definition agentDelta (m : LiveServerMessage) : string :=
  match outputTranscription m with
  | Some t => delta_text t
  | None => ""%string
  end.

Definition userDelta (m : LiveServerMessage) : string :=
  match outputTranscription m, inputTranscription m with
  | None, Some t => delta_text t
  | _, _ => ""%string
  end.

Definition deliver_all (captured : Turn) (s : App)
    (arrivals : list (LiveServerMessage * Q)) : App :=
  fold_left (fun s a => onmessage captured (fst a) (snd a) s) arrivals s.

Definition concat_all (l : list string) : string :=
  fold_right String.append ""%string l.

Definition reachable_status (s : App) : Prop :=
  liveStatus (ui s) = "Disconnected"%string \/
  liveStatus (ui s) = "Connecting..."%string \/
  liveStatus (ui s) = "Connected"%string.

Definition active_iff_held (s : App) : Prop :=
  isLiveSessionActive (ui s) = true <-> sessionPromiseRef (refs s) <> None.

(** The session of a connection is closed and has sent what [conn0] had
    sent. *)
Definition silent_since (conn0 conn : Connection) : Prop :=
  status conn = Closed /\ sent conn = sent conn0.

(** [search] occurs in [s]. *)
Definition occurs_in (search s : string) : Prop :=
  exists pre post, s = (pre +:+ search +:+ post)%string.

(** An agent the builder may save: named, with a call flow that is blank
    or that [JSON.parse] accepts. *)
Definition acceptable (JSON_parses : string -> bool) (a : Agent) : Prop :=
  name a <> ""%string /\
  (isBlank (callFlow a) = true \/ JSON_parses (callFlow a) = true).

Definition form_checked (JSON_parses : string -> bool) (b : Builder) : Prop :=
  jsonError b = None ->
  isBlank (form_callFlow (formState b)) = true \/
  JSON_parses (form_callFlow (formState b)) = true.

(** The form belongs to the selection: no id while a new agent is being
    made, else the id selected, which is that of a stored agent. *)
Definition form_selected (b : Builder) : Prop :=
  if String.eqb (selectedAgentId b) "new" then form_id (formState b) = None
  else
    form_id (formState b) = Some (selectedAgentId b) /\
    findAgent (selectedAgentId b) (builderAgents b) <> None.

(** The agent [handleSubmit] saves from a form that belongs to the
    selection. *)
Definition agentOfForm (now : string) (b : Builder) : Agent :=
  let f := formState b in
  mkAgent (if String.eqb (selectedAgentId b) "new" then now
           else selectedAgentId b)
          (form_name f) (form_persona f) (form_knowledgeBase f)
          (form_greeting f) (form_callFlow f) (form_phoneNumber f).

(** Sample inputs. *)
Definition bob : Agent :=
  mkAgent "a1" "Bob" "You are Bob." "Closed on Sundays." "Hi!" "{}"
          "555-0101".

Definition sampleFlow : list (string * JsonValue) :=
  [("pricing"%string, JsonString "Here is our rate card.");
   ("Cancel"%string, JsonString "I can help with that.")].

(** A session whose connect is pending while the microphone runs. *)
Definition capturing : App :=
  run fresh [StartLiveSession "a1"; TransportOpen 0; MicrophoneGranted 0].

(** A toy acceptance test for JSON texts. *)
Definition braces (s : string) : bool := String.prefix "{" s.

(** ** Auxiliary definitions of the proofs *)

(** The six-bit groups of a byte sequence: [Base64.encode_bytes] without
    the alphabet and without the padding. *)
Fixpoint sextets (l : list Z) : list Z :=
  match l with
  | [] => []
  | [a] => let n := a * 16 in [n / 64; n mod 64]
  | [a; b] => let n := (a * 256 + b) * 4 in [n / 4096; n / 64 mod 64; n mod 64]
  | a :: b :: c :: rest =>
      let n := a * 65536 + b * 256 + c in
      n / 262144 :: n / 4096 mod 64 :: n / 64 mod 64 :: n mod 64
        :: sextets rest
  end.

Definition is_sextet (i : Z) : Prop := 0 <= i < 64.

Definition option_Z_eqb (a : option Z) (b : Z) : bool :=
  match a with Some x => x =? b | None => false end.

(** Goals on quotients and remainders by constants. *)
Ltac euclid := unfold is_byte, is_sextet in *; Z.div_mod_to_equations; lia.

(** Case analysis on whatever the goal matches on. *)
Ltac case_matches :=
  repeat match goal with
         | |- context [match ?x with _ => _ end] => destruct x
         end.

(** An application state, opened into its fields. *)
Ltac open_app s :=
  destruct s as [[stored active st transcript partial]
                   [session mic inp out proc next playing]
                   [key al conns strs ctxs procs srcs]].

(** A few values, computed. *)
Example ToInt16_one : ToInt16 (mul32768 (Finite 1)) = -32768.
Proof. reflexivity. Qed.

(** [binary64] against the machine: durations of buffers at 24 kHz added
    to clock times, ties, and sums past [2^53]. *)
Example binary64_on_the_machine :
  forallb machine_agrees
    [(1, 2, (2, 24000)); (4504350227308391, 9007199254740992, (2, 24000));
     (0, 1, (480, 24000)); (1, 3, (1, 24000)); (1, 10, (2, 10));
     (9007199254740992, 1, (1, 1)); (9007199254740992, 1, (3, 1));
     (4503599627370497, 1, (1, 2)); (4503599627370496, 1, (1, 2));
     (123456789, 1000, (4096, 24000)); (86400, 1, (1, 24000))]
  = true.
Proof. vm_compute. reflexivity. Qed.

Example btoa_Man : Base64.btoa "Man" = "TWFu"%string.
Proof. reflexivity. Qed.

Example btoa_Ma : Base64.btoa "Ma" = "TWE="%string.
Proof. reflexivity. Qed.

Example atob_TWE : Base64.atob "TWE=" = Some "Ma"%string.
Proof. reflexivity. Qed.

Example atob_spaces : Base64.atob "T W F u" = Some "Man"%string.
Proof. reflexivity. Qed.

Example atob_bad : Base64.atob "TWFu=" = None.
Proof. reflexivity. Qed.

Example encode_decode_example :
  decode (encode [0; 255; 16; 128]) = Some [0; 255; 16; 128].
Proof. reflexivity. Qed.

(** * Properties *)

(** ** Arithmetic of the element conversions *)

Lemma truncate_bounds (q : Q) :
  let t := truncate q in
  let n := Qnum q in
  let d := Z.pos (Qden q) in
  (0 <= n -> t * d <= n < (t + 1) * d) /\
  (n <= 0 -> (t - 1) * d < n <= t * d).
Proof.
  unfold truncate. cbv zeta.
  set (n := Qnum q). set (d := Z.pos (Qden q)).
  assert (Hd : 0 < d) by (unfold d; lia).
  pose proof (Z.quot_rem' n d) as E.
  split; intros Hn.
  - pose proof (Z.rem_bound_pos n d Hn Hd). nia.
  - pose proof (Z.rem_bound_pos_neg n d Hd Hn). nia.
Qed.

Lemma truncate_mul32768 (q : Q) :
  truncate (q * 32768) = Z.quot (Qnum q * 32768) (Z.pos (Qden q)).
Proof.
  unfold truncate. destruct q as [n d]. simpl.
  now rewrite Pos.mul_1_r.
Qed.

Lemma Qnum_mul32768 (q : Q) : Qnum (q * 32768) = Qnum q * 32768.
Proof. now destruct q. Qed.

Lemma Qden_mul32768 (q : Q) : Qden (q * 32768) = Qden q.
Proof. destruct q as [n d]. simpl. now rewrite Pos.mul_1_r. Qed.

(** Scaled by [2^15] and truncated, a sample stays within one unit of the
    scaled value. *)
Lemma truncate_scaled_error (q : Q) :
  let t := truncate (q * 32768) in
  let d := Z.pos (Qden q) in
  - d < Qnum q * 32768 - t * d < d.
Proof.
  cbv zeta.
  pose proof (truncate_bounds (q * 32768)) as [Hpos Hneg].
  cbv zeta in Hpos, Hneg.
  rewrite Qnum_mul32768, Qden_mul32768 in Hpos, Hneg.
  destruct (Z.le_ge_cases 0 (Qnum q)) as [H | H].
  - assert (0 <= Qnum q * 32768) as H' by lia. specialize (Hpos H'). lia.
  - assert (Qnum q * 32768 <= 0) as H' by lia. specialize (Hneg H'). lia.
Qed.

(** For a sample in [-1, 1) the scaled, truncated value is already a
    signed 16-bit integer. *)
Lemma truncate_scaled_range (q : Q) :
  (-1 <= q)%Q -> (q < 1)%Q ->
  -32768 <= truncate (q * 32768) < 32768.
Proof.
  intros Hlo Hhi.
  pose proof (truncate_bounds (q * 32768)) as [Hpos Hneg].
  cbv zeta in Hpos, Hneg.
  rewrite Qnum_mul32768, Qden_mul32768 in Hpos, Hneg.
  unfold Qle, Qlt in Hlo, Hhi. simpl in Hlo, Hhi.
  set (t := truncate (q * 32768)) in *.
  set (d := Z.pos (Qden q)) in *.
  assert (Hd : 0 < d) by (unfold d; lia).
  destruct (Z.le_ge_cases 0 (Qnum q)) as [H | H].
  - assert (0 <= Qnum q * 32768) as H' by lia. specialize (Hpos H').
    split.
    + destruct (Z.le_gt_cases 0 t); [lia |].
      assert ((t + 1) * d <= 0 * d) by (apply Z.mul_le_mono_nonneg_r; lia).
      lia.
    + destruct (Z.lt_ge_cases t 32768); [assumption |].
      assert (32768 * d <= t * d) by (apply Z.mul_le_mono_nonneg_r; lia).
      lia.
  - assert (Qnum q * 32768 <= 0) as H' by lia. specialize (Hneg H').
    split.
    + destruct (Z.le_gt_cases (-32768) t); [assumption |].
      assert (t * d <= (-32769) * d) by (apply Z.mul_le_mono_nonneg_r; lia).
      lia.
    + destruct (Z.lt_ge_cases t 1); [lia |].
      assert (0 * d <= (t - 1) * d) by (apply Z.mul_le_mono_nonneg_r; lia).
      lia.
Qed.

Lemma ToInt16_in_range (q : Q) :
  -32768 <= truncate q < 32768 -> ToInt16 (Finite q) = truncate q.
Proof.
  intros H. unfold ToInt16. cbv zeta.
  destruct (32768 <=? truncate q mod 65536) eqn:E;
    [apply Z.leb_le in E | apply Z.leb_gt in E];
    Z.div_mod_to_equations; lia.
Qed.

Lemma ToInt16_range (x : number) : -32768 <= ToInt16 x < 32768.
Proof.
  destruct x as [q | | |]; simpl; try lia.
  destruct (32768 <=? truncate q mod 65536) eqn:E;
    [apply Z.leb_le in E | apply Z.leb_gt in E];
    Z.div_mod_to_equations; lia.
Qed.

(** ** The byte view of an [Int16Array] and back *)

Lemma Int16Array_of_buffer_view (int16 : list Z) :
  Forall (fun v => -32768 <= v < 32768) int16 ->
  Int16Array_of_buffer (Uint8Array_of_Int16Array int16) = Some int16.
Proof.
  induction 1 as [| v vs Hv _ IH]; [reflexivity |].
  cbn [Uint8Array_of_Int16Array flat_map app Int16Array_of_buffer].
  fold (Uint8Array_of_Int16Array vs). rewrite IH. cbn [option_map].
  do 2 f_equal.
  destruct (32768 <=? v mod 256 + 256 * (v / 256 mod 256)) eqn:E;
    [apply Z.leb_le in E | apply Z.leb_gt in E];
    Z.div_mod_to_equations; lia.
Qed.

Lemma Uint8Array_of_Int16Array_bytes (int16 : list Z) :
  Forall is_byte (Uint8Array_of_Int16Array int16).
Proof.
  induction int16 as [| v vs IH]; [constructor |].
  cbn [Uint8Array_of_Int16Array flat_map app].
  repeat constructor; try apply IH;
    unfold is_byte; Z.div_mod_to_equations; lia.
Qed.

Lemma floatToInt16_range (data : list number) :
  Forall (fun v => -32768 <= v < 32768) (floatToInt16 data).
Proof.
  unfold floatToInt16. apply Forall_map, Forall_forall.
  intros x _. apply ToInt16_range.
Qed.

Lemma map_nth_seq {A B : Type} (f : A -> B) (d : A) (l : list A) :
  map (fun i => f (nth i l d)) (seq 0 (length l)) = map f l.
Proof.
  induction l as [| a l IH]; [reflexivity |].
  cbn [length seq map nth]. f_equal.
  rewrite <- seq_shift, map_map. exact IH.
Qed.

Lemma deinterleave_mono (dataInt16 : list Z) :
  deinterleave dataInt16 1 (length dataInt16 / 1)%nat
  = [map div32768 dataInt16].
Proof.
  unfold deinterleave. rewrite Nat.div_1_r. cbn [seq map]. f_equal.
  rewrite <- (map_nth_seq div32768 0 dataInt16).
  apply map_ext. intros i. now rewrite Nat.mul_1_r, Nat.add_0_r.
Qed.

(** ** Base64 *)

Section ListInduction.

Context {A : Type} (P : list A -> Prop).
Hypothesis P0 : P [].
Hypothesis P1 : forall a, P [a].
Hypothesis P2 : forall a b, P [a; b].
Hypothesis P3 : forall a b c l, P l -> P (a :: b :: c :: l).

(** Induction on a list three elements at a time. *)
Lemma list_ind3 (l : list A) : P l.
Proof.
  enough (P l /\ (forall a, P (a :: l)) /\ (forall a b, P (a :: b :: l)))
    by tauto.
  induction l as [| x l (IH0 & IH1 & IH2)]; auto.
Qed.

End ListInduction.

Lemma code_range (c : ascii) : is_byte (Base64.code c).
Proof.
  unfold is_byte, Base64.code.
  pose proof (N_ascii_bounded c). lia.
Qed.

Lemma code_chr (b : Z) : is_byte b -> Base64.code (Base64.chr b) = b.
Proof.
  unfold is_byte, Base64.code, Base64.chr. intros H.
  rewrite N_ascii_embedding by lia. lia.
Qed.

Lemma chr_code (c : ascii) : Base64.chr (Base64.code c) = c.
Proof.
  unfold Base64.code, Base64.chr.
  rewrite N2Z.id. apply ascii_N_embedding.
Qed.

(** A property of the 64 six-bit values, checked on each of them. *)
Lemma sextet_cases (P : Z -> bool) :
  forallb P (map Z.of_nat (seq 0 64)) = true ->
  forall i, 0 <= i < 64 -> P i = true.
Proof.
  intros H i Hi. rewrite forallb_forall in H. apply H.
  apply in_map_iff. exists (Z.to_nat i). split; [lia |].
  apply in_seq. lia.
Qed.

Lemma b64_index_char (i : Z) :
  0 <= i < 64 -> Base64.b64_index (Base64.b64_char i) = Some i.
Proof.
  intros Hi.
  pose proof (sextet_cases
    (fun i => option_Z_eqb (Base64.b64_index (Base64.b64_char i)) i)
    eq_refl i Hi) as H.
  cbv beta in H. unfold option_Z_eqb in H.
  destruct (Base64.b64_index (Base64.b64_char i)); [| discriminate].
  apply Z.eqb_eq in H. now subst.
Qed.

Lemma b64_char_not_whitespace (i : Z) :
  0 <= i < 64 -> Base64.is_ascii_whitespace (Base64.b64_char i) = false.
Proof.
  intros Hi. apply negb_true_iff.
  exact (sextet_cases
    (fun i => negb (Base64.is_ascii_whitespace (Base64.b64_char i)))
    eq_refl i Hi).
Qed.

Lemma b64_char_not_pad (i : Z) :
  0 <= i < 64 -> Ascii.eqb (Base64.b64_char i) "=" = false.
Proof.
  intros Hi. apply negb_true_iff.
  exact (sextet_cases
    (fun i => negb (Ascii.eqb (Base64.b64_char i) "="))
    eq_refl i Hi).
Qed.

Lemma sextets_range (l : list Z) :
  Forall is_byte l -> Forall is_sextet (sextets l).
Proof.
  induction l as [| a | a b | a b c l IH] using list_ind3; intros H.
  - constructor.
  - inversion_clear H as [| ? ? Ha _]. cbn [sextets].
    repeat constructor; euclid.
  - inversion_clear H as [| ? ? Ha H']. inversion_clear H' as [| ? ? Hb _].
    cbn [sextets]. repeat constructor; euclid.
  - inversion_clear H as [| ? ? Ha H']. inversion_clear H' as [| ? ? Hb H''].
    inversion_clear H'' as [| ? ? Hc Hl].
    cbn [sextets]. repeat (constructor; [euclid |]). auto.
Qed.

Lemma sextets_length (l : list Z) :
  Z.of_nat (length (sextets l)) mod 4 <> 1.
Proof.
  induction l as [| a | a b | a b c l IH] using list_ind3;
    cbn [sextets length]; try (cbv; discriminate).
  replace (Z.of_nat (S (S (S (S (length (sextets l)))))))
    with (Z.of_nat (length (sextets l)) + 1 * 4) by lia.
  now rewrite Z.mod_add by lia.
Qed.

Lemma strip_padding_cons (x : ascii) (l : list ascii) :
  Ascii.eqb x "=" = false -> l <> [] ->
  Base64.strip_padding (x :: l) = x :: Base64.strip_padding l.
Proof.
  intros Hx Hl. unfold Base64.strip_padding. cbn [rev].
  destruct (rev l) as [| c1 [| c2 r]] eqn:E.
  - apply (f_equal (@rev ascii)) in E. rewrite rev_involutive in E.
    now subst.
  - cbn [app]. rewrite Hx. destruct (Ascii.eqb c1 "="); reflexivity.
  - cbn [app]. destruct (Ascii.eqb c1 "="); [| reflexivity].
    destruct (Ascii.eqb c2 "=").
    + now rewrite rev_app_distr.
    + change (c2 :: r ++ [x]) with ((c2 :: r) ++ [x]).
      now rewrite rev_app_distr.
Qed.

Lemma encode_bytes_nonempty (a : Z) (l : list Z) :
  Base64.encode_bytes (a :: l) <> [].
Proof. destruct l as [| b [| c l]]; discriminate. Qed.

Lemma strip_padding_encode_bytes (l : list Z) :
  Forall is_byte l ->
  Base64.strip_padding (Base64.encode_bytes l)
  = map Base64.b64_char (sextets l).
Proof.
  induction l as [| a | a b | a b c l IH] using list_ind3; intros H.
  - reflexivity.
  - inversion_clear H as [| ? ? Ha _].
    cbn [Base64.encode_bytes sextets map].
    unfold Base64.strip_padding. cbn. reflexivity.
  - inversion_clear H as [| ? ? Ha H']. inversion_clear H' as [| ? ? Hb _].
    cbn [Base64.encode_bytes sextets map].
    unfold Base64.strip_padding. cbn [rev app].
    change (Ascii.eqb "=" "=") with true. cbv iota.
    rewrite b64_char_not_pad by euclid. reflexivity.
  - inversion_clear H as [| ? ? Ha H']. inversion_clear H' as [| ? ? Hb H''].
    inversion_clear H'' as [| ? ? Hc Hl].
    cbn [Base64.encode_bytes sextets map].
    destruct l as [| d l].
    + unfold Base64.strip_padding. cbn [Base64.encode_bytes rev app].
      rewrite b64_char_not_pad by euclid. reflexivity.
    + rewrite <- (IH Hl).
      rewrite !strip_padding_cons;
        try (apply b64_char_not_pad; euclid);
        try discriminate; try apply encode_bytes_nonempty.
      reflexivity.
Qed.

Lemma encode_bytes_no_whitespace (l : list Z) :
  Forall is_byte l ->
  List.filter (fun c => negb (Base64.is_ascii_whitespace c))
         (Base64.encode_bytes l)
  = Base64.encode_bytes l.
Proof.
  induction l as [| a | a b | a b c l IH] using list_ind3; intros H.
  - reflexivity.
  - inversion_clear H as [| ? ? Ha _].
    cbn [Base64.encode_bytes List.filter].
    rewrite !b64_char_not_whitespace by euclid. reflexivity.
  - inversion_clear H as [| ? ? Ha H']. inversion_clear H' as [| ? ? Hb _].
    cbn [Base64.encode_bytes List.filter].
    rewrite !b64_char_not_whitespace by euclid. reflexivity.
  - inversion_clear H as [| ? ? Ha H']. inversion_clear H' as [| ? ? Hb H''].
    inversion_clear H'' as [| ? ? Hc Hl].
    cbn [Base64.encode_bytes List.filter].
    rewrite !b64_char_not_whitespace by euclid. cbn [negb].
    now rewrite (IH Hl).
Qed.

Lemma encode_bytes_length (l : list Z) :
  Z.of_nat (length (Base64.encode_bytes l)) mod 4 = 0.
Proof.
  induction l as [| a | a b | a b c l IH] using list_ind3;
    cbn [Base64.encode_bytes length]; try reflexivity.
  replace (Z.of_nat (S (S (S (S (length (Base64.encode_bytes l)))))))
    with (Z.of_nat (length (Base64.encode_bytes l)) + 1 * 4) by lia.
  now rewrite Z.mod_add by lia.
Qed.

Lemma indices_b64_char (sx : list Z) :
  Forall is_sextet sx -> Base64.indices (map Base64.b64_char sx) = Some sx.
Proof.
  induction 1 as [| i sx Hi _ IH]; [reflexivity |].
  cbn [map Base64.indices]. rewrite b64_index_char by exact Hi.
  now rewrite IH.
Qed.

Lemma push_0 (buffer i : Z) (out : list Z) :
  Base64.push (buffer, 0, out) i = (buffer * 64 + i, 6, out).
Proof. reflexivity. Qed.

Lemma push_6 (buffer i : Z) (out : list Z) :
  Base64.push (buffer, 6, out) i = (buffer * 64 + i, 12, out).
Proof. reflexivity. Qed.

Lemma push_12 (buffer i : Z) (out : list Z) :
  Base64.push (buffer, 12, out) i = (buffer * 64 + i, 18, out).
Proof. reflexivity. Qed.

Lemma push_18 (buffer i : Z) (out : list Z) :
  Base64.push (buffer, 18, out) i
  = (0, 0,
     out ++ [(buffer * 64 + i) / 65536; (buffer * 64 + i) / 256 mod 256;
             (buffer * 64 + i) mod 256]).
Proof. reflexivity. Qed.

(** Pushed into an empty bit buffer and flushed, the six-bit groups of a
    byte sequence put out that byte sequence. *)
Lemma decoder_sextets (l out : list Z) :
  Forall is_byte l ->
  Base64.flush (fold_left Base64.push (sextets l) (0, 0, out)) = out ++ l.
Proof.
  revert out.
  induction l as [| a | a b | a b c l IH] using list_ind3; intros out H.
  - cbn. now rewrite app_nil_r.
  - inversion_clear H as [| ? ? Ha _].
    cbn [sextets fold_left]. rewrite push_0, push_6.
    cbn [Base64.flush Z.eqb Pos.eqb].
    do 2 f_equal. euclid.
  - inversion_clear H as [| ? ? Ha H']. inversion_clear H' as [| ? ? Hb _].
    cbn [sextets fold_left]. rewrite push_0, push_6, push_12.
    cbn [Base64.flush Z.eqb Pos.eqb].
    f_equal. f_equal; [| f_equal]; euclid.
  - inversion_clear H as [| ? ? Ha H']. inversion_clear H' as [| ? ? Hb H''].
    inversion_clear H'' as [| ? ? Hc Hl].
    cbn [sextets fold_left]. rewrite push_0, push_6, push_12, push_18.
    rewrite (IH _ Hl).
    rewrite <- app_assoc. cbn [app]. f_equal.
    f_equal; [| f_equal; [| f_equal]]; euclid.
Qed.

Lemma atob_encode_bytes (l : list Z) :
  Forall is_byte l ->
  Base64.atob (string_of_list_ascii (Base64.encode_bytes l))
  = Some (string_of_list_ascii (map Base64.chr l)).
Proof.
  intros H. unfold Base64.atob.
  rewrite list_ascii_of_string_of_list_ascii.
  rewrite encode_bytes_no_whitespace by exact H.
  rewrite encode_bytes_length. cbn [Z.eqb].
  rewrite strip_padding_encode_bytes by exact H.
  rewrite length_map.
  destruct (Z.of_nat (length (sextets l)) mod 4 =? 1) eqn:E.
  - apply Z.eqb_eq in E. now apply sextets_length in E.
  - rewrite indices_b64_char by (apply sextets_range; exact H).
    rewrite decoder_sextets by exact H. reflexivity.
Qed.

Lemma list_ascii_of_string_app (s t : string) :
  list_ascii_of_string (s +:+ t)
  = list_ascii_of_string s ++ list_ascii_of_string t.
Proof.
  induction s as [| c s IH]; [reflexivity |].
  change (String c s +:+ t)%string with (String c (s +:+ t)).
  cbn [list_ascii_of_string]. now rewrite IH.
Qed.

(** The loop of [encode] appends one code unit per byte. *)
Lemma encode_binary (bytes : list Z) (acc : string) :
  list_ascii_of_string
    (fold_left (fun binary b => binary +:+ String (Base64.chr b) "")
               bytes acc)
  = list_ascii_of_string acc ++ map Base64.chr bytes.
Proof.
  revert acc. induction bytes as [| b bytes IH]; intros acc.
  - cbn. now rewrite app_nil_r.
  - cbn [fold_left map]. rewrite IH, list_ascii_of_string_app.
    now rewrite <- app_assoc.
Qed.

Lemma map_code_chr (bytes : list Z) :
  Forall is_byte bytes -> map Base64.code (map Base64.chr bytes) = bytes.
Proof.
  induction 1 as [| b bytes Hb _ IH]; [reflexivity |].
  cbn [map]. now rewrite code_chr, IH.
Qed.

Lemma decode_encode (bytes : list Z) :
  Forall is_byte bytes -> decode (encode bytes) = Some bytes.
Proof.
  intros H. unfold decode, encode, Base64.btoa.
  rewrite encode_binary. cbn [list_ascii_of_string app].
  rewrite map_code_chr by exact H.
  rewrite atob_encode_bytes by exact H.
  rewrite list_ascii_of_string_of_list_ascii.
  now rewrite map_code_chr.
Qed.

(** ** The PCM16 codec *)

(** The bytes of a non-empty frame decode, as one channel, to a buffer
    with one frame per sample. *)
Lemma decodeAudioData_floatToPcm16 (data : list number) :
  data <> [] ->
  decodeAudioData (floatToPcm16 data) 24000 1
  = Some (mkAudioBuffer 1 (length data) 24000
            [map div32768 (floatToInt16 data)]).
Proof.
  intros Hne. unfold decodeAudioData, floatToPcm16.
  rewrite Int16Array_of_buffer_view by apply floatToInt16_range.
  cbv zeta. rewrite deinterleave_mono, Nat.div_1_r.
  unfold floatToInt16. rewrite !length_map.
  destruct data as [| x data]; [contradiction | reflexivity].
Qed.

Lemma roundtrip_sample (q : Q) :
  within_step q (inject_Z (truncate (q * 32768)) / 32768).
Proof.
  unfold within_step.
  pose proof (truncate_scaled_error q) as He. cbv zeta in He.
  set (t := truncate (q * 32768)) in *.
  apply Qabs_Qle_condition.
  destruct q as [n d].
  unfold Qle, Qminus, Qplus, Qopp, Qdiv, Qmult, Qinv, inject_Z.
  cbn [Qnum Qden] in *.
  rewrite ?Pos2Z.inj_mul.
  split; lia.
Qed.

Lemma truncate_round_toward_zero (q : Q) : truncate q = round_toward_zero q.
Proof.
  unfold truncate, round_toward_zero, Qle_bool, Qceiling, Qfloor.
  destruct q as [n d]. cbn [Qnum Qden Qopp].
  destruct (0 * Z.pos d <=? n * 1) eqn:E.
  - apply Z.leb_le in E. apply Z.quot_div_nonneg; lia.
  - apply Z.leb_gt in E.
    rewrite <- (Z.opp_involutive n) at 1.
    rewrite Z.quot_opp_l by lia. f_equal.
    apply Z.quot_div_nonneg; lia.
Qed.

Lemma wrap_int16_mod (n : Z) :
  wrap_int16 n
  = if 32768 <=? n mod 65536 then n mod 65536 - 65536 else n mod 65536.
Proof.
  unfold wrap_int16. cbv zeta.
  change 65535 with (Z.ones 16). rewrite Z.land_ones by lia.
  change (2 ^ 16) with 65536.
  set (u := n mod 65536).
  assert (0 <= u < 65536) by (subst u; apply Z.mod_pos_bound; lia).
  destruct (Z.testbit u 15) eqn:T, (32768 <=? u) eqn:L; try reflexivity.
  - apply Z.testbit_true in T; [| lia]. apply Z.leb_gt in L.
    change (2 ^ 15) with 32768 in T. Z.div_mod_to_equations. lia.
  - apply Z.leb_le in L.
    assert (Z.testbit u 15 = true); [| congruence].
    apply Z.testbit_true; [lia |]. change (2 ^ 15) with 32768.
    Z.div_mod_to_equations. lia.
Qed.

Lemma ToInt16_pcm16_of_sample (q : Q) :
  ToInt16 (mul32768 (Finite q)) = pcm16_of_sample q.
Proof.
  unfold pcm16_of_sample. rewrite wrap_int16_mod.
  rewrite <- truncate_round_toward_zero. reflexivity.
Qed.

Lemma floatToInt16_finite (samples : list Q) :
  floatToInt16 (map Finite samples) = map pcm16_of_sample samples.
Proof.
  unfold floatToInt16. rewrite map_map.
  apply map_ext. exact ToInt16_pcm16_of_sample.
Qed.

(** C6.  For every (finite) float sample the encoder of [createBlob]
    stores the 16-bit signed integer obtained by multiplying the sample by
    32768 and truncating; nothing is clamped, an out-of-range product wraps
    (its value modulo [2^16] read as a signed 16-bit number), and the bytes
    sent are the little-endian bytes of these integers.  (A sample that is
    not a finite number has no product to truncate; it is stored as 0.) *)
Theorem floatToPcm16_truncates_and_wraps :
  (forall samples : list Q,
     floatToInt16 (map Finite samples) = map pcm16_of_sample samples /\
     Int16Array_of_buffer (floatToPcm16 (map Finite samples))
     = Some (map pcm16_of_sample samples)) /\
  (forall q : Q,
     -32768 <= pcm16_of_sample q < 32768 /\
     (pcm16_of_sample q - truncate (q * 32768)) mod 65536 = 0) /\
  floatToInt16 [Finite 1; Finite (3 # 2); Finite (-3 # 2); Finite 2;
                Finite (-1); Finite (1 # 3); Finite (-1 # 3)]
  = [-32768; -16384; 16384; 0; -32768; 10922; -10922] /\
  floatToInt16 [NaN; PosInf; NegInf] = [0; 0; 0].
Proof.
  split; [| split; [| split]].
  - intros samples. split.
    + apply floatToInt16_finite.
    + unfold floatToPcm16.
      rewrite Int16Array_of_buffer_view by apply floatToInt16_range.
      now rewrite floatToInt16_finite.
  - intros q. rewrite <- ToInt16_pcm16_of_sample.
    split; [apply ToInt16_range |].
    cbn [mul32768 ToInt16].
    destruct (32768 <=? truncate (q * 32768) mod 65536);
      Z.div_mod_to_equations; lia.
  - reflexivity.
  - reflexivity.
Qed.

(** C5.  For every byte sequence [B], [decode (encode B)] is [B]:
    base64 decoding undoes base64 encoding exactly. *)
Theorem base64_roundtrip (B : list Z) :
  Forall is_byte B -> decode (encode B) = Some B.
Proof. exact (decode_encode B). Qed.

Lemma base64_roundtrip_witness :
  Forall is_byte [0; 77; 97; 255; 128] /\
  decode (encode [0; 77; 97; 255; 128]) = Some [0; 77; 97; 255; 128].
Proof.
  assert (H : Forall is_byte [0; 77; 97; 255; 128])
    by (repeat constructor; unfold is_byte; lia).
  split; [exact H | exact (base64_roundtrip _ H)].
Defined.

Lemma roundtrip_samples (samples : list Q) :
  Forall (fun q => (-1 <= q)%Q /\ (q < 1)%Q) samples ->
  exists out : list Q,
    map div32768 (floatToInt16 (map Finite samples)) = map Finite out /\
    Forall2 within_step samples out.
Proof.
  induction 1 as [| q samples [Hlo Hhi] _ (out & E & F)].
  - exists []. split; [reflexivity | constructor].
  - exists ((inject_Z (truncate (q * 32768)) / 32768)%Q :: out). split.
    + cbn [map floatToInt16]. unfold floatToInt16 in E. rewrite E.
      f_equal. unfold div32768. cbn [mul32768].
      rewrite ToInt16_in_range by now apply truncate_scaled_range.
      reflexivity.
    + constructor; [apply roundtrip_sample | exact F].
Qed.

(** C4 (as the code has it).  For every non-empty array of float samples
    in [-1.0, 1.0), decoding the encoded PCM16 bytes back to floats
    ([decodeAudioData] after the sample conversion of [createBlob]) gives
    a one-channel buffer with one frame per sample, and reproduces each
    sample within one quantization step: at every index
    |original - reconstructed| <= 1/32768. *)
Theorem pcm16_roundtrip (samples : list Q) :
  samples <> [] ->
  Forall (fun q => (-1 <= q)%Q /\ (q < 1)%Q) samples ->
  exists out : list Q,
    decodeAudioData (floatToPcm16 (map Finite samples)) 24000 1
    = Some (mkAudioBuffer 1 (length samples) 24000 [map Finite out]) /\
    Forall2 within_step samples out.
Proof.
  intros Hne H. destruct (roundtrip_samples samples H) as (out & E & F).
  exists out. split; [| exact F].
  rewrite decodeAudioData_floatToPcm16, E, length_map; [reflexivity |].
  now destruct samples.
Qed.

Lemma pcm16_roundtrip_witness :
  exists out : list Q,
    decodeAudioData
      (floatToPcm16 (map Finite [-1; 1 # 3; 32767 # 32768]%Q)) 24000 1
    = Some (mkAudioBuffer 1 3 24000 [map Finite out]) /\
    Forall2 within_step [-1; 1 # 3; 32767 # 32768]%Q out.
Proof.
  apply (pcm16_roundtrip [-1; 1 # 3; 32767 # 32768]%Q).
  - discriminate.
  - repeat constructor; unfold Qle, Qlt; simpl; lia.
Defined.

(** The same through the whole pipeline: the blob [createBlob] makes of a
    non-empty array of samples in [-1.0, 1.0), taken as the payload of an
    audio chunk, decodes to a one-channel buffer of as many frames, each
    within one quantization step of its sample. *)
Lemma createBlob_decodeChunk (samples : list Q) :
  samples <> [] ->
  Forall (fun q => (-1 <= q)%Q /\ (q < 1)%Q) samples ->
  exists out : list Q,
    decodeChunk (data (createBlob (map Finite samples)))
    = Some (mkAudioBuffer 1 (length samples) 24000 [map Finite out]) /\
    Forall2 within_step samples out.
Proof.
  intros Hne H. destruct (roundtrip_samples samples H) as (out & E & F).
  exists out. split; [| exact F].
  unfold decodeChunk, createBlob. cbn [data].
  rewrite decode_encode by apply Uint8Array_of_Int16Array_bytes.
  unfold decodeAudioData, floatToPcm16.
  rewrite Int16Array_of_buffer_view by apply floatToInt16_range.
  cbv zeta. rewrite deinterleave_mono, E, Nat.div_1_r.
  unfold floatToInt16. rewrite !length_map.
  destruct samples as [| q samples]; [contradiction |]. reflexivity.
Qed.

(** C4, as the specification states it, fails at full scale: the sample
    [1.0] is in the declared range [-1.0, 1.0] and comes back as [-1.0]. *)
Lemma pcm16_roundtrip_fails_at_one :
  ~ (forall samples : list Q,
       Forall (fun q => (-1 <= q)%Q /\ (q <= 1)%Q) samples ->
       exists (b : AudioBuffer) (out : list Q),
         decodeAudioData (floatToPcm16 (map Finite samples)) 24000 1
         = Some b /\
         channelData b = [map Finite out] /\
         Forall2 within_step samples out).
Proof.
  intros claim.
  destruct (claim [1%Q]) as (b & out & E & C & F).
  - repeat constructor; unfold Qle; simpl; lia.
  - vm_compute in E. injection E as <-. cbn [channelData] in C.
    destruct out as [| r [| ? ?]]; try discriminate.
    injection C as C. subst r.
    inversion_clear F as [| ? ? ? ? Hstep _].
    unfold within_step, Qle in Hstep. vm_compute in Hstep.
    now apply Hstep.
Qed.

(** It fails for the empty array as well: there is nothing to decode,
    and [decodeAudioData] throws, a buffer having at least one frame. *)
Lemma pcm16_roundtrip_fails_when_empty :
  decodeAudioData (floatToPcm16 (map Finite [])) 24000 1 = None.
Proof. reflexivity. Qed.

(** ** Binary64 rounding *)

Lemma pow2_pos (e : Z) : (0 < pow2 e)%Q.
Proof. apply Qpower_0_lt. reflexivity. Qed.

Lemma pow2_plus (a b : Z) : (pow2 (a + b) == pow2 a * pow2 b)%Q.
Proof. apply Qpower_plus. discriminate. Qed.

(** [exponent] does not overshoot. *)
Lemma exponent_le (x : Q) : (0 < x)%Q -> (pow2 (exponent x) <= x)%Q.
Proof.
  intros Hx. unfold exponent. cbv zeta.
  set (a := Z.log2 (Qnum x)). set (b := Z.log2 (Z.pos (Qden x))).
  destruct (Qle_bool (pow2 (a - b)) x) eqn:E; [now apply Qle_bool_iff |].
  clear E.
  assert (Hn : 0 < Qnum x).
  { unfold Qlt in Hx. cbn in Hx. lia. }
  assert (Ha : 2 ^ a <= Qnum x) by (apply Z.log2_spec; exact Hn).
  assert (Hb : Z.pos (Qden x) < 2 ^ (b + 1)).
  { replace (b + 1) with (Z.succ b) by lia. apply Z.log2_spec. lia. }
  assert (Ha0 : 0 <= a) by apply Z.log2_nonneg.
  assert (Hb0 : 0 <= b) by apply Z.log2_nonneg.
  assert (E : (pow2 (a - b - 1)
               == inject_Z (2 ^ a) / inject_Z (2 ^ (b + 1)))%Q).
  { replace (a - b - 1) with (a + - (b + 1)) by lia.
    rewrite pow2_plus. unfold pow2. rewrite Qpower_opp.
    rewrite (Zpower_Qpower 2 a), (Zpower_Qpower 2 (b + 1)) by lia.
    reflexivity. }
  rewrite E. clear E.
  destruct x as [n d]. cbn [Qnum Qden] in *.
  assert (Hp : 0 < 2 ^ (b + 1)) by (apply Z.pow_pos_nonneg; lia).
  assert (Hq : 0 < 2 ^ a) by (apply Z.pow_pos_nonneg; lia).
  destruct (2 ^ (b + 1)) as [| p | p] eqn:Ep; try lia.
  unfold Qle, Qdiv, Qmult, Qinv, inject_Z. cbn [Qnum Qden].
  rewrite Z.mul_1_r, Pos.mul_1_l.
  apply Z.mul_le_mono_nonneg; lia.
Qed.

Lemma roundTiesToEven_error (m : Q) :
  (Qabs (inject_Z (roundTiesToEven m) - m) <= 1 # 2)%Q.
Proof.
  unfold roundTiesToEven. cbv zeta.
  pose proof (Qfloor_le m) as Hlo. pose proof (Qlt_floor m) as Hhi.
  set (f := Qfloor m) in *.
  rewrite inject_Z_plus in Hhi. change (inject_Z 1) with 1%Q in Hhi.
  apply Qabs_Qle_condition.
  destruct (m - inject_Z f ?= 1 # 2)%Q eqn:E.
  - apply Qeq_alt in E.
    destruct (Z.even f); rewrite ?inject_Z_plus;
      change (inject_Z 1) with 1%Q; lra.
  - apply Qlt_alt in E. lra.
  - apply Qgt_alt in E. rewrite inject_Z_plus.
    change (inject_Z 1) with 1%Q. lra.
Qed.

Lemma roundTiesToEven_nonneg (m : Q) : (0 <= m)%Q -> 0 <= roundTiesToEven m.
Proof.
  intros H. unfold roundTiesToEven. cbv zeta.
  assert (Hf : 0 <= Qfloor m).
  { change 0 with (Qfloor 0). now apply Qfloor_resp_le. }
  destruct (_ ?= _)%Q; [destruct (Z.even _) | |]; lia.
Qed.

Lemma nearest_nonneg (x : Q) : (0 <= x)%Q -> (0 <= nearest x)%Q.
Proof.
  intros H. unfold nearest. apply Qmult_le_0_compat.
  - change 0%Q with (inject_Z 0). rewrite <- Zle_Qle.
    apply roundTiesToEven_nonneg. apply Qle_shift_div_l.
    + apply pow2_pos.
    + now rewrite Qmult_0_l.
  - apply Qlt_le_weak, pow2_pos.
Qed.

Lemma binary64_nonneg (x : Q) : (0 <= x)%Q -> (0 <= binary64 x)%Q.
Proof.
  intros H. unfold binary64. destruct (x ?= 0)%Q eqn:E.
  - apply Qle_refl.
  - apply Qlt_alt in E. lra.
  - now apply nearest_nonneg.
Qed.

(** Rounding moves a value by at most half the distance between
    neighbours. *)
Lemma nearest_error (x : Q) :
  (Qabs (nearest x - x) <= quantum x * (1 # 2))%Q.
Proof.
  unfold nearest. pose proof (pow2_pos (Z.max (exponent x) (-1022) - 52)) as Hq.
  fold (quantum x) in Hq. set (q := quantum x) in *.
  pose proof (roundTiesToEven_error (x / q)) as H.
  set (r := inject_Z (roundTiesToEven (x / q))) in *.
  assert (E : (r * q - x == (r - x / q) * q)%Q) by (field; lra).
  rewrite E, Qabs_Qmult, (Qabs_pos q) by lra.
  rewrite (Qmult_comm q). apply Qmult_le_compat_r; [exact H | lra].
Qed.

(** From [2^-1022] up, that is at most [2^-53] of the value. *)
Lemma binary64_error (x : Q) :
  (pow2 (-1022) <= x)%Q ->
  (Qabs (binary64 x - x) <= x * pow2 (-53))%Q.
Proof.
  intros Hx. pose proof (pow2_pos (-1022)) as Hmin.
  assert (Hpos : (0 < x)%Q) by lra.
  unfold binary64. destruct (x ?= 0)%Q eqn:E.
  - apply Qeq_alt in E. lra.
  - apply Qlt_alt in E. lra.
  - clear E. eapply Qle_trans; [apply nearest_error |].
    assert (Hq : (quantum x <= x * pow2 (-52))%Q).
    { unfold quantum.
      replace (Z.max (exponent x) (-1022) - 52)
        with (Z.max (exponent x) (-1022) + -52) by lia.
      rewrite pow2_plus. apply Qmult_le_compat_r;
        [| apply Qlt_le_weak, pow2_pos].
      destruct (Z.max_spec (exponent x) (-1022)) as [[_ ->] | [_ ->]].
      - exact Hx.
      - now apply exponent_le. }
    assert (E : (pow2 (-53) == pow2 (-52) * (1 # 2))%Q) by reflexivity.
    rewrite E, Qmult_assoc.
    apply Qmult_le_compat_r; [exact Hq | discriminate].
Qed.

(** The sum the scheduler computes, of a time and a rounded duration, is
    within [2^-51] of the exact sum, relatively. *)
Lemma binary64_sum_close (w d : Q) :
  (0 <= w)%Q -> (pow2 (-1021) <= d)%Q ->
  (Qabs (binary64 (w + binary64 d) - (w + d)) <= (w + d) * pow2 (-51))%Q.
Proof.
  intros Hw Hd.
  assert (Hmin : (pow2 (-1022) == pow2 (-1021) * (1 # 2))%Q) by reflexivity.
  pose proof (pow2_pos (-1021)) as Hpos.
  assert (Hd' : (pow2 (-1022) <= d)%Q) by lra.
  pose proof (binary64_error d Hd') as E1.
  assert (U : (pow2 (-53) == 1 # 9007199254740992)%Q) by reflexivity.
  assert (V : (pow2 (-51) == 1 # 2251799813685248)%Q) by reflexivity.
  rewrite U in E1. rewrite V.
  apply Qabs_Qle_condition in E1. destruct E1 as [E1 E1'].
  assert (Hs : (pow2 (-1022) <= w + binary64 d)%Q) by lra.
  pose proof (binary64_error _ Hs) as E2. rewrite U in E2.
  apply Qabs_Qle_condition in E2. destruct E2 as [E2 E2'].
  generalize dependent (binary64 (w + binary64 d)). intros r E2 E2'.
  generalize dependent (binary64 d). intros d' E1 E1' Hs E2 E2'.
  generalize dependent (pow2 (-1022)). intros m2 Hmin _ _.
  generalize dependent (pow2 (-1021)). intros m1 Hd Hpos _.
  apply Qabs_Qle_condition. split; lra.
Qed.

(** ** The playback scheduler *)

(** A buffer decoded at 24 kHz lasts at least one frame. *)
Lemma decodeAudioData_duration (data : list Z) (n : nat) (b : AudioBuffer) :
  decodeAudioData data 24000 n = Some b -> (1 # 24000 <= duration b)%Q.
Proof.
  unfold decodeAudioData.
  destruct (Int16Array_of_buffer data) as [dataInt16 |]; [| discriminate].
  cbv zeta. destruct (n =? 0)%nat; [discriminate |]. cbn [orb].
  destruct (length dataInt16 / n =? 0)%nat eqn:E; [discriminate |].
  apply Nat.eqb_neq in E. intros H. injection H as <-.
  unfold duration, Qle, Qdiv, Qmult, Qinv, inject_Z. cbn. lia.
Qed.

Lemma decodeChunk_duration (base64Audio : string) (b : AudioBuffer) :
  decodeChunk base64Audio = Some b -> (1 # 24000 <= duration b)%Q.
Proof.
  unfold decodeChunk. destruct (decode base64Audio); [| discriminate].
  apply decodeAudioData_duration.
Qed.

Lemma advance_nonneg (t : Q) (b : AudioBuffer) :
  (0 <= t)%Q -> (1 # 24000 <= duration b)%Q -> (0 <= advance t b)%Q.
Proof.
  intros Ht Hd. apply binary64_nonneg.
  assert (H : (0 <= binary64 (duration b))%Q) by (apply binary64_nonneg; lra).
  lra.
Qed.

Lemma advance_close (t : Q) (b : AudioBuffer) :
  (0 <= t)%Q -> (1 # 24000 <= duration b)%Q ->
  (Qabs (advance t b - (t + duration b)) <= (t + duration b) * pow2 (-51))%Q.
Proof.
  intros Ht Hd. apply binary64_sum_close; [exact Ht |].
  apply Qle_trans with (1 # 24000)%Q; [| exact Hd].
  unfold pow2. vm_compute. discriminate.
Qed.

(** What [onmessage] does with a chunk whose payload decodes. *)
Lemma onmessage_audio (captured : Turn) (message : LiveServerMessage)
    (now : Q) (s : App) (base64Audio : string) (ctx : nat)
    (audioBuffer : AudioBuffer) :
  inlineData message = Some base64Audio ->
  base64Audio <> ""%string ->
  outputAudioContextRef (refs s) = Some ctx ->
  decodeChunk base64Audio = Some audioBuffer ->
  let startAt := Qmax (nextStartTimeRef (refs s)) now in
  let s' := onmessage captured message now s in
  sources (browser s')
  = sources (browser s) ++ [mkBufferSource audioBuffer startAt ctx] /\
  nextStartTimeRef (refs s') = advance startAt audioBuffer /\
  audioSourcesRef (refs s')
  = audioSourcesRef (refs s) ∪ {[length (sources (browser s))]} /\
  outputAudioContextRef (refs s') = Some ctx.
Proof.
  intros Hdata Hne Hctx Hdec. cbv zeta.
  unfold decodeChunk in Hdec.
  destruct (decode base64Audio) as [bytes |] eqn:Ebytes; [| discriminate].
  destruct base64Audio as [| ch rest]; [congruence |].
  destruct s as [u r b]. cbn [refs] in Hctx.
  unfold onmessage, advance. rewrite Hdata.
  destruct (outputTranscription message), (inputTranscription message),
    (turnComplete message);
    cbn [refs browser ui with_ui with_refs with_browser
         setCurrentLiveTranscription setLiveTranscript]; rewrite Hctx;
    cbn [refs browser ui with_ui with_refs with_browser set_nextStartTimeRef
         nextStartTimeRef];
    rewrite Ebytes, Hdec;
    cbn; auto.
Qed.

(** [Math.max] returns its first argument unless the second is larger. *)
Lemma Qmax_first (x y : Q) : (y <= x)%Q -> Qmax x y = x.
Proof.
  intros H. unfold Qmax, GenericMinMax.gmax.
  destruct (x ?= y)%Q eqn:E; try reflexivity.
  apply Qlt_alt in E. now apply Qle_not_lt in H.
Qed.

Lemma Qmax_second (x y : Q) : (x < y)%Q -> Qmax x y = y.
Proof.
  intros H. unfold Qmax, GenericMinMax.gmax.
  destruct (x ?= y)%Q eqn:E; [| reflexivity |]; exfalso.
  - apply Qeq_alt in E. rewrite E in H. exact (Qlt_irrefl _ H).
  - apply Qgt_alt in E. exact (Qlt_irrefl _ (Qlt_trans _ _ _ H E)).
Qed.

Lemma deliver_in_time (captured : Turn) (ctx : nat)
    (arrivals : list Arrival) :
  forall s : App,
    outputAudioContextRef (refs s) = Some ctx ->
    Forall carries_audio arrivals ->
    (0 <= nextStartTimeRef (refs s))%Q ->
    in_time (nextStartTimeRef (refs s)) arrivals ->
    exists new : list BufferSource,
      sources (browser (fold_left (deliver captured) arrivals s))
      = sources (browser s) ++ new /\
      map buffer new = map arrivalBuffer arrivals /\
      map when new
      = scheduled (nextStartTimeRef (refs s)) (map arrivalBuffer arrivals) /\
      consecutive new /\
      Forall ends_within_rounding new.
Proof.
  induction arrivals as [| a rest IH]; intros s Hctx Hall Hpos Hgap.
  - exists []. cbn. rewrite app_nil_r. repeat split. constructor.
  - inversion_clear Hall as [| ? ? (base64Audio & Hdata & Hne & Hdec) Hrest].
    destruct Hgap as [Hnow Hgap].
    pose proof (decodeChunk_duration _ _ Hdec) as Hlast.
    destruct (onmessage_audio captured _ (arrivalTime a) s _ ctx _
                Hdata Hne Hctx Hdec) as (Hsrc & Hnext & _ & Hctx').
    fold (deliver captured s a) in Hsrc, Hnext, Hctx'.
    rewrite (Qmax_first _ _ Hnow) in Hsrc, Hnext.
    destruct (IH (deliver captured s a) Hctx' Hrest)
      as (new & Hnew & Hbuf & Hwhen & Hcons & Hclose).
    { rewrite Hnext. now apply advance_nonneg. }
    { now rewrite Hnext. }
    rewrite Hnext in Hwhen.
    exists (mkBufferSource (arrivalBuffer a) (nextStartTimeRef (refs s)) ctx
              :: new).
    cbn [fold_left map scheduled]. repeat split.
    + rewrite Hnew, Hsrc, <- app_assoc. reflexivity.
    + cbn [buffer]. now rewrite Hbuf.
    + cbn [when]. now rewrite Hwhen.
    + destruct new as [| y new']; [exact I |].
      split; [| exact Hcons].
      destruct rest as [| b rest']; [discriminate |].
      cbn [map scheduled] in Hwhen. now injection Hwhen.
    + constructor; [| exact Hclose].
      unfold ends_within_rounding. cbn [when buffer].
      now apply advance_close.
Qed.

(** C1 (as the code has it).  For a received audio chunk whose payload
    decodes to a buffer, [onmessage] computes
    [startAt = max(nextStartTime, currentTime)], starts the buffer at
    [startAt] and advances [nextStartTime] to the binary64 sum of
    [startAt] and [buffer.duration].  Consequently buffers that arrive
    with no idle gap start at [t], [t (+) d1], [(t (+) d1) (+) d2], ...,
    with [(+)] that sum: each starts exactly at the next start time
    computed after the one before it, which is the exact end of that one
    up to the rounding of the sum, at most [2^-51] of it. *)
Theorem playback_back_to_back (captured : Turn) (s : App) (ctx : nat)
    (first : Arrival) (rest : list Arrival) :
  outputAudioContextRef (refs s) = Some ctx ->
  carries_audio first ->
  Forall carries_audio rest ->
  (0 <= arrivalTime first)%Q ->
  let t := Qmax (nextStartTimeRef (refs s)) (arrivalTime first) in
  in_time (advance t (arrivalBuffer first)) rest ->
  let s1 := deliver captured s first in
  let s' := fold_left (deliver captured) (first :: rest) s in
  (sources (browser s1)
   = sources (browser s) ++ [mkBufferSource (arrivalBuffer first) t ctx] /\
   nextStartTimeRef (refs s1) = advance t (arrivalBuffer first)) /\
  exists new : list BufferSource,
    sources (browser s') = sources (browser s) ++ new /\
    map buffer new = map arrivalBuffer (first :: rest) /\
    map when new = scheduled t (map arrivalBuffer (first :: rest)) /\
    consecutive new /\
    Forall ends_within_rounding new.
Proof.
  intros Hctx (base64Audio & Hdata & Hne & Hdec) Hrest Hclock t Hgap s1 s'.
  pose proof (decodeChunk_duration _ _ Hdec) as Hlast.
  assert (Ht : (0 <= t)%Q).
  { apply Qle_trans with (arrivalTime first); [exact Hclock |].
    apply Q.le_max_r. }
  destruct (onmessage_audio captured _ (arrivalTime first) s _ ctx _
              Hdata Hne Hctx Hdec) as (Hsrc & Hnext & _ & Hctx').
  fold (deliver captured s first) in Hsrc, Hnext, Hctx'. fold s1 in Hsrc,
    Hnext, Hctx'. fold t in Hsrc, Hnext.
  split; [split; assumption |].
  destruct (deliver_in_time captured ctx rest s1 Hctx' Hrest)
    as (new & Hnew & Hbuf & Hwhen & Hcons & Hclose).
  { rewrite Hnext. now apply advance_nonneg. }
  { now rewrite Hnext. }
  rewrite Hnext in Hwhen.
  exists (mkBufferSource (arrivalBuffer first) t ctx :: new).
  subst s'. cbn [fold_left map scheduled]. fold s1. repeat split.
  - rewrite Hnew, Hsrc, <- app_assoc. reflexivity.
  - cbn [buffer]. now rewrite Hbuf.
  - cbn [when]. now rewrite Hwhen.
  - destruct new as [| y new']; [exact I |].
    split; [| exact Hcons].
    destruct rest as [| b rest']; [discriminate |].
    cbn [map scheduled] in Hwhen. now injection Hwhen.
  - constructor; [| exact Hclose].
    unfold ends_within_rounding. cbn [when buffer].
    now apply advance_close.
Qed.

(** After an idle gap the next buffer starts at the current time, and in
    every case a buffer starts no earlier than the next start time held
    when it arrives. *)
Lemma onmessage_after_idle_gap (captured : Turn) (s : App) (ctx : nat)
    (a : Arrival) :
  outputAudioContextRef (refs s) = Some ctx ->
  carries_audio a ->
  exists startAt : Q,
    sources (browser (deliver captured s a))
    = sources (browser s) ++ [mkBufferSource (arrivalBuffer a) startAt ctx] /\
    (nextStartTimeRef (refs s) <= startAt)%Q /\
    (arrivalTime a <= startAt)%Q /\
    ((nextStartTimeRef (refs s) < arrivalTime a)%Q ->
     startAt = arrivalTime a).
Proof.
  intros Hctx (base64Audio & Hdata & Hne & Hdec).
  destruct (onmessage_audio captured _ (arrivalTime a) s _ ctx _
              Hdata Hne Hctx Hdec) as (Hsrc & _).
  eexists. split; [exact Hsrc |]. split; [| split].
  - apply Q.le_max_l.
  - apply Q.le_max_r.
  - apply Qmax_second.
Qed.

Lemma silentChunk_carries (now : Q) : carries_audio (silentChunk now).
Proof.
  exists "AAAAAA=="%string. repeat split. discriminate.
Qed.

Lemma playback_back_to_back_witness :
  exists new : list BufferSource,
    sources (browser (fold_left (deliver (mkTurn "" ""))
                        [silentChunk (1 # 2); silentChunk (1 # 2);
                         silentChunk (1 # 2)] started))
    = sources (browser started) ++ new /\
    map buffer new = [silence; silence; silence] /\
    map when new = scheduled (Qmax 0 (1 # 2)) [silence; silence; silence] /\
    consecutive new /\
    Forall ends_within_rounding new.
Proof.
  apply (playback_back_to_back (mkTurn "" "") started 0%nat
           (silentChunk (1 # 2)) [silentChunk (1 # 2); silentChunk (1 # 2)]).
  - reflexivity.
  - apply silentChunk_carries.
  - repeat constructor; apply silentChunk_carries.
  - discriminate.
  - cbn [in_time]. repeat split; vm_compute; discriminate.
Defined.

(** The start times of three chunks of two frames of silence that arrive
    together half a second into the session: 0.5, 0.5000833333333333 and
    0.5001666666666666, as binary64 numbers. *)
Lemma three_chunks_scheduled :
  map (fun x => Qred (when x))
      (sources (browser (fold_left (deliver (mkTurn "" ""))
                           [silentChunk (1 # 2); silentChunk (1 # 2);
                            silentChunk (1 # 2)] started)))
  = [(1 # 2)%Q; (4504350227308391 # 9007199254740992)%Q;
     (2252550413623143 # 4503599627370496)%Q].
Proof. vm_compute. reflexivity. Qed.

(** Whether the duration is taken as the exact length over the rate or as
    the binary64 number the code reads, the second chunk starts before
    the end of the first. *)
Lemma second_chunk_starts_early :
  (advance (1 # 2) silence < (1 # 2) + duration silence)%Q /\
  (advance (1 # 2) silence < (1 # 2) + binary64 (duration silence))%Q.
Proof. split; vm_compute; reflexivity. Qed.

(** C1, as the specification states it, fails: in exact arithmetic the
    second of these chunks would start at [0.5 + 2/24000], and the
    scheduler starts it at the binary64 number just below. *)
Lemma playback_not_exactly_back_to_back :
  ~ (forall (captured : Turn) (s : App) (ctx : nat) (first : Arrival)
            (rest : list Arrival),
       outputAudioContextRef (refs s) = Some ctx ->
       carries_audio first ->
       Forall carries_audio rest ->
       let t := Qmax (nextStartTimeRef (refs s)) (arrivalTime first) in
       no_idle_gap (t + duration (arrivalBuffer first)) rest ->
       exists new : list BufferSource,
         sources (browser (fold_left (deliver captured) (first :: rest) s))
         = sources (browser s) ++ new /\
         map when new
         = back_to_back t
             (map (fun a => duration (arrivalBuffer a)) (first :: rest)) /\
         abutting new).
Proof.
  intros claim.
  destruct (claim (mkTurn "" "") started 0%nat (silentChunk (1 # 2))
              [silentChunk (1 # 2); silentChunk (1 # 2)])
    as (new & Hsrc & Hwhen & _).
  - reflexivity.
  - apply silentChunk_carries.
  - repeat constructor; apply silentChunk_carries.
  - cbn [no_idle_gap]. repeat split; vm_compute; discriminate.
  - pose proof three_chunks_scheduled as H. rewrite Hsrc in H.
    change (sources (browser started)) with (@nil BufferSource) in H.
    cbn [app] in H. rewrite <- (map_map when Qred), Hwhen in H.
    vm_compute in H. discriminate.
Qed.

(** ** The transcript *)

(** What [onmessage] does to the transcript state: the finalized sequence
    grows by the captured turn on [turnComplete]; the partial turn is
    reset on [turnComplete] and otherwise extended by the output delta if
    there is one, else by the input delta if there is one. *)
Lemma onmessage_transcript (captured : Turn) (message : LiveServerMessage)
    (now : Q) (s : App) :
  let prev := currentLiveTranscription (ui s) in
  let s' := onmessage captured message now s in
  liveTranscript (ui s')
  = (if turnComplete message then liveTranscript (ui s) ++ [captured]
     else liveTranscript (ui s)) /\
  currentLiveTranscription (ui s')
  = (if turnComplete message then mkTurn "" ""
     else
       match outputTranscription message with
       | Some t =>
           mkTurn (userInput prev) (string_add (agentResponse prev) (text t))
       | None =>
           match inputTranscription message with
           | Some t =>
               mkTurn (string_add (userInput prev) (text t))
                      (agentResponse prev)
           | None => prev
           end
       end).
Proof.
  destruct s as [u r b]. destruct message as [out inp tc audio].
  unfold onmessage.
  cbn [outputTranscription inputTranscription turnComplete inlineData].
  destruct out, inp, tc; cbn [ui refs]; case_matches; split; reflexivity.
Qed.

(** C2, on the code.  In a fresh session the events
    [InputTranscriptionDelta("hel")], [InputTranscriptionDelta("lo")],
    [OutputTranscriptionDelta("hi")] accumulate the partial turn
    [{"hello", "hi"}], and [TurnComplete] resets it to [{"", ""}]; but the
    turn appended to the transcript is the [currentLiveTranscription] that
    [onmessage] closed over when the session was started, here
    [{"", ""}], not the accumulated turn [{"hello", "hi"}] the
    specification requires. *)
Theorem turn_complete_pushes_captured_turn :
  let before :=
    run fresh
      [StartLiveSession "a1";
       TransportMessage 0 (inputDelta "hel") 0;
       TransportMessage 0 (inputDelta "lo") 0;
       TransportMessage 0 (outputDelta "hi") 0] in
  let after := step before (TransportMessage 0 turnCompleted 0) in
  currentLiveTranscription (ui before) = mkTurn "hello" "hi" /\
  liveTranscript (ui before) = [] /\
  liveTranscript (ui after) = [mkTurn "" ""] /\
  currentLiveTranscription (ui after) = mkTurn "" "" /\
  (forall (captured : Turn) (message : LiveServerMessage) (now : Q) (s : App),
     turnComplete message = true ->
     liveTranscript (ui (onmessage captured message now s))
     = liveTranscript (ui s) ++ [captured]).
Proof.
  repeat split; try reflexivity.
  intros captured message now s Htc.
  destruct (onmessage_transcript captured message now s) as [H _].
  now rewrite Htc in H.
Qed.

(** C10.  When one server message carries both an output transcription
    delta and an input transcription delta, [onmessage] treats it exactly
    as the message without the input delta: only the output delta is
    appended to the partial turn's [agentResponse], and [userInput] is
    left as it was. *)
Theorem input_delta_dropped_when_output_present (captured : Turn)
    (message : LiveServerMessage) (now : Q) (s : App)
    (out inp : Transcription) :
  outputTranscription message = Some out ->
  inputTranscription message = Some inp ->
  onmessage captured message now s
  = onmessage captured
      (mkMessage (Some out) None (turnComplete message) (inlineData message))
      now s /\
  (turnComplete message = false ->
   currentLiveTranscription (ui (onmessage captured message now s))
   = mkTurn (userInput (currentLiveTranscription (ui s)))
            (string_add (agentResponse (currentLiveTranscription (ui s)))
                        (text out))).
Proof.
  intros Hout Hinp. split.
  - unfold onmessage.
    cbn [outputTranscription inputTranscription turnComplete inlineData].
    now rewrite Hout.
  - intros Htc.
    destruct (onmessage_transcript captured message now s) as [_ H].
    now rewrite Htc, Hout in H.
Qed.

Lemma input_delta_dropped_when_output_present_witness :
  onmessage (mkTurn "" "") (bothDeltas "hi" "hello") 0 started
  = onmessage (mkTurn "" "") (outputDelta "hi") 0 started /\
  currentLiveTranscription
    (ui (onmessage (mkTurn "" "") (bothDeltas "hi" "hello") 0 started))
  = mkTurn "" "hi".
Proof.
  destruct (input_delta_dropped_when_output_present
              (mkTurn "" "") (bothDeltas "hi" "hello") 0 started
              (mkTranscription (Some "hi"%string))
              (mkTranscription (Some "hello"%string))
              eq_refl eq_refl) as [Hsame Hturn].
  split; [exact Hsame | exact (Hturn eq_refl)].
Defined.

(** ** Teardown *)

(** [handleStopLiveSession], field by field. *)
Lemma handleStopLiveSession_fields (s : App) :
  handleStopLiveSession s
  = {| ui :=
         mkReactState (agents (ui s)) false "Disconnected"
           (liveTranscript (ui s)) (currentLiveTranscription (ui s));
       refs :=
         mkRefs None None (inputAudioContextRef (refs s))
           (outputAudioContextRef (refs s)) None
           (nextStartTimeRef (refs s)) (audioSourcesRef (refs s));
       browser :=
         mkBrowser (API_KEY (browser s)) (alerts (browser s))
           (match sessionPromiseRef (refs s) with
            | Some c =>
                alter (promise_then CloseSession) c (connections (browser s))
            | None => connections (browser s)
            end)
           (match microphoneStreamRef (refs s) with
            | Some stream => <[stream := false]> (streams (browser s))
            | None => streams (browser s)
            end)
           (close_ref (outputAudioContextRef (refs s))
              (close_ref (inputAudioContextRef (refs s))
                 (contexts (browser s))))
           (match scriptProcessorRef (refs s) with
            | Some p => <[p := false]> (processors (browser s))
            | None => processors (browser s)
            end)
           (sources (browser s)) |}.
Proof.
  destruct s as [u [session mic inp out proc next active]
                   [key al conns strs ctxs procs srcs]].
  unfold handleStopLiveSession.
  destruct session, mic, inp, out, proc; reflexivity.
Qed.

Lemma lookup_close_ref (ref : option nat) (l : list AudioContext) (j : nat) :
  close_ref ref l !! j
  = (if decide (ref = Some j) then close_context <$> l !! j else l !! j).
Proof.
  destruct ref as [i |]; cbn [close_ref].
  - destruct (decide (Some i = Some j)) as [E | N].
    + injection E as ->. apply list_lookup_alter_eq.
    + apply list_lookup_alter_ne. congruence.
  - now destruct (decide (None = Some j)).
Qed.

Lemma close_ref_twice (a b : option nat) (l : list AudioContext) :
  close_ref b (close_ref a (close_ref b (close_ref a l)))
  = close_ref b (close_ref a l).
Proof.
  apply list_eq. intros j. rewrite !lookup_close_ref.
  destruct (decide (b = Some j)), (decide (a = Some j)),
    (l !! j) as [[rate cl] |]; reflexivity.
Qed.

Lemma handleStopLiveSession_idempotent (s : App) :
  handleStopLiveSession (handleStopLiveSession s) = handleStopLiveSession s.
Proof.
  rewrite (handleStopLiveSession_fields (handleStopLiveSession s)).
  rewrite (handleStopLiveSession_fields s).
  cbn [ui refs browser agents liveTranscript currentLiveTranscription
       inputAudioContextRef outputAudioContextRef nextStartTimeRef
       audioSourcesRef sessionPromiseRef microphoneStreamRef
       scriptProcessorRef API_KEY alerts connections streams contexts
       processors sources].
  now rewrite close_ref_twice.
Qed.

Lemma onerror_fields (message : string) (s : App) :
  onerror message s = handleStopLiveSession s.
Proof.
  unfold onerror. rewrite !handleStopLiveSession_fields. reflexivity.
Qed.

(** C8, on the code.  When the transport reports an error, [onerror]
    tears the session down and starts no new connection, but the status it
    leaves is ["Disconnected"]: the error message it sets first is
    overwritten by [handleStopLiveSession] before it can be shown, where
    the specification requires the status to be the error message. *)
Theorem onerror_status_is_Disconnected (message : string) (s : App) :
  onerror message s = handleStopLiveSession s /\
  liveStatus (ui (onerror message s)) = "Disconnected"%string /\
  liveStatus (ui (onerror message s)) <> ("Error: " +:+ message)%string /\
  sessionPromiseRef (refs (onerror message s)) = None /\
  length (connections (browser (onerror message s)))
  = length (connections (browser s)) /\
  liveStatus
    (ui (run fresh
           [StartLiveSession "a1"; TransportOpen 0; MicrophoneGranted 0;
            ConnectFulfilled 0; TransportError 0 "boom"]))
  = "Disconnected"%string.
Proof.
  rewrite onerror_fields, handleStopLiveSession_fields.
  cbn [ui refs browser liveStatus sessionPromiseRef connections].
  repeat split; try reflexivity.
  - discriminate.
  - destruct (sessionPromiseRef (refs s)); [apply length_alter | reflexivity].
Qed.

Lemma run_reaction_closed (c : Connection) (r : Reaction) :
  status c = Closed -> status (run_reaction c r) = Closed.
Proof.
  intros H. destruct r; cbn [run_reaction]; [| reflexivity].
  now rewrite H.
Qed.

Lemma run_reactions_closed (rs : list Reaction) (c : Connection) :
  status c = Closed -> status (fold_left run_reaction rs c) = Closed.
Proof.
  revert c. induction rs as [| r rs IH]; intros c H; [exact H |].
  cbn [fold_left]. apply IH. now apply run_reaction_closed.
Qed.

Lemma run_reactions_close (rs : list Reaction) (c : Connection) :
  In CloseSession rs -> status (fold_left run_reaction rs c) = Closed.
Proof.
  revert c. induction rs as [| r rs IH]; intros c H; [contradiction |].
  cbn [fold_left]. destruct H as [-> | H].
  - now apply run_reactions_closed.
  - now apply IH.
Qed.

(** A connection that is closing is closed once [connect] resolves. *)
Lemma fulfil_closing (c : Connection) :
  closing c -> status (fulfil c) = Closed.
Proof.
  intros [H | [H Hin]]; unfold fulfil; rewrite H; [exact H |].
  now apply run_reactions_close.
Qed.

Lemma promise_then_close_closing (c : Connection) :
  closing (promise_then CloseSession c).
Proof.
  unfold promise_then, closing.
  destruct (status c) eqn:E; cbn [status reactions run_reaction]; auto.
  right. split; [reflexivity |]. apply in_or_app. right. now left.
Qed.

(** A start that opens a session empties the set of active sources. *)
Lemma handleStartLiveSession_clears (agentId : string) (s : App) :
  connections (browser (handleStartLiveSession agentId s))
  <> connections (browser s) ->
  audioSourcesRef (refs (handleStartLiveSession agentId s)) = ∅.
Proof.
  open_app s. unfold handleStartLiveSession.
  cbn [ui browser agents API_KEY].
  destruct (List.find _ stored) as [agent |]; [| intros H; now elim H].
  destruct key as [[| ch k] |]; try (intros H; now elim H).
  intros _. reflexivity.
Qed.

(** C9 (as the code has it).  [handleStopLiveSession] is idempotent: a
    second call changes nothing after the first, and a call when no
    session was ever started changes nothing at all.  It leaves the status
    ["Disconnected"] and the session inactive; the transport it held is
    closed, or closes as soon as [connect] resolves; the tracks of the
    microphone stream it held are stopped and the processor it held is
    disconnected; the audio contexts the refs hold are closed.  The set
    of active playback sources and the scheduled sources are left as they
    were; a next start that opens a session empties the set. *)
Theorem handleStopLiveSession_teardown (s : App) :
  let s' := handleStopLiveSession s in
  handleStopLiveSession s' = s' /\
  (forall stored key,
     handleStopLiveSession (initialApp stored key) = initialApp stored key) /\
  liveStatus (ui s') = "Disconnected"%string /\
  isLiveSessionActive (ui s') = false /\
  sessionPromiseRef (refs s') = None /\
  microphoneStreamRef (refs s') = None /\
  scriptProcessorRef (refs s') = None /\
  (forall c conn,
     sessionPromiseRef (refs s) = Some c ->
     connections (browser s) !! c = Some conn ->
     exists conn',
       connections (browser s') !! c = Some conn' /\ closing conn') /\
  (forall stream tracks,
     microphoneStreamRef (refs s) = Some stream ->
     streams (browser s) !! stream = Some tracks ->
     streams (browser s') !! stream = Some false) /\
  (forall p connected,
     scriptProcessorRef (refs s) = Some p ->
     processors (browser s) !! p = Some connected ->
     processors (browser s') !! p = Some false) /\
  (forall i ctx,
     inputAudioContextRef (refs s) = Some i \/
     outputAudioContextRef (refs s) = Some i ->
     contexts (browser s) !! i = Some ctx ->
     exists ctx',
       contexts (browser s') !! i = Some ctx' /\ closed ctx' = true) /\
  audioSourcesRef (refs s') = audioSourcesRef (refs s) /\
  sources (browser s') = sources (browser s) /\
  (forall agentId,
     connections (browser (handleStartLiveSession agentId s'))
     <> connections (browser s') ->
     audioSourcesRef (refs (handleStartLiveSession agentId s')) = ∅).
Proof.
  cbv zeta. split; [apply handleStopLiveSession_idempotent |].
  rewrite handleStopLiveSession_fields.
  cbn [ui refs browser liveStatus isLiveSessionActive sessionPromiseRef
       microphoneStreamRef scriptProcessorRef audioSourcesRef connections
       streams processors contexts sources].
  repeat split.
  - intros c conn Href Hconn. rewrite Href.
    exists (promise_then CloseSession conn). split.
    + now rewrite list_lookup_alter_eq, Hconn.
    + apply promise_then_close_closing.
  - intros stream tracks Href Hstream. rewrite Href.
    apply list_lookup_insert_eq. now apply lookup_lt_Some in Hstream.
  - intros p connected Href Hp. rewrite Href.
    apply list_lookup_insert_eq. now apply lookup_lt_Some in Hp.
  - intros i [rate cl] Href Hctx. rewrite !lookup_close_ref, Hctx.
    destruct Href as [Href | Href]; rewrite Href.
    + destruct (decide (Some i = Some i)); [| congruence].
      destruct (decide (outputAudioContextRef (refs s) = Some i));
        eexists; split; reflexivity.
    + destruct (decide (Some i = Some i)); [| congruence].
      destruct (decide (inputAudioContextRef (refs s) = Some i));
        eexists; split; reflexivity.
  - intros agentId. apply handleStartLiveSession_clears.
Qed.

Lemma handleStopLiveSession_teardown_witness :
  (exists conn',
     connections (browser (handleStopLiveSession live)) !! 0%nat = Some conn'
     /\ closing conn') /\
  streams (browser (handleStopLiveSession live)) !! 0%nat = Some false /\
  processors (browser (handleStopLiveSession live)) !! 0%nat = Some false /\
  (exists ctx',
     contexts (browser (handleStopLiveSession live)) !! 0%nat = Some ctx'
     /\ closed ctx' = true) /\
  (exists ctx',
     contexts (browser (handleStopLiveSession live)) !! 1%nat = Some ctx'
     /\ closed ctx' = true) /\
  audioSourcesRef
    (refs (handleStartLiveSession "a1" (handleStopLiveSession live))) = ∅.
Proof.
  destruct (handleStopLiveSession_teardown live)
    as (_ & _ & _ & _ & _ & _ & _ & Hconn & Hmic & Hproc & Hctx & _ & _
        & Hstart).
  split; [| split; [| split; [| split; [| split]]]].
  - apply (Hconn 0%nat
             (mkConnection Open [] [] (systemInstruction_of ann)
                           (mkTurn "" "")));
      vm_compute; reflexivity.
  - apply (Hmic 0%nat true); vm_compute; reflexivity.
  - apply (Hproc 0%nat true); vm_compute; reflexivity.
  - apply (Hctx 0%nat (mkAudioContext 24000 false)); [right |];
      vm_compute; reflexivity.
  - apply (Hctx 1%nat (mkAudioContext 16000 false)); [left |];
      vm_compute; reflexivity.
  - apply (Hstart "a1"%string). intros H.
    apply (f_equal (@length Connection)) in H. vm_compute in H.
    discriminate.
Defined.

Lemma live_active_sources :
  elements (audioSourcesRef (refs (handleStopLiveSession live))) = [0%nat].
Proof. vm_compute. reflexivity. Qed.

(** C9, as the specification states it, fails on "playback cleared":
    after [handleStopLiveSession] the source scheduled during the session
    is still in the set of active sources. *)
Lemma handleStopLiveSession_keeps_active_sources :
  ~ (forall s : App,
       let s' := handleStopLiveSession s in
       handleStopLiveSession s' = s' /\
       liveStatus (ui s') = "Disconnected"%string /\
       audioSourcesRef (refs s') = ∅).
Proof.
  intros claim. destruct (claim live) as (_ & _ & Hempty).
  pose proof live_active_sources as H.
  rewrite Hempty, elements_empty in H. discriminate.
Qed.

(** ** Starting *)

(** What each handler leaves alone. *)
Lemma onmessage_frame (captured : Turn) (message : LiveServerMessage)
    (now : Q) (s : App) :
  let s' := onmessage captured message now s in
  sessionPromiseRef (refs s') = sessionPromiseRef (refs s) /\
  isLiveSessionActive (ui s') = isLiveSessionActive (ui s) /\
  connections (browser s') = connections (browser s).
Proof.
  open_app s. destruct message as [o i tc audio]. unfold onmessage.
  cbn [outputTranscription inputTranscription turnComplete inlineData].
  destruct o, i, tc; cbn [ui refs]; case_matches; repeat split; reflexivity.
Qed.

Lemma handleStartLiveSession_cases (agentId : string) (s : App) :
  let s' := handleStartLiveSession agentId s in
  (sessionPromiseRef (refs s') = sessionPromiseRef (refs s) /\
   isLiveSessionActive (ui s') = isLiveSessionActive (ui s) /\
   connections (browser s') = connections (browser s)) \/
  (isLiveSessionActive (ui s') = true /\
   exists conn,
     connections (browser s') = connections (browser s) ++ [conn] /\
     status conn = Connecting).
Proof.
  open_app s. unfold handleStartLiveSession. cbn [ui browser agents API_KEY].
  destruct (List.find _ stored) as [agent |]; [| left; repeat split].
  destruct key as [[| ch k] |]; try (left; repeat split; reflexivity).
  right. split; [reflexivity |]. eexists. split; reflexivity.
Qed.

Lemma step_held_is_active (s : App) (e : Event) :
  held_is_active s -> held_is_active (step s e).
Proof.
  unfold held_is_active. intros H.
  destruct e as [agentId | | c | c | c | c message now | c message | c
                 | p inputData | source]; cbn [step].
  - unfold LiveConversation_start.
    destruct (isLiveSessionActive (ui s)) eqn:E; [now rewrite E |].
    destruct agentId as [| ch rest]; [now rewrite E |].
    destruct (handleStartLiveSession_cases (String ch rest) s)
      as [(Href & Hact & _) | (Hact & _)]; cbv zeta in *.
    + rewrite Href, Hact, E. exact H.
    + intros _. exact Hact.
  - unfold LiveConversation_stop.
    destruct (isLiveSessionActive (ui s)) eqn:E; [| now rewrite E].
    rewrite handleStopLiveSession_fields. cbn. congruence.
  - destruct (connections (browser s) !! c); [| exact H].
    open_app s. exact H.
  - destruct (connections (browser s) !! c); [| exact H].
    open_app s. unfold onopen_resume. cbn in *.
    destruct inp; exact H.
  - open_app s. exact H.
  - destruct (connections (browser s) !! c) as [conn |]; [| exact H].
    destruct (onmessage_frame (closure conn) message now s)
      as (Href & Hact & _). cbv zeta in *. now rewrite Href, Hact.
  - destruct (connections (browser s) !! c); [| exact H].
    rewrite onerror_fields, handleStopLiveSession_fields. cbn. congruence.
  - destruct (connections (browser s) !! c); [| exact H].
    unfold onclose. rewrite handleStopLiveSession_fields. cbn. congruence.
  - destruct (processors (browser s) !! p) as [[|] |]; try exact H.
    open_app s. unfold onaudioprocess. cbn in *.
    destruct session; exact H.
  - open_app s. exact H.
Qed.

Lemma run_held_is_active (events : list Event) (s : App) :
  held_is_active s -> held_is_active (run s events).
Proof.
  revert s. induction events as [| e events IH]; intros s H; [exact H |].
  apply IH. now apply step_held_is_active.
Qed.

(** The guard against a second session is the [LiveConversation]
    component, which offers the start control only while no session is
    shown as active: in every state the application reaches, while a
    session promise is held a start request changes nothing. *)
Lemma start_ignored_while_session_held (stored : list Agent)
    (key : option string) (events : list Event) (agentId : string) :
  let s := run (initialApp stored key) events in
  sessionPromiseRef (refs s) <> None ->
  step s (StartLiveSession agentId) = s.
Proof.
  intros s Hheld.
  assert (Hinv : held_is_active s).
  { apply run_held_is_active. intros Hne. now contradiction Hne. }
  cbn [step]. unfold LiveConversation_start. now rewrite (Hinv Hheld).
Qed.

(** C7, on the code.  The user starts a session, stops it before
    [connect] resolves, and starts again.  The stop only registers a
    [close] on the pending promise and forgets it, so at the second start
    the first session is still Connecting; nothing refuses the start, no
    alert is raised, and a second session begins: two sessions are
    Connecting at once.  Both sockets then open and each [onopen] obtains
    a microphone stream: two streams are live, of which only the second
    is held.  When [connect] resolves for the first session it is closed,
    and its close event runs the teardown on the second session, which
    is no longer held and closes when its own [connect] resolves, while
    the first stream stays live. *)
Theorem second_session_begun_while_first_connecting :
  let restarted :=
    run fresh
      [StartLiveSession "a1"; StopLiveSession; StartLiveSession "a1"] in
  let opened :=
    run restarted
      [TransportOpen 0; TransportOpen 1; MicrophoneGranted 0;
       MicrophoneGranted 1] in
  let closed_first := run opened [ConnectFulfilled 0; TransportClose 0] in
  let resolved := run closed_first [ConnectFulfilled 1] in
  map status (connections (browser (run fresh [StartLiveSession "a1"])))
  = [Connecting] /\
  map status
    (connections
       (browser (run fresh [StartLiveSession "a1"; StopLiveSession])))
  = [Connecting] /\
  map status (connections (browser restarted)) = [Connecting; Connecting] /\
  alerts (browser restarted) = [] /\
  sessionPromiseRef (refs restarted) = Some 1%nat /\
  streams (browser opened) = [true; true] /\
  microphoneStreamRef (refs opened) = Some 1%nat /\
  map status (connections (browser closed_first)) = [Closed; Connecting] /\
  sessionPromiseRef (refs closed_first) = None /\
  isLiveSessionActive (ui closed_first) = false /\
  streams (browser closed_first) = [true; false] /\
  map status (connections (browser resolved)) = [Closed; Closed].
Proof. vm_compute. repeat split; reflexivity. Qed.

(** ** Stopping before the connection is up *)

Lemma promise_then_closing (r : Reaction) (c : Connection) :
  closing c -> closing (promise_then r c).
Proof.
  intros [H | [H Hin]]; unfold promise_then, closing; rewrite H.
  - left. now apply run_reaction_closed.
  - right. cbn [status reactions]. split; [reflexivity |].
    apply in_or_app. now left.
Qed.

Lemma fulfil_closing_stays (c : Connection) : closing c -> closing (fulfil c).
Proof. intros H. left. now apply fulfil_closing. Qed.

Lemma socket_closed_closing (c : Connection) : closing (socket_closed c).
Proof. now left. Qed.

Lemma alter_closing (f : Connection -> Connection) (l : list Connection)
    (i c : nat) :
  (forall conn, closing conn -> closing (f conn)) ->
  (exists conn, l !! c = Some conn /\ closing conn) ->
  exists conn, alter f i l !! c = Some conn /\ closing conn.
Proof.
  intros Hf (conn & Hc & Hclosing).
  destruct (decide (i = c)) as [-> | Hne].
  - exists (f conn). rewrite list_lookup_alter_eq, Hc. auto.
  - exists conn. rewrite list_lookup_alter_ne by exact Hne. auto.
Qed.

Lemma handleStopLiveSession_closing (c : nat) (s : App) :
  connection_is closing c s -> connection_is closing c (handleStopLiveSession s).
Proof.
  unfold connection_is. intros H.
  rewrite handleStopLiveSession_fields. cbn [browser connections].
  destruct (sessionPromiseRef (refs s)); [| exact H].
  apply alter_closing; [| exact H].
  intros conn _. apply promise_then_close_closing.
Qed.

(** Once a connection is closing, no event takes that away. *)
Lemma step_closing (c : nat) (s : App) (e : Event) :
  connection_is closing c s -> connection_is closing c (step s e).
Proof.
  intros H.
  destruct e as [agentId | | c' | c' | c' | c' message now | c' message | c'
                 | p inputData | source]; cbn [step].
  - unfold LiveConversation_start.
    destruct (isLiveSessionActive (ui s)); [exact H |].
    destruct agentId as [| ch rest]; [exact H |].
    destruct (handleStartLiveSession_cases (String ch rest) s)
      as [(_ & _ & Hconns) | (_ & conn & Hconns & _)]; cbv zeta in *;
      unfold connection_is; rewrite Hconns; [exact H |].
    destruct H as (conn0 & Hc & Hclosing). exists conn0.
    split; [| exact Hclosing]. now apply lookup_app_l_Some.
  - unfold LiveConversation_stop.
    destruct (isLiveSessionActive (ui s)); [| exact H].
    now apply handleStopLiveSession_closing.
  - destruct (connections (browser s) !! c'); [| exact H].
    open_app s. exact H.
  - destruct (connections (browser s) !! c'); [| exact H].
    open_app s. unfold onopen_resume. cbn in *. destruct inp; exact H.
  - open_app s. unfold connection_is in *. cbn in *.
    apply alter_closing; [exact fulfil_closing_stays | exact H].
  - destruct (connections (browser s) !! c') as [conn |]; [| exact H].
    destruct (onmessage_frame (closure conn) message now s)
      as (_ & _ & Hconns). cbv zeta in *.
    unfold connection_is. now rewrite Hconns.
  - destruct (connections (browser s) !! c'); [| exact H].
    rewrite onerror_fields. now apply handleStopLiveSession_closing.
  - destruct (connections (browser s) !! c'); [| exact H].
    unfold onclose. apply handleStopLiveSession_closing.
    open_app s. unfold connection_is in *. cbn in *.
    apply alter_closing; [| exact H].
    intros conn _. apply socket_closed_closing.
  - destruct (processors (browser s) !! p) as [[|] |]; try exact H.
    open_app s. unfold onaudioprocess, connection_is in *. cbn in *.
    destruct session; [| exact H].
    apply alter_closing; [| exact H].
    intros conn. apply promise_then_closing.
  - open_app s. exact H.
Qed.

Lemma run_closing (c : nat) (events : list Event) (s : App) :
  connection_is closing c s -> connection_is closing c (run s events).
Proof.
  revert s. induction events as [| e events IH]; intros s H; [exact H |].
  apply IH. now apply step_closing.
Qed.

(** The second half of C3 holds on the code: if [handleStopLiveSession]
    runs while [connect] is pending, then whatever happens in between,
    the session is closed at the moment [connect] resolves. *)
Lemma session_closed_when_connect_resolves_after_stop (s : App) (c : nat)
    (conn : Connection) (events : list Event) :
  sessionPromiseRef (refs s) = Some c ->
  connections (browser s) !! c = Some conn ->
  connection_is (fun conn' => status conn' = Closed) c
    (step (run (handleStopLiveSession s) events) (ConnectFulfilled c)).
Proof.
  intros Href Hconn.
  assert (H : connection_is closing c (handleStopLiveSession s)).
  { unfold connection_is. rewrite handleStopLiveSession_fields.
    cbn [browser connections]. rewrite Href.
    exists (promise_then CloseSession conn). split.
    - now rewrite list_lookup_alter_eq, Hconn.
    - apply promise_then_close_closing. }
  apply (run_closing c events) in H.
  destruct H as (conn' & Hc & Hclosing).
  set (s' := run (handleStopLiveSession s) events) in *.
  open_app s'. unfold connection_is. cbn in *.
  exists (fulfil conn'). rewrite list_lookup_alter_eq, Hc.
  split; [reflexivity | now apply fulfil_closing].
Qed.

(** C3, on the code.  [handleStopLiveSession] is called before [connect]
    resolves; the socket then opens and [onopen] asks for the microphone;
    [connect] resolves and the session is closed at once; its close event
    runs the teardown while the microphone request is still pending; the
    microphone is then granted.  The session was closed, as the
    specification requires, but the microphone stream is left open (held
    by [microphoneStreamRef], its tracks live) with the status
    ["Disconnected"] and the session inactive, where the specification
    requires that the microphone is not left open. *)
Theorem microphone_left_open_after_early_stop :
  let resolved :=
    run fresh
      [StartLiveSession "a1"; StopLiveSession; TransportOpen 0;
       ConnectFulfilled 0] in
  let s := run fresh early_stop in
  (status <$> connections (browser resolved) !! 0%nat) = Some Closed /\
  (status <$> connections (browser s) !! 0%nat) = Some Closed /\
  isLiveSessionActive (ui s) = false /\
  liveStatus (ui s) = "Disconnected"%string /\
  sessionPromiseRef (refs s) = None /\
  microphoneStreamRef (refs s) = Some 0%nat /\
  streams (browser s) = [true].
Proof. vm_compute. repeat split; reflexivity. Qed.

(** * Further properties of the code *)

(** ** The captured frame on the wire *)

Lemma Uint8Array_of_Int16Array_length (int16 : list Z) :
  length (Uint8Array_of_Int16Array int16) = (2 * length int16)%nat.
Proof.
  induction int16 as [| v vs IH]; [reflexivity |].
  cbn [Uint8Array_of_Int16Array flat_map app length].
  fold (Uint8Array_of_Int16Array vs). rewrite IH. lia.
Qed.

(** X1.  What [createBlob] puts on the wire for a captured frame, whatever
    the samples are (NaN and the infinities included): the MIME type is
    ["audio/pcm;rate=16000"]; [decode] reads the payload back as exactly
    the PCM16 bytes of the frame, two bytes per sample, each a valid byte;
    and those bytes, viewed as an [Int16Array], are the samples
    converted. *)
Theorem createBlob_payload (inputData : list number) :
  mimeType (createBlob inputData) = "audio/pcm;rate=16000"%string /\
  decode (data (createBlob inputData)) = Some (floatToPcm16 inputData) /\
  length (floatToPcm16 inputData) = (2 * length inputData)%nat /\
  Forall is_byte (floatToPcm16 inputData) /\
  Int16Array_of_buffer (floatToPcm16 inputData) = Some (floatToInt16 inputData).
Proof.
  split; [reflexivity |]. split; [| split; [| split]].
  - apply decode_encode, Uint8Array_of_Int16Array_bytes.
  - unfold floatToPcm16, floatToInt16.
    now rewrite Uint8Array_of_Int16Array_length, length_map.
  - apply Uint8Array_of_Int16Array_bytes.
  - apply Int16Array_of_buffer_view, floatToInt16_range.
Qed.

(** ** Decoding a chunk of audio *)

Section ListInduction2.
Context {A : Type} (P : list A -> Prop).
Hypothesis P0 : P [].
Hypothesis P1 : forall a, P [a].
Hypothesis P2 : forall a b l, P l -> P (a :: b :: l).

Lemma list_ind2 (l : list A) : P l.
Proof.
  enough (P l /\ forall a, P (a :: l)) by tauto.
  induction l as [| x l [IH0 IH1]]; auto.
Qed.

End ListInduction2.

Lemma Int16Array_of_buffer_odd (data : list Z) :
  Int16Array_of_buffer data = None <-> Nat.odd (length data) = true.
Proof.
  induction data as [| a | a b data IH] using list_ind2.
  - cbn. split; discriminate.
  - cbn. split; reflexivity.
  - cbn [Int16Array_of_buffer length]. rewrite Nat.odd_succ_succ, <- IH.
    destruct (Int16Array_of_buffer data); cbn; split; congruence.
Qed.

Lemma Int16Array_of_buffer_length (data dataInt16 : list Z) :
  Int16Array_of_buffer data = Some dataInt16 ->
  length dataInt16 = (length data / 2)%nat.
Proof.
  revert dataInt16.
  induction data as [| a | a b data IH] using list_ind2; intros l H.
  - injection H as <-. reflexivity.
  - discriminate.
  - cbn [Int16Array_of_buffer] in H.
    destruct (Int16Array_of_buffer data) as [l' |]; [| discriminate].
    injection H as <-. cbn [length]. rewrite (IH l' eq_refl).
    change (S (S (length data))) with (2 + length data)%nat.
    replace (2 + length data)%nat with (length data + 1 * 2)%nat by lia.
    rewrite Nat.div_add by lia. lia.
Qed.

Lemma Int16Array_of_buffer_range (data dataInt16 : list Z) :
  Forall is_byte data ->
  Int16Array_of_buffer data = Some dataInt16 ->
  Forall (fun v => -32768 <= v < 32768) dataInt16.
Proof.
  revert dataInt16.
  induction data as [| a | a b data IH] using list_ind2; intros l Hb H.
  - injection H as <-. constructor.
  - discriminate.
  - cbn [Int16Array_of_buffer] in H.
    inversion_clear Hb as [| ? ? Ha Hb']. inversion_clear Hb' as [| ? ? Hb Hd].
    destruct (Int16Array_of_buffer data) as [l' |]; [| discriminate].
    injection H as <-. constructor; [| now apply IH].
    unfold is_byte in *.
    destruct (32768 <=? a + 256 * b) eqn:E;
      [apply Z.leb_le in E | apply Z.leb_gt in E]; lia.
Qed.

(** X2.  When [decodeAudioData] fails.  For a channel count and a sample
    rate that every browser supports (1 to 32 channels, 8000 to 96000 Hz),
    it throws exactly when the byte count is odd (the [Int16Array] view
    cannot be made) or there are fewer samples than channels (the buffer
    would have no frame).  Otherwise the buffer has the channel count and
    the rate asked for, as many frames as whole groups of samples, at
    least one, and lasts frames / rate seconds. *)
Theorem decodeAudioData_failure (data : list Z) (rate : Z) (numChannels : nat) :
  (1 <= numChannels <= 32)%nat ->
  8000 <= rate <= 96000 ->
  (decodeAudioData data rate numChannels = None <->
   Nat.odd (length data) = true \/ (length data / 2 < numChannels)%nat) /\
  (forall b,
     decodeAudioData data rate numChannels = Some b ->
     numberOfChannels b = numChannels /\
     frames b = (length data / 2 / numChannels)%nat /\
     (0 < frames b)%nat /\
     sampleRate b = rate /\
     duration b = (inject_Z (Z.of_nat (frames b)) / inject_Z rate)%Q).
Proof.
  intros Hchannels _. unfold decodeAudioData.
  assert (Hnc : numChannels <> 0%nat) by lia.
  destruct (Int16Array_of_buffer data) as [dataInt16 |] eqn:E.
  - pose proof (Int16Array_of_buffer_length _ _ E) as Hlen.
    assert (Hodd : Nat.odd (length data) <> true).
    { intros H. apply Int16Array_of_buffer_odd in H. congruence. }
    cbv zeta. rewrite Hlen.
    rewrite (proj2 (Nat.eqb_neq _ _) Hnc). cbn [orb].
    destruct (length data / 2 / numChannels =? 0)%nat eqn:F.
    + apply Nat.eqb_eq in F. apply Nat.div_small_iff in F; [| exact Hnc].
      split; [tauto | discriminate].
    + apply Nat.eqb_neq in F.
      assert (~ (length data / 2 < numChannels)%nat).
      { intros H. apply Nat.div_small_iff in H; [| exact Hnc].
        contradiction. }
      split.
      * split; [discriminate |]. intros [H' | H']; contradiction.
      * intros b Hb. injection Hb as <-. unfold duration.
        cbn [numberOfChannels frames sampleRate]. repeat split.
        now apply Nat.neq_0_lt_0.
  - split; [| discriminate].
    split; [| reflexivity]. intros _. left.
    now apply Int16Array_of_buffer_odd.
Qed.

Lemma decodeAudioData_failure_witness :
  decodeAudioData [0; 128; 255] 24000 1 = None /\
  decodeAudioData [] 24000 1 = None.
Proof.
  split.
  - apply (decodeAudioData_failure [0; 128; 255] 24000 1); [lia | lia |].
    left. reflexivity.
  - apply (decodeAudioData_failure [] 24000 1); [lia | lia |].
    right. vm_compute. lia.
Defined.

Lemma div32768_range (v : Z) :
  -32768 <= v < 32768 ->
  exists q, div32768 v = Finite q /\ (-1 <= q)%Q /\ (q < 1)%Q.
Proof.
  intros H. eexists. split; [reflexivity |].
  unfold Qle, Qlt, Qdiv, Qmult, Qinv, inject_Z. cbn. lia.
Qed.

(** X3.  What [decodeAudioData] produces from valid bytes: one channel
    per channel asked for, each with one sample per frame, and every
    sample a finite number in [-1, 1): never NaN, never infinite, never
    1.0 itself. *)
Theorem decodeAudioData_samples (data : list Z) (rate : Z) (numChannels : nat)
    (b : AudioBuffer) :
  Forall is_byte data ->
  decodeAudioData data rate numChannels = Some b ->
  length (channelData b) = numChannels /\
  Forall (fun channel =>
            length channel = frames b /\
            Forall (fun x => exists q,
                      x = Finite q /\ (-1 <= q)%Q /\ (q < 1)%Q) channel)
         (channelData b).
Proof.
  intros Hbytes H. unfold decodeAudioData in H.
  destruct (Int16Array_of_buffer data) as [dataInt16 |] eqn:E;
    [| discriminate].
  pose proof (Int16Array_of_buffer_range _ _ Hbytes E) as Hrange.
  cbv zeta in H.
  destruct ((numChannels =? 0)%nat || _); [discriminate |].
  injection H as <-. cbn [channelData frames]. unfold deinterleave. split.
  - now rewrite length_map, length_seq.
  - apply Forall_map, Forall_forall. intros channel _. split.
    + now rewrite length_map, length_seq.
    + apply Forall_map, Forall_forall. intros i _.
      apply div32768_range.
      destruct (nth_in_or_default (i * numChannels + channel) dataInt16 0)
        as [Hin | ->]; [| lia].
      rewrite List.Forall_forall in Hrange. now apply Hrange.
Qed.

Lemma decodeAudioData_samples_witness :
  exists b,
    decodeAudioData [0; 128; 255; 127] 24000 1 = Some b /\
    length (channelData b) = 1%nat /\
    Forall (fun channel =>
              length channel = frames b /\
              Forall (fun x => exists q,
                        x = Finite q /\ (-1 <= q)%Q /\ (q < 1)%Q) channel)
           (channelData b).
Proof.
  eexists. split; [reflexivity |].
  apply (decodeAudioData_samples [0; 128; 255; 127] 24000 1).
  - repeat constructor; unfold is_byte; lia.
  - reflexivity.
Defined.

Lemma ToInt16_div32768 (v : Z) :
  -32768 <= v < 32768 -> ToInt16 (mul32768 (div32768 v)) = v.
Proof.
  intros H. unfold div32768. cbn [mul32768].
  assert (E : truncate (inject_Z v / 32768 * 32768) = v).
  { unfold truncate, Qdiv, Qmult, Qinv, inject_Z. cbn [Qnum Qden].
    change (Z.pos (1 * 32768 * 1)) with 32768.
    replace (v * 1 * 32768) with (v * 32768) by lia.
    apply Z.quot_mul. lia. }
  rewrite ToInt16_in_range; rewrite E; [reflexivity | exact H].
Qed.

Lemma Uint8Array_of_Int16Array_of_buffer (data dataInt16 : list Z) :
  Forall is_byte data ->
  Int16Array_of_buffer data = Some dataInt16 ->
  Uint8Array_of_Int16Array dataInt16 = data.
Proof.
  revert dataInt16.
  induction data as [| a | a b data IH] using list_ind2; intros l Hb H.
  - injection H as <-. reflexivity.
  - discriminate.
  - cbn [Int16Array_of_buffer] in H.
    inversion_clear Hb as [| ? ? Ha Hb']. inversion_clear Hb' as [| ? ? Hb Hd].
    destruct (Int16Array_of_buffer data) as [l' |]; [| discriminate].
    injection H as <-.
    cbn [Uint8Array_of_Int16Array flat_map app].
    fold (Uint8Array_of_Int16Array l'). rewrite (IH l' Hd eq_refl).
    unfold is_byte in *.
    destruct (32768 <=? a + 256 * b) eqn:E;
      [apply Z.leb_le in E | apply Z.leb_gt in E];
      (f_equal; [| f_equal]); Z.div_mod_to_equations; lia.
Qed.

(** X4.  The round trip in the other direction is exact: valid bytes,
    of even count and not none, decode to a buffer of one channel, and
    encoding the samples of that channel gives the same bytes back. *)
Theorem floatToPcm16_decodeAudioData (data : list Z) :
  Forall is_byte data ->
  Nat.odd (length data) = false ->
  data <> [] ->
  exists (b : AudioBuffer) (channel : list number),
    decodeAudioData data 24000 1 = Some b /\
    channelData b = [channel] /\
    floatToPcm16 channel = data.
Proof.
  intros Hbytes Heven Hne. unfold decodeAudioData.
  destruct (Int16Array_of_buffer data) as [dataInt16 |] eqn:E.
  - pose proof (Int16Array_of_buffer_length _ _ E) as Hlen.
    cbv zeta. rewrite Nat.div_1_r. cbn [Nat.eqb orb].
    destruct (length dataInt16 =? 0)%nat eqn:F.
    + apply Nat.eqb_eq in F. rewrite F in Hlen.
      destruct data as [| a [| c data]]; [contradiction | discriminate |].
      cbn [length] in Hlen.
      change (S (S (length data))) with (2 + length data)%nat in Hlen.
      replace (2 + length data)%nat with (length data + 1 * 2)%nat in Hlen
        by lia.
      rewrite Nat.div_add in Hlen by lia. lia.
    + eexists. exists (map div32768 dataInt16). split; [reflexivity |].
      cbn [channelData]. rewrite <- (Nat.div_1_r (length dataInt16)) at 1.
      split; [apply deinterleave_mono |].
      unfold floatToPcm16, floatToInt16. rewrite map_map.
      pose proof (Int16Array_of_buffer_range _ _ Hbytes E) as Hrange.
      rewrite (map_ext_Forall _ (fun v => v)).
      * rewrite map_id. now apply Uint8Array_of_Int16Array_of_buffer.
      * eapply List.Forall_impl; [| exact Hrange].
        intros v Hv. now apply ToInt16_div32768.
  - apply Int16Array_of_buffer_odd in E. congruence.
Qed.

Lemma floatToPcm16_decodeAudioData_witness :
  exists (b : AudioBuffer) (channel : list number),
    decodeAudioData [0; 128; 255; 127] 24000 1 = Some b /\
    channelData b = [channel] /\
    floatToPcm16 channel = [0; 128; 255; 127].
Proof.
  apply (floatToPcm16_decodeAudioData [0; 128; 255; 127]).
  - repeat constructor; unfold is_byte; lia.
  - reflexivity.
  - discriminate.
Defined.

(** ** Playback never overlaps *)

Lemma apart_earlier (from from' : Q) (l : list BufferSource) :
  (from' <= from)%Q -> apart from l -> apart from' l.
Proof.
  destruct l as [| x l]; [auto |]. intros H [H1 H2]. split; [| exact H2].
  now apply Qle_trans with from.
Qed.

(** What one message does to the scheduler. *)
Lemma onmessage_scheduler (captured : Turn) (message : LiveServerMessage)
    (now : Q) (s : App) :
  let s' := onmessage captured message now s in
  (sources (browser s') = sources (browser s) /\
   audioSourcesRef (refs s') = audioSourcesRef (refs s) /\
   (nextStartTimeRef (refs s) <= nextStartTimeRef (refs s'))%Q) \/
  (exists x,
     sources (browser s') = sources (browser s) ++ [x] /\
     (nextStartTimeRef (refs s) <= when x)%Q /\
     (now <= when x)%Q /\
     (1 # 24000 <= duration (buffer x))%Q /\
     nextStartTimeRef (refs s') = advance (when x) (buffer x)).
Proof.
  destruct (inlineData message) as [[| ch rest] |] eqn:Edata.
  1, 3: left; open_app s; destruct message as [o i tc audio];
        cbn in Edata; subst audio; unfold onmessage;
        cbn [outputTranscription inputTranscription turnComplete inlineData];
        destruct o, i, tc; cbn; repeat split; apply Qle_refl.
  destruct (outputAudioContextRef (refs s)) as [ctx |] eqn:Ectx.
  2: { left. open_app s. destruct message as [o i tc audio].
       cbn in Edata, Ectx. subst audio out. unfold onmessage.
       cbn [outputTranscription inputTranscription turnComplete inlineData].
       destruct o, i, tc; cbn; repeat split; apply Qle_refl. }
  destruct (decodeChunk (String ch rest)) as [audioBuffer |] eqn:Edec.
  - right.
    destruct (onmessage_audio captured message now s _ ctx audioBuffer
                Edata ltac:(discriminate) Ectx Edec)
      as (Hsrc & Hnext & _ & _).
    eexists. split; [exact Hsrc |]. cbn [when buffer].
    split; [apply Q.le_max_l |]. split; [apply Q.le_max_r |].
    split; [| exact Hnext].
    now apply decodeChunk_duration in Edec.
  - left. unfold decodeChunk in Edec.
    open_app s. destruct message as [o i tc audio].
    cbn in Edata, Ectx. subst audio out. unfold onmessage.
    cbn [outputTranscription inputTranscription turnComplete inlineData].
    destruct (decode (String ch rest)) as [bytes |].
    + destruct o, i, tc; cbn; rewrite Edec; cbn; repeat split;
        apply Q.le_max_l.
    + destruct o, i, tc; cbn; repeat split; apply Q.le_max_l.
Qed.

Lemma step_scheduler (s : App) (e : Event) :
  is_start e = false ->
  (sources (browser (step s e)) = sources (browser s) /\
   (nextStartTimeRef (refs s) <= nextStartTimeRef (refs (step s e)))%Q) \/
  (exists x,
     sources (browser (step s e)) = sources (browser s) ++ [x] /\
     (nextStartTimeRef (refs s) <= when x)%Q /\
     (1 # 24000 <= duration (buffer x))%Q /\
     nextStartTimeRef (refs (step s e)) = advance (when x) (buffer x)).
Proof.
  intros Hstart.
  destruct e as [agentId | | c | c | c | c message now | c message | c
                 | p inputData | source]; cbn [step]; try discriminate.
  - left. unfold LiveConversation_stop.
    destruct (isLiveSessionActive (ui s)).
    + rewrite handleStopLiveSession_fields. cbn. split;
        [reflexivity | apply Qle_refl].
    + split; [reflexivity | apply Qle_refl].
  - left. destruct (connections (browser s) !! c);
      open_app s; cbn; split; try reflexivity; apply Qle_refl.
  - left. destruct (connections (browser s) !! c);
      open_app s; unfold onopen_resume; cbn; try destruct inp; cbn; split;
      try reflexivity; apply Qle_refl.
  - left. open_app s. cbn. split; [reflexivity | apply Qle_refl].
  - destruct (connections (browser s) !! c) as [conn |].
    + destruct (onmessage_scheduler (closure conn) message now s)
        as [(H1 & _ & H2) | (x & H1 & H2 & _ & H3 & H4)]; cbv zeta in *.
      * left. auto.
      * right. exists x. auto.
    + left. split; [reflexivity | apply Qle_refl].
  - left. destruct (connections (browser s) !! c).
    + rewrite onerror_fields, handleStopLiveSession_fields. cbn.
      split; [reflexivity | apply Qle_refl].
    + split; [reflexivity | apply Qle_refl].
  - left. destruct (connections (browser s) !! c).
    + unfold onclose. rewrite handleStopLiveSession_fields.
      open_app s. cbn. split; [reflexivity | apply Qle_refl].
    + split; [reflexivity | apply Qle_refl].
  - left. destruct (processors (browser s) !! p) as [[|] |];
      open_app s; unfold onaudioprocess; cbn; try destruct session; cbn;
      split; try reflexivity; apply Qle_refl.
  - left. open_app s. cbn. split; [reflexivity | apply Qle_refl].
Qed.

(** X5.  Playback never overlaps by more than the rounding of a sum.
    Over any run of events in which no session is started, from a state
    whose next start time is not negative, the sources created are
    appended in order; each is scheduled to start no earlier than the
    next start time computed after the one created before it (the first
    no earlier than the next start time held before the run); and that
    next start time, the binary64 sum of the start and the duration of
    the source, is within [2^-51] of its exact end, relatively. *)
Theorem sources_never_overlap (events : list Event) (s : App) :
  forallb (fun e => negb (is_start e)) events = true ->
  (0 <= nextStartTimeRef (refs s))%Q ->
  exists new : list BufferSource,
    sources (browser (run s events)) = sources (browser s) ++ new /\
    apart (nextStartTimeRef (refs s)) new /\
    Forall ends_within_rounding new.
Proof.
  revert s. induction events as [| e events IH]; intros s Hall Hpos.
  - exists []. cbn. rewrite app_nil_r. repeat split. constructor.
  - cbn [forallb] in Hall. apply andb_prop in Hall as [He Hall].
    apply negb_true_iff in He.
    cbn [run fold_left]. fold (run (step s e) events).
    destruct (step_scheduler s e He) as [(H1 & H2) | (x & H1 & H2 & H3 & H4)].
    + destruct (IH (step s e) Hall) as (new & Hsrc & Hapart & Hclose).
      { now apply Qle_trans with (nextStartTimeRef (refs s)). }
      exists new. rewrite Hsrc, H1. repeat split; [| exact Hclose].
      now apply apart_earlier with (nextStartTimeRef (refs (step s e))).
    + assert (Hx : (0 <= when x)%Q)
        by now apply Qle_trans with (nextStartTimeRef (refs s)).
      destruct (IH (step s e) Hall) as (new & Hsrc & Hapart & Hclose).
      { rewrite H4. now apply advance_nonneg. }
      exists (x :: new). rewrite Hsrc, H1, <- app_assoc. repeat split.
      * exact H2.
      * now rewrite <- H4.
      * constructor; [| exact Hclose]. now apply advance_close.
Qed.

Lemma sources_never_overlap_witness :
  exists new : list BufferSource,
    sources (browser (run started
       [TransportMessage 0 (audioChunk "AAAAAA==") (1 # 2);
        TransportMessage 0 (audioChunk "!") 3;
        TransportMessage 0 (audioChunk "AAAAAA==") 0;
        StopLiveSession]))
    = sources (browser started) ++ new /\
    apart (nextStartTimeRef (refs started)) new /\
    Forall ends_within_rounding new.
Proof.
  apply (sources_never_overlap
           [TransportMessage 0 (audioChunk "AAAAAA==") (1 # 2);
            TransportMessage 0 (audioChunk "!") 3;
            TransportMessage 0 (audioChunk "AAAAAA==") 0;
            StopLiveSession] started).
  - reflexivity.
  - discriminate.
Defined.

(** ** The transcript only grows *)

Lemma promise_then_closure (r : Reaction) (c : Connection) :
  closure (promise_then r c) = closure c.
Proof.
  unfold promise_then. destruct (status c) eqn:E; [reflexivity | |];
    destruct r; cbn [run_reaction]; try rewrite E; reflexivity.
Qed.

Lemma run_reactions_closure (rs : list Reaction) (c : Connection) :
  closure (fold_left run_reaction rs c) = closure c.
Proof.
  revert c. induction rs as [| r rs IH]; intros c; [reflexivity |].
  cbn [fold_left]. rewrite IH.
  destruct r; cbn [run_reaction]; [destruct (status c) |]; reflexivity.
Qed.

Lemma fulfil_closure (c : Connection) : closure (fulfil c) = closure c.
Proof.
  unfold fulfil. destruct (status c); try reflexivity.
  now rewrite run_reactions_closure.
Qed.

Lemma alter_closures (f : Connection -> Connection) (i : nat)
    (l : list Connection) :
  (forall c, closure (f c) = closure c) ->
  map closure (alter f i l) = map closure l.
Proof.
  intros Hf. apply list_eq. intros j.
  change (map closure) with (fmap (M:=list) closure).
  rewrite !list_lookup_fmap.
  destruct (decide (i = j)) as [-> | Hne].
  - rewrite list_lookup_alter_eq. destruct (l !! j); cbn; [| reflexivity].
    now rewrite Hf.
  - now rewrite list_lookup_alter_ne.
Qed.

Lemma handleStopLiveSession_closures (s : App) :
  map closure (connections (browser (handleStopLiveSession s)))
  = map closure (connections (browser s)).
Proof.
  rewrite handleStopLiveSession_fields. cbn [browser connections].
  destruct (sessionPromiseRef (refs s)); [| reflexivity].
  apply alter_closures, promise_then_closure.
Qed.

Lemma handleStopLiveSession_transcript (s : App) :
  liveTranscript (ui (handleStopLiveSession s)) = liveTranscript (ui s) /\
  currentLiveTranscription (ui (handleStopLiveSession s))
  = currentLiveTranscription (ui s).
Proof. now rewrite handleStopLiveSession_fields. Qed.

Lemma step_transcript (s : App) (e : Event) :
  is_start e = false ->
  map closure (connections (browser (step s e)))
  = map closure (connections (browser s)) /\
  liveTranscript (ui (step s e))
  = liveTranscript (ui s)
      ++ finalized (map closure (connections (browser s))) e.
Proof.
  intros Hstart.
  destruct e as [agentId | | c | c | c | c message now | c message | c
                 | p inputData | source]; cbn [step finalized];
    try discriminate; rewrite ?app_nil_r.
  - unfold LiveConversation_stop.
    destruct (isLiveSessionActive (ui s)); [| auto].
    split; [apply handleStopLiveSession_closures |].
    apply handleStopLiveSession_transcript.
  - destruct (connections (browser s) !! c); open_app s; auto.
  - destruct (connections (browser s) !! c); [| auto].
    open_app s. unfold onopen_resume. cbn. destruct inp; auto.
  - open_app s. cbn. split; [| reflexivity].
    apply alter_closures, fulfil_closure.
  - change (map closure) with (fmap (M:=list) closure).
    rewrite list_lookup_fmap.
    destruct (connections (browser s) !! c) as [conn |]; cbn [fmap option_fmap option_map].
    + destruct (onmessage_frame (closure conn) message now s)
        as (_ & _ & Hconns).
      destruct (onmessage_transcript (closure conn) message now s)
        as (Ht & _). cbv zeta in *. rewrite Hconns, Ht.
      split; [reflexivity |].
      destruct (turnComplete message); [reflexivity | now rewrite app_nil_r].
    + split; [reflexivity |].
      destruct (turnComplete message); now rewrite app_nil_r.
  - destruct (connections (browser s) !! c); [| auto].
    rewrite onerror_fields.
    split; [apply handleStopLiveSession_closures |].
    apply handleStopLiveSession_transcript.
  - destruct (connections (browser s) !! c); [| auto].
    unfold onclose. split.
    + rewrite handleStopLiveSession_closures. open_app s. cbn.
      now apply alter_closures.
    + destruct (handleStopLiveSession_transcript
                  (setLiveStatus "Disconnected"
                     (set_connections (alter socket_closed c) s)))
        as [H _].
      rewrite H. now open_app s.
  - destruct (processors (browser s) !! p) as [[|] |]; auto.
    open_app s. unfold onaudioprocess. cbn. destruct session; cbn; auto.
    split; [| reflexivity]. apply alter_closures, promise_then_closure.
  - open_app s. auto.
Qed.

(** X6.  Within a session the transcript only grows.  Over any run of
    events in which no session is started, the transcript is the one
    before the run followed by one turn for each turn-complete message
    that reached an existing connection, in order of arrival; the turn
    appended is the partial turn the callbacks of that connection closed
    over when its session was started. *)
Theorem transcript_append_only (events : list Event) (s : App) :
  forallb (fun e => negb (is_start e)) events = true ->
  liveTranscript (ui (run s events))
  = liveTranscript (ui s)
      ++ flat_map (finalized (map closure (connections (browser s)))) events.
Proof.
  revert s. induction events as [| e events IH]; intros s Hall.
  - cbn. now rewrite app_nil_r.
  - cbn [forallb] in Hall. apply andb_prop in Hall as [He Hall].
    apply negb_true_iff in He.
    cbn [run fold_left flat_map]. fold (run (step s e) events).
    destruct (step_transcript s e He) as [Hc Ht].
    rewrite (IH (step s e) Hall), Hc, Ht, <- app_assoc. reflexivity.
Qed.

Lemma transcript_append_only_witness :
  liveTranscript (ui (run started
     [TransportMessage 0 (inputDelta "Hi") 0;
      TransportMessage 0 turnCompleted 0;
      TransportMessage 1 turnCompleted 0;
      TransportMessage 0 turnCompleted 1]))
  = liveTranscript (ui started)
      ++ flat_map (finalized (map closure (connections (browser started))))
           [TransportMessage 0 (inputDelta "Hi") 0;
            TransportMessage 0 turnCompleted 0;
            TransportMessage 1 turnCompleted 0;
            TransportMessage 0 turnCompleted 1].
Proof.
  apply (transcript_append_only
           [TransportMessage 0 (inputDelta "Hi") 0;
            TransportMessage 0 turnCompleted 0;
            TransportMessage 1 turnCompleted 0;
            TransportMessage 0 turnCompleted 1] started).
  reflexivity.
Defined.

(** ** Deltas accumulate in order *)

Lemma string_app_assoc (a b c : string) :
  ((a +:+ b) +:+ c = a +:+ (b +:+ c))%string.
Proof.
  induction a as [| ch a IH]; [reflexivity |].
  change (String ch a +:+ b)%string with (String ch (a +:+ b)).
  change (String ch (a +:+ b) +:+ c)%string with (String ch ((a +:+ b) +:+ c)).
  now rewrite IH.
Qed.

Lemma string_app_empty (a : string) : (a +:+ "")%string = a.
Proof.
  induction a as [| ch a IH]; [reflexivity |].
  change (String ch a +:+ "")%string with (String ch (a +:+ "")).
  now rewrite IH.
Qed.

(** X7.  While no turn completes, the partial turn accumulates the
    deltas in order of arrival: the agent side gains the output delta of
    each message, the user side the input delta of each message that has
    no output delta (a delta without text reads ["undefined"]), and the
    transcript is not touched. *)
Theorem deltas_concatenate (captured : Turn)
    (arrivals : list (LiveServerMessage * Q)) (s : App) :
  Forall (fun a => turnComplete (fst a) = false) arrivals ->
  let prev := currentLiveTranscription (ui s) in
  currentLiveTranscription (ui (deliver_all captured s arrivals))
  = mkTurn
      (userInput prev
         +:+ concat_all (map (fun a => userDelta (fst a)) arrivals))
      (agentResponse prev
         +:+ concat_all (map (fun a => agentDelta (fst a)) arrivals)) /\
  liveTranscript (ui (deliver_all captured s arrivals)) = liveTranscript (ui s).
Proof.
  revert s. induction arrivals as [| [m now] arrivals IH]; intros s Hall prev.
  - cbn. rewrite !string_app_empty. subst prev.
    now destruct (currentLiveTranscription (ui s)).
  - inversion_clear Hall as [| ? ? Htc Hrest]. cbn [fst] in Htc.
    cbn [deliver_all fold_left fst snd].
    fold (deliver_all captured (onmessage captured m now s) arrivals).
    destruct (IH (onmessage captured m now s) Hrest) as [Hcur Hlive].
    cbv zeta in Hcur. rewrite Hcur, Hlive.
    destruct (onmessage_transcript captured m now s) as [Ht Hp].
    cbv zeta in Ht, Hp. rewrite Htc in Ht, Hp. rewrite Ht, Hp.
    split; [| reflexivity]. subst prev.
    cbn [map fst concat_all fold_right].
    fold (concat_all (map (fun a => userDelta (fst a)) arrivals)).
    fold (concat_all (map (fun a => agentDelta (fst a)) arrivals)).
    unfold userDelta, agentDelta, string_add, delta_text.
    destruct (outputTranscription m) as [[o] |],
      (inputTranscription m) as [[i] |];
      cbn [userInput agentResponse text];
      rewrite ?string_app_assoc; reflexivity.
Qed.

Lemma deltas_concatenate_witness :
  currentLiveTranscription
    (ui (deliver_all (mkTurn "" "") started
           [(inputDelta "Hel", 0%Q); (inputDelta "lo", 0%Q);
            (outputDelta "Good ", 1%Q); (bothDeltas "day" "dropped", 2%Q)]))
  = mkTurn "Hello" "Good day".
Proof.
  destruct (deltas_concatenate (mkTurn "" "") 
              [(inputDelta "Hel", 0%Q); (inputDelta "lo", 0%Q);
               (outputDelta "Good ", 1%Q); (bothDeltas "day" "dropped", 2%Q)]
              started) as [H _].
  - repeat constructor.
  - exact H.
Defined.

(** ** What the interface shows *)

Lemma handleStartLiveSession_effect (agentId : string) (s : App) :
  let s' := handleStartLiveSession agentId s in
  (ui s' = ui s /\ refs s' = refs s /\
   connections (browser s') = connections (browser s) /\
   alerts (browser s')
   = alerts (browser s) ++ ["Agent not found or API key is missing."%string])
  \/
  (isLiveSessionActive (ui s') = true /\
   liveStatus (ui s') = "Connecting..."%string /\
   sessionPromiseRef (refs s') = Some (length (connections (browser s)))).
Proof.
  open_app s. unfold handleStartLiveSession. cbn [ui browser agents API_KEY].
  destruct (List.find _ stored) as [agent |];
    [| left; repeat split; reflexivity].
  destruct key as [[| ch k] |]; try (left; repeat split; reflexivity).
  right. repeat split; reflexivity.
Qed.

Lemma step_status_activity (s : App) (e : Event) :
  reachable_status s /\ active_iff_held s ->
  reachable_status (step s e) /\ active_iff_held (step s e).
Proof.
  unfold reachable_status, active_iff_held. intros [Hst Hact].
  assert (Hstop :
    forall s0, (liveStatus (ui (handleStopLiveSession s0)) = "Disconnected"%string \/
       liveStatus (ui (handleStopLiveSession s0)) = "Connecting..."%string \/
       liveStatus (ui (handleStopLiveSession s0)) = "Connected"%string) /\
    (isLiveSessionActive (ui (handleStopLiveSession s0)) = true <->
     sessionPromiseRef (refs (handleStopLiveSession s0)) <> None)).
  { intros s0. rewrite handleStopLiveSession_fields. cbn. split; [now left |].
    split; [discriminate | congruence]. }
  destruct e as [agentId | | c | c | c | c message now | c message | c
                 | p inputData | source]; cbn [step].
  - unfold LiveConversation_start.
    destruct (isLiveSessionActive (ui s)) eqn:E; [now rewrite E |].
    destruct agentId as [| ch rest]; [now rewrite E |].
    destruct (handleStartLiveSession_effect (String ch rest) s)
      as [(Hui & Href & _) | (Ha & Hs & Hr)]; cbv zeta in *.
    + rewrite Hui, Href, E. auto.
    + rewrite Ha, Hs, Hr. split; [auto |]. split; [discriminate | reflexivity].
  - unfold LiveConversation_stop.
    destruct (isLiveSessionActive (ui s)) eqn:E; [apply Hstop |].
    now rewrite E.
  - destruct (connections (browser s) !! c); [| auto].
    open_app s. cbn in *. auto.
  - destruct (connections (browser s) !! c); [| auto].
    open_app s. unfold onopen_resume. cbn in *. destruct inp; cbn; auto.
  - open_app s. cbn in *. auto.
  - destruct (connections (browser s) !! c) as [conn |]; [| auto].
    destruct (onmessage_frame (closure conn) message now s)
      as (Href & Ha & _). cbv zeta in *. rewrite Href, Ha.
    split; [| exact Hact].
    open_app s. destruct message as [o i tc audio]. unfold onmessage.
    cbn [outputTranscription inputTranscription turnComplete inlineData].
    cbn in Hst.
    destruct o, i, tc; cbn [ui refs]; case_matches; exact Hst.
  - destruct (connections (browser s) !! c); [| auto].
    rewrite onerror_fields. apply Hstop.
  - destruct (connections (browser s) !! c); [| auto].
    unfold onclose. apply Hstop.
  - destruct (processors (browser s) !! p) as [[|] |]; auto.
    open_app s. unfold onaudioprocess. cbn in *. destruct session; cbn; auto.
  - open_app s. cbn in *. auto.
Qed.

Lemma run_status_activity (events : list Event) (s : App) :
  reachable_status s /\ active_iff_held s ->
  reachable_status (run s events) /\ active_iff_held (run s events).
Proof.
  revert s. induction events as [| e events IH]; intros s H; [exact H |].
  apply IH. now apply step_status_activity.
Qed.

(** X8.  From the first render on, after any sequence of events, the
    session is shown as active exactly when a session promise is held. *)
Theorem active_exactly_while_session_held (stored : list Agent)
    (key : option string) (events : list Event) :
  let s := run (initialApp stored key) events in
  isLiveSessionActive (ui s) = true <-> sessionPromiseRef (refs s) <> None.
Proof.
  apply (run_status_activity events (initialApp stored key)).
  split; [now left |]. unfold active_iff_held. cbn.
  split; [discriminate | intros H; now contradiction H].
Qed.

(** X9.  From the first render on, after any sequence of events, the
    status is ["Disconnected"], ["Connecting..."] or ["Connected"].  It
    never starts with ["Error"], the status [onerror] sets being
    overwritten before the handler returns, so [statusColor] never gives
    the red class. *)
Theorem status_never_shows_error (stored : list Agent)
    (key : option string) (events : list Event) :
  let s := run (initialApp stored key) events in
  (liveStatus (ui s) = "Disconnected"%string \/
   liveStatus (ui s) = "Connecting..."%string \/
   liveStatus (ui s) = "Connected"%string) /\
  String.prefix "Error" (liveStatus (ui s)) = false /\
  statusColor (liveStatus (ui s)) <> "text-red-400"%string.
Proof.
  destruct (run_status_activity events (initialApp stored key)) as [H _].
  { split; [now left |]. unfold active_iff_held. cbn.
    split; [discriminate | intros H; now contradiction H]. }
  cbv zeta. split; [exact H |].
  destruct H as [-> | [-> | ->]]; split; (reflexivity || discriminate).
Qed.

(** ** Audio captured while the session is connecting *)

Lemma run_sends_open (blobs : list GenAIBlob) (c : Connection) :
  status c = Open ->
  fold_left run_reaction (map SendRealtimeInput blobs) c
  = mkConnection Open (reactions c) (sent c ++ blobs) (systemInstruction c)
                 (closure c).
Proof.
  revert c. induction blobs as [| b blobs IH]; intros c H.
  - cbn. rewrite app_nil_r. destruct c. cbn in *. now subst.
  - cbn [map fold_left run_reaction]. rewrite H, IH by reflexivity.
    cbn. now rewrite <- app_assoc.
Qed.

Lemma run_audio_frames (p c : nat) (frames : list (list number)) :
  forall (s : App) (conn : Connection),
    sessionPromiseRef (refs s) = Some c ->
    connections (browser s) !! c = Some conn ->
    status conn = Connecting ->
    processors (browser s) !! p = Some true ->
    connections (browser (run s (map (AudioProcess p) frames))) !! c
    = Some (mkConnection Connecting
              (reactions conn
                 ++ map (fun f => SendRealtimeInput (createBlob f)) frames)
              (sent conn) (systemInstruction conn) (closure conn)).
Proof.
  induction frames as [| f frames IH]; intros s conn Href Hconn Hst Hp.
  - cbn. rewrite app_nil_r, Hconn. destruct conn. cbn in *. now subst.
  - cbn [map run fold_left step]. rewrite Hp.
    fold (run (onaudioprocess f s) (map (AudioProcess p) frames)).
    rewrite (IH (onaudioprocess f s)
               (promise_then (SendRealtimeInput (createBlob f)) conn)).
    + unfold promise_then. rewrite Hst. cbn. now rewrite <- app_assoc.
    + open_app s. unfold onaudioprocess. cbn in *. now subst.
    + open_app s. unfold onaudioprocess. cbn in *. subst session. cbn.
      now rewrite list_lookup_alter_eq, Hconn.
    + unfold promise_then. now rewrite Hst.
    + open_app s. unfold onaudioprocess. cbn in *. now subst.
Qed.

(** X10.  Audio captured while [connect] is pending is not lost.  With
    a session held whose promise is pending and has only sends waiting on
    it, the frames the processor delivers are queued, and when [connect]
    resolves the session is open, nothing is left waiting, and what was
    sent is what had been sent, then the blobs that were waiting, then
    the blob of each frame, in the order of capture. *)
Theorem queued_frames_sent_in_order (s : App) (c p : nat) (conn : Connection)
    (queued : list GenAIBlob) (frames : list (list number)) :
  sessionPromiseRef (refs s) = Some c ->
  connections (browser s) !! c = Some conn ->
  status conn = Connecting ->
  reactions conn = map SendRealtimeInput queued ->
  processors (browser s) !! p = Some true ->
  let s' := run s (map (AudioProcess p) frames ++ [ConnectFulfilled c]) in
  exists conn',
    connections (browser s') !! c = Some conn' /\
    status conn' = Open /\
    reactions conn' = [] /\
    sent conn' = sent conn ++ queued ++ map createBlob frames.
Proof.
  intros Href Hconn Hst Hq Hp s'. subst s'. unfold run.
  rewrite fold_left_app. fold (run s (map (AudioProcess p) frames)).
  pose proof (run_audio_frames p c frames s conn Href Hconn Hst Hp) as H.
  set (s1 := run s (map (AudioProcess p) frames)) in *.
  open_app s1. cbn in *. rewrite list_lookup_alter_eq, H. cbn.
  eexists. split; [reflexivity |].
  unfold fulfil. cbn [status reactions sent systemInstruction closure].
  rewrite Hq, <- (map_map createBlob SendRealtimeInput), <- map_app.
  rewrite run_sends_open by reflexivity. cbn.
  repeat split. 
Qed.

Lemma queued_frames_sent_in_order_witness :
  exists conn',
    connections (browser (run capturing
       (map (AudioProcess 0) [[Finite 0]; [Finite (1 # 2)]]
        ++ [ConnectFulfilled 0]))) !! 0%nat = Some conn' /\
    status conn' = Open /\
    reactions conn' = [] /\
    sent conn' = [createBlob [Finite 0]; createBlob [Finite (1 # 2)]].
Proof.
  apply (queued_frames_sent_in_order capturing 0 0
           (mkConnection Connecting [] [] (systemInstruction_of ann)
              (mkTurn "" ""))
           [] [[Finite 0]; [Finite (1 # 2)]]);
    vm_compute; reflexivity.
Defined.

(** ** A closed session stays closed *)

Lemma run_reaction_silent (conn0 conn : Connection) (r : Reaction) :
  silent_since conn0 conn -> silent_since conn0 (run_reaction conn r).
Proof.
  intros [H1 H2]. destruct r; cbn [run_reaction]; [now rewrite H1 |].
  now split.
Qed.

Lemma alter_connection (P : Connection -> Prop)
    (f : Connection -> Connection) (l : list Connection) (i c : nat) :
  (forall conn, P conn -> P (f conn)) ->
  (exists conn, l !! c = Some conn /\ P conn) ->
  exists conn, alter f i l !! c = Some conn /\ P conn.
Proof.
  intros Hf (conn & Hc & HP).
  destruct (decide (i = c)) as [-> | Hne].
  - exists (f conn). rewrite list_lookup_alter_eq, Hc. auto.
  - exists conn. rewrite list_lookup_alter_ne by exact Hne. auto.
Qed.

Lemma step_silent (conn0 : Connection) (c : nat) (s : App) (e : Event) :
  connection_is (silent_since conn0) c s ->
  connection_is (silent_since conn0) c (step s e).
Proof.
  intros H.
  assert (Hthen : forall r conn,
            silent_since conn0 conn -> silent_since conn0 (promise_then r conn)).
  { intros r conn [H1 H2]. unfold promise_then. rewrite H1.
    now apply run_reaction_silent. }
  assert (Hstop : forall s0, connection_is (silent_since conn0) c s0 ->
            connection_is (silent_since conn0) c (handleStopLiveSession s0)).
  { intros s0 H0. unfold connection_is.
    rewrite handleStopLiveSession_fields. cbn [browser connections].
    destruct (sessionPromiseRef (refs s0)); [| exact H0].
    apply alter_connection; [apply Hthen | exact H0]. }
  destruct e as [agentId | | c' | c' | c' | c' message now | c' message | c'
                 | p inputData | source]; cbn [step].
  - unfold LiveConversation_start.
    destruct (isLiveSessionActive (ui s)); [exact H |].
    destruct agentId as [| ch rest]; [exact H |].
    destruct (handleStartLiveSession_cases (String ch rest) s)
      as [(_ & _ & Hconns) | (_ & conn & Hconns & _)]; cbv zeta in *;
      unfold connection_is; rewrite Hconns; [exact H |].
    destruct H as (conn1 & Hc & HP). exists conn1.
    split; [| exact HP]. now apply lookup_app_l_Some.
  - unfold LiveConversation_stop.
    destruct (isLiveSessionActive (ui s)); [| exact H]. now apply Hstop.
  - destruct (connections (browser s) !! c'); [| exact H].
    open_app s. exact H.
  - destruct (connections (browser s) !! c'); [| exact H].
    open_app s. unfold onopen_resume. cbn in *. destruct inp; exact H.
  - open_app s. unfold connection_is in *. cbn in *.
    apply alter_connection; [| exact H].
    intros conn [H1 H2]. unfold fulfil. rewrite H1. now split.
  - destruct (connections (browser s) !! c') as [conn |]; [| exact H].
    destruct (onmessage_frame (closure conn) message now s)
      as (_ & _ & Hconns). cbv zeta in *.
    unfold connection_is. now rewrite Hconns.
  - destruct (connections (browser s) !! c'); [| exact H].
    rewrite onerror_fields. now apply Hstop.
  - destruct (connections (browser s) !! c'); [| exact H].
    unfold onclose. apply Hstop.
    open_app s. unfold connection_is in *. cbn in *.
    apply alter_connection; [| exact H].
    intros conn [H1 H2]. now split.
  - destruct (processors (browser s) !! p) as [[|] |]; try exact H.
    open_app s. unfold onaudioprocess, connection_is in *. cbn in *.
    destruct session; [| exact H].
    apply alter_connection; [apply Hthen | exact H].
  - open_app s. exact H.
Qed.

(** X11.  A closed session stays closed and silent: whatever events
    follow (audio frames, a late [connect] resolution, a new start), the
    connection is still closed and has sent nothing more. *)
Theorem closed_session_sends_nothing (events : list Event) (s : App) (c : nat)
    (conn : Connection) :
  connections (browser s) !! c = Some conn ->
  status conn = Closed ->
  exists conn',
    connections (browser (run s events)) !! c = Some conn' /\
    status conn' = Closed /\
    sent conn' = sent conn.
Proof.
  intros Hc Hst.
  assert (H : connection_is (silent_since conn) c s).
  { exists conn. split; [exact Hc |]. now split. }
  clear Hc Hst. revert s H.
  induction events as [| e events IH]; intros s H.
  - destruct H as (conn' & Hc & H1 & H2). now exists conn'.
  - apply (IH (step s e)). now apply step_silent.
Qed.

Lemma closed_session_sends_nothing_witness :
  exists conn',
    connections (browser (run (run fresh early_stop)
       [AudioProcess 0 [Finite (1 # 2)]; ConnectFulfilled 0;
        StopLiveSession; StartLiveSession "a1"; ConnectFulfilled 0]))
      !! 0%nat = Some conn' /\
    status conn' = Closed /\
    sent conn' = [].
Proof.
  apply (closed_session_sends_nothing
           [AudioProcess 0 [Finite (1 # 2)]; ConnectFulfilled 0;
            StopLiveSession; StartLiveSession "a1"; ConnectFulfilled 0]
           (run fresh early_stop) 0
           (mkConnection Closed [] [] (systemInstruction_of ann)
              (mkTurn "" "")));
    vm_compute; reflexivity.
Defined.

(** ** A start that is refused *)

(** X12.  [handleStartLiveSession] opens a connection exactly when the
    agent is found and the API key is set and not empty.  Otherwise it
    only raises the alert: the React state, the refs, the connections,
    the audio contexts and the microphone streams are as before. *)
Theorem handleStartLiveSession_refusal (agentId : string) (s : App) :
  let s' := handleStartLiveSession agentId s in
  let found := List.find (fun a => String.eqb (id a) agentId) (agents (ui s)) in
  (connections (browser s') <> connections (browser s) <->
   found <> None /\ API_KEY (browser s) <> None /\
   API_KEY (browser s) <> Some ""%string) /\
  (found = None \/ API_KEY (browser s) = None \/
   API_KEY (browser s) = Some ""%string ->
   ui s' = ui s /\ refs s' = refs s /\
   connections (browser s') = connections (browser s) /\
   contexts (browser s') = contexts (browser s) /\
   streams (browser s') = streams (browser s) /\
   alerts (browser s')
   = alerts (browser s) ++ ["Agent not found or API key is missing."%string]).
Proof.
  open_app s. unfold handleStartLiveSession. cbn [ui browser agents API_KEY].
  destruct (List.find _ stored) as [agent |]; cbn.
  - destruct key as [[| ch k] |]; cbn.
    + split; [split |]; [congruence | intros (_ & _ & H); congruence | auto].
      intros _. repeat split.
    + split.
      * split; [intros _; repeat split; discriminate |].
        intros _ H. apply (f_equal (@length Connection)) in H.
        rewrite length_app in H. cbn in H. lia.
      * intros [H | [H | H]]; discriminate.
    + split; [split |]; [congruence | intros (_ & H & _); congruence |].
      intros _. repeat split.
  - split; [split |]; [congruence | intros (H & _); congruence |].
    intros _. repeat split.
Qed.

Lemma handleStartLiveSession_refusal_witness :
  ui (handleStartLiveSession "a2" fresh) = ui fresh /\
  refs (handleStartLiveSession "a2" fresh) = refs fresh /\
  connections (browser (handleStartLiveSession "a2" fresh)) = [] /\
  contexts (browser (handleStartLiveSession "a2" fresh)) = [] /\
  streams (browser (handleStartLiveSession "a2" fresh)) = [] /\
  alerts (browser (handleStartLiveSession "a2" fresh))
  = ["Agent not found or API key is missing."%string].
Proof.
  apply (handleStartLiveSession_refusal "a2" fresh). left. reflexivity.
Defined.

(** ** A message without playable audio *)

(** X13.  A message without playable audio schedules nothing.  With no
    audio payload, an empty one, or no output context, [onmessage] leaves
    the refs and the browser objects as they are.  With a payload that
    does not decode (bad base64, an odd byte count, no sample), no source
    is created or tracked, but the next start time has already been
    raised to the clock of the context. *)
Theorem onmessage_without_playable_audio (captured : Turn)
    (message : LiveServerMessage) (now : Q) (s : App) :
  let s' := onmessage captured message now s in
  (inlineData message = None \/ inlineData message = Some ""%string \/
   outputAudioContextRef (refs s) = None ->
   refs s' = refs s /\ browser s' = browser s) /\
  (forall base64Audio ctx,
     inlineData message = Some base64Audio ->
     base64Audio <> ""%string ->
     outputAudioContextRef (refs s) = Some ctx ->
     decodeChunk base64Audio = None ->
     sources (browser s') = sources (browser s) /\
     audioSourcesRef (refs s') = audioSourcesRef (refs s) /\
     nextStartTimeRef (refs s') = Qmax (nextStartTimeRef (refs s)) now).
Proof.
  cbv zeta. split.
  - intros H. open_app s. destruct message as [o i tc audio].
    cbn in H. unfold onmessage.
    cbn [outputTranscription inputTranscription turnComplete inlineData].
    destruct H as [-> | [-> | ->]];
      destruct o, i, tc; cbn; try destruct audio as [[| ? ?] |];
      split; reflexivity.
  - intros base64Audio ctx Hdata Hne Hctx Hdec.
    destruct base64Audio as [| ch rest]; [congruence |].
    unfold decodeChunk in Hdec.
    open_app s. destruct message as [o i tc audio].
    cbn in Hdata, Hctx. subst audio out. unfold onmessage.
    cbn [outputTranscription inputTranscription turnComplete inlineData].
    destruct (decode (String ch rest)) as [bytes |].
    + destruct o, i, tc; cbn; rewrite Hdec; repeat split.
    + destruct o, i, tc; cbn; repeat split.
Qed.

Lemma onmessage_without_playable_audio_witness :
  sources (browser (onmessage (mkTurn "" "") (audioChunk "AA==") 3 started))
  = sources (browser started) /\
  audioSourcesRef (refs (onmessage (mkTurn "" "") (audioChunk "AA==") 3
                           started))
  = audioSourcesRef (refs started) /\
  nextStartTimeRef (refs (onmessage (mkTurn "" "") (audioChunk "AA==") 3
                            started))
  = Qmax (nextStartTimeRef (refs started)) 3.
Proof.
  apply (onmessage_without_playable_audio (mkTurn "" "") (audioChunk "AA==")
           3 started) with (base64Audio := "AA=="%string) (ctx := 0%nat).
  - reflexivity.
  - discriminate.
  - reflexivity.
  - reflexivity.
Defined.

(** ** Saving an agent *)

Lemma saveAgent_cons (a x : Agent) (rest : list Agent) :
  saveAgent a (x :: rest)
  = if String.eqb (id x) (id a) then a :: rest else x :: saveAgent a rest.
Proof.
  unfold saveAgent. cbn [findIndex].
  destruct (String.eqb (id x) (id a)); [reflexivity |].
  destruct (findIndex (id a) rest); reflexivity.
Qed.

Lemma findAgent_id (agentId : string) (l : list Agent) (a : Agent) :
  findAgent agentId l = Some a -> id a = agentId.
Proof.
  unfold findAgent. intros H. apply List.find_some in H as [_ H].
  now apply String.eqb_eq in H.
Qed.

Lemma findAgent_saveAgent (a : Agent) (prev : list Agent) :
  findAgent (id a) (saveAgent a prev) = Some a.
Proof.
  unfold findAgent. induction prev as [| x rest IH].
  - cbn. now rewrite String.eqb_refl.
  - rewrite saveAgent_cons.
    destruct (String.eqb (id x) (id a)) eqn:E; cbn [List.find].
    + now rewrite String.eqb_refl.
    + now rewrite E.
Qed.

(** X14.  Save, then look up.  After [handleSaveAgent]'s update, looking
    an agent up by the saved agent's id finds the saved agent, and looking
    up any other id finds what it found before. *)
Theorem saveAgent_find (a : Agent) (prev : list Agent) :
  findAgent (id a) (saveAgent a prev) = Some a /\
  (forall agentId, agentId <> id a ->
     findAgent agentId (saveAgent a prev) = findAgent agentId prev).
Proof.
  unfold findAgent. induction prev as [| x rest [IH1 IH2]].
  - cbn. rewrite String.eqb_refl. split; [reflexivity |].
    intros agentId Hne. apply not_eq_sym, String.eqb_neq in Hne. now rewrite Hne.
  - rewrite saveAgent_cons.
    destruct (String.eqb (id x) (id a)) eqn:E.
    + cbn [List.find]. rewrite String.eqb_refl. split; [reflexivity |].
      intros agentId Hne. apply String.eqb_eq in E. rewrite E.
      apply not_eq_sym, String.eqb_neq in Hne. now rewrite Hne.
    + cbn [List.find]. rewrite E. split; [exact IH1 |].
      intros agentId Hne. destruct (String.eqb (id x) agentId); [reflexivity |].
      now apply IH2.
Qed.

Lemma saveAgent_find_witness :
  findAgent "a1" (saveAgent bob [ann]) = Some bob /\
  findAgent "a1" (saveAgent (mkAgent "a2" "Cy" "" "" "" "" "") [ann])
  = Some ann.
Proof.
  split.
  - apply (saveAgent_find bob [ann]).
  - apply (saveAgent_find (mkAgent "a2" "Cy" "" "" "" "" "") [ann]).
    discriminate.
Defined.

(** X15.  Saving keeps the list of ids in shape: an agent whose id is
    already stored is replaced in place (the ids and their order are
    unchanged), an agent with a new id goes to the end; distinct ids stay
    distinct; and the list never shrinks and grows by at most one. *)
Theorem saveAgent_ids (a : Agent) (prev : list Agent) :
  map id (saveAgent a prev)
  = match findAgent (id a) prev with
    | Some _ => map id prev
    | None => map id prev ++ [id a]
    end /\
  (NoDup (map id prev) -> NoDup (map id (saveAgent a prev))) /\
  (length prev <= length (saveAgent a prev) <= S (length prev))%nat.
Proof.
  assert (Hids : map id (saveAgent a prev)
    = match findAgent (id a) prev with
      | Some _ => map id prev
      | None => map id prev ++ [id a]
      end).
  { unfold findAgent. induction prev as [| x rest IH]; [reflexivity |].
    rewrite saveAgent_cons. cbn [List.find].
    destruct (String.eqb (id x) (id a)) eqn:E.
    - apply String.eqb_eq in E. cbn [map]. now rewrite E.
    - cbn [map]. rewrite IH. now destruct (List.find _ rest). }
  assert (Hfind : findAgent (id a) prev = None -> ~ In (id a) (map id prev)).
  { unfold findAgent. intros Hnone Hin.
    apply in_map_iff in Hin as (x & Hx & Hin).
    apply (List.find_none _ _ Hnone) in Hin. cbn in Hin.
    apply String.eqb_neq in Hin. contradiction. }
  split; [exact Hids |]. split.
  - intros Hnd. rewrite Hids.
    destruct (findAgent (id a) prev) eqn:E; [exact Hnd |].
    apply NoDup_app. split; [exact Hnd |]. split; [| apply NoDup_singleton].
    intros x Hx Hin. apply list_elem_of_singleton in Hin. subst x.
    apply (Hfind eq_refl). now apply list_elem_of_In.
  - apply (f_equal (@length string)) in Hids. rewrite length_map in Hids.
    rewrite Hids. destruct (findAgent (id a) prev);
      rewrite ?length_app, ?length_map; cbn; lia.
Qed.

Lemma saveAgent_ids_witness :
  NoDup (map id (saveAgent bob [ann; mkAgent "a2" "Cy" "" "" "" "" ""])).
Proof.
  apply (saveAgent_ids bob [ann; mkAgent "a2" "Cy" "" "" "" "" ""]).
  apply (bool_decide_eq_true_1
           (NoDup (map id [ann; mkAgent "a2" "Cy" "" "" "" "" ""]))).
  reflexivity.
Defined.

(** X16.  The last save wins: saving an agent and then another with the
    same id leaves the list as if only the second had been saved. *)
Theorem saveAgent_last_write_wins (a b : Agent) (prev : list Agent) :
  id a = id b ->
  saveAgent b (saveAgent a prev) = saveAgent b prev.
Proof.
  intros Hid. induction prev as [| x rest IH].
  - unfold saveAgent. cbn [findIndex app]. rewrite Hid, String.eqb_refl.
    reflexivity.
  - rewrite (saveAgent_cons a), (saveAgent_cons b x), Hid.
    destruct (String.eqb (id x) (id b)) eqn:E.
    + rewrite saveAgent_cons, Hid, String.eqb_refl. reflexivity.
    + rewrite saveAgent_cons, E. now rewrite IH.
Qed.

Lemma saveAgent_last_write_wins_witness :
  saveAgent bob (saveAgent ann []) = saveAgent bob [].
Proof. apply (saveAgent_last_write_wins ann bob []). reflexivity. Defined.

(** X17.  A saved agent can be called at once.  With the API key set and
    not empty, starting a live session for an agent right after saving it
    opens one new connection whose system instruction is built from the
    agent as saved (not from an older agent with the same id), and the
    session promise held is that connection. *)
Theorem start_uses_saved_agent (a : Agent) (s : App) (apiKey : string) :
  API_KEY (browser s) = Some apiKey ->
  apiKey <> ""%string ->
  let s' := handleStartLiveSession (id a) (handleSaveAgent a s) in
  connections (browser s')
  = connections (browser s)
      ++ [mkConnection Connecting [] [] (systemInstruction_of a)
            (currentLiveTranscription (ui s))] /\
  sessionPromiseRef (refs s') = Some (length (connections (browser s))) /\
  findAgent (id a) (agents (ui s')) = Some a.
Proof.
  intros Hkey Hne.
  pose proof (findAgent_saveAgent a (agents (ui s))) as Hfind.
  unfold findAgent in *.
  open_app s. cbn in Hkey, Hfind. subst key.
  destruct apiKey as [| ch k]; [congruence |].
  unfold handleSaveAgent, setAgents, handleStartLiveSession.
  cbn [with_ui ui browser agents API_KEY]. rewrite Hfind. cbn.
  rewrite Hfind. repeat split.
Qed.

Lemma start_uses_saved_agent_witness :
  connections (browser (handleStartLiveSession "a1" (handleSaveAgent bob fresh)))
  = [mkConnection Connecting [] [] (systemInstruction_of bob) (mkTurn "" "")]
  /\
  sessionPromiseRef
    (refs (handleStartLiveSession "a1" (handleSaveAgent bob fresh)))
  = Some 0%nat /\
  findAgent "a1"
    (agents (ui (handleStartLiveSession "a1" (handleSaveAgent bob fresh))))
  = Some bob.
Proof.
  apply (start_uses_saved_agent bob fresh "key"); [reflexivity | discriminate].
Defined.

(** ** Navigation and the dashboard *)

(** X18.  The navigation never offers both the live tab and the
    simulation tab.  While a live session is active every tab but the
    live one is disabled; the simulation tab is enabled exactly when a
    call is in progress and no live session is active; the live tab is
    enabled exactly when no call is in progress. *)
Theorem NavButton_gating (currentCall : option CallLog)
    (isLiveSessionActive : bool) :
  (NavButton_isDisabled live_tab currentCall isLiveSessionActive = true \/
   NavButton_isDisabled simulation currentCall isLiveSessionActive = true) /\
  (isLiveSessionActive = true ->
   forall tabName, tabName <> live_tab ->
     NavButton_isDisabled tabName currentCall isLiveSessionActive = true) /\
  (NavButton_isDisabled simulation currentCall isLiveSessionActive = false <->
   currentCall <> None /\ isLiveSessionActive = false) /\
  (NavButton_isDisabled live_tab currentCall isLiveSessionActive = false <->
   currentCall = None).
Proof.
  destruct currentCall, isLiveSessionActive; cbn;
    repeat split; try tauto; try discriminate; try congruence;
    try (intros _ [] ?; (reflexivity || congruence));
    try (intros []; congruence); auto.
Qed.

(** X19.  The dashboard's recent calls are the last five logs, newest
    first: the reversal of the last five entries (of all of them, when
    there are fewer), at most five, headed by the newest log. *)
Theorem recentLogs_newest_first (logs : list CallLog) :
  recentLogs logs = rev (drop (length logs - 5) logs) /\
  length (recentLogs logs) = Nat.min 5 (length logs) /\
  (forall older newest, logs = older ++ [newest] ->
     head (recentLogs logs) = Some newest).
Proof.
  unfold recentLogs. split; [| split].
  - apply List.firstn_rev.
  - rewrite length_take, length_rev. reflexivity.
  - intros older newest ->. now rewrite rev_app_distr.
Qed.

(** ** The call-flow shortcut *)

Lemma toLowerCase_unit_idempotent (c : ascii) :
  toLowerCase_unit (toLowerCase_unit c) = toLowerCase_unit c.
Proof. destruct c as [[] [] [] [] [] [] [] []]; reflexivity. Qed.

Lemma toLowerCase_idempotent (s : string) :
  toLowerCase (toLowerCase s) = toLowerCase s.
Proof.
  induction s as [| c s IH]; [reflexivity |].
  cbn [toLowerCase]. now rewrite toLowerCase_unit_idempotent, IH.
Qed.

Lemma prefix_app (a b : string) : String.prefix a (a +:+ b) = true.
Proof.
  induction a as [| c a IH]; [now destruct b |].
  change (String c a +:+ b)%string with (String c (a +:+ b)).
  cbn [String.prefix]. destruct (ascii_dec c c); [exact IH | contradiction].
Qed.

Lemma prefix_split (a s : string) :
  String.prefix a s = true -> exists post, s = (a +:+ post)%string.
Proof.
  revert s. induction a as [| c a IH]; intros s H.
  - now exists s.
  - destruct s as [| d s]; [discriminate |]. cbn [String.prefix] in H.
    destruct (ascii_dec c d) as [-> | _]; [| discriminate].
    destruct (IH s H) as [post ->]. now exists post.
Qed.

(** [includes] holds exactly when the search string occurs in the string. *)
Lemma includes_occurs (s search : string) :
  includes s search = true <->
  exists pre post, s = (pre +:+ search +:+ post)%string.
Proof.
  split.
  - induction s as [| c s IH]; cbn [includes]; intros H.
    + rewrite orb_false_r in H. apply prefix_split in H as [post ->].
      now exists ""%string, post.
    + apply orb_prop in H as [H | H].
      * apply prefix_split in H as [post ->]. now exists ""%string, post.
      * destruct (IH H) as (pre & post & ->).
        now exists (String c pre), post.
  - intros (pre & post & ->). induction pre as [| c pre IH].
    + change ("" +:+ search +:+ post)%string with (search +:+ post)%string.
      destruct (search +:+ post)%string eqn:E; cbn [includes];
        rewrite <- E, prefix_app; reflexivity.
    + change (String c pre +:+ search +:+ post)%string
        with (String c (pre +:+ search +:+ post)).
      cbn [includes]. rewrite IH. apply orb_true_r.
Qed.

(** A keyword counts through its lower-casing only. *)
Lemma firstMatch_same_lower_case (u key key' : string) (value : JsonValue)
    (before after : list (string * JsonValue)) :
  toLowerCase key = toLowerCase key' ->
  firstMatch u (before ++ (key, value) :: after)
  = firstMatch u (before ++ (key', value) :: after).
Proof.
  intros H. induction before as [| [k v] before IH].
  - cbn [app firstMatch]. now rewrite H.
  - cbn [app firstMatch]. now rewrite IH.
Qed.

(** X20.  Keyword matching ignores case on both sides.  Lower-casing the
    user's input does not change what [checkCallFlow] returns; nor does
    writing one keyword of the flow in another case, as long as it stays
    different from every other keyword of the flow (the flow is then
    still an object with the same properties in the same order). *)
Theorem checkCallFlow_case_insensitive (userInput : string)
    (parsed : option (list (string * JsonValue))) :
  checkCallFlow (toLowerCase userInput) parsed = checkCallFlow userInput parsed
  /\
  (forall (key key' : string) (value : JsonValue)
          (before after : list (string * JsonValue)),
     parsed = Some (before ++ (key, value) :: after) ->
     toLowerCase key = toLowerCase key' ->
     ~ In key' (map fst (before ++ after)) ->
     checkCallFlow userInput (Some (before ++ (key', value) :: after))
     = checkCallFlow userInput parsed).
Proof.
  split.
  - destruct parsed as [flow |]; [| reflexivity].
    cbn [checkCallFlow]. now rewrite toLowerCase_idempotent.
  - intros key key' value before after -> H _. cbn [checkCallFlow].
    now rewrite (firstMatch_same_lower_case _ key key').
Qed.

Lemma checkCallFlow_case_insensitive_witness :
  checkCallFlow "Please CANCEL my plan"
    (Some ([("pricing"%string, JsonString "Here is our rate card.")]
           ++ [("CANCEL"%string, JsonString "I can help with that.")]))
  = checkCallFlow "Please CANCEL my plan" (Some sampleFlow).
Proof.
  apply (proj2 (checkCallFlow_case_insensitive "Please CANCEL my plan"
                  (Some sampleFlow))
           "Cancel"%string "CANCEL"%string
           (JsonString "I can help with that.")
           [("pricing"%string, JsonString "Here is our rate card.")] []).
  - reflexivity.
  - reflexivity.
  - intros [H | []]. discriminate.
Defined.

Lemma firstMatch_none (u : string) (flow : list (string * JsonValue)) :
  Forall (fun kv => ~ occurs_in (toLowerCase (fst kv)) u) flow ->
  firstMatch u flow = None.
Proof.
  induction 1 as [| [key value] flow Hkv _ IH]; [reflexivity |].
  cbn [firstMatch]. cbn [fst] in Hkv.
  destruct (includes u (toLowerCase key)) eqn:E; [| exact IH].
  apply includes_occurs in E. contradiction.
Qed.

Lemma firstMatch_app (u : string) (before after : list (string * JsonValue)) :
  firstMatch u before = None ->
  firstMatch u (before ++ after) = firstMatch u after.
Proof.
  induction before as [| [key value] before IH]; [reflexivity |].
  cbn [firstMatch app].
  destruct (includes u (toLowerCase key)); [discriminate | exact IH].
Qed.

(** X21.  The first keyword that occurs wins.  If no keyword listed
    before [key] occurs in the input (both lower-cased) and [key] does,
    [checkCallFlow] returns the response of [key], whatever follows it in
    the flow. *)
Theorem checkCallFlow_first_match (userInput : string)
    (before after : list (string * JsonValue)) (key : string)
    (value : JsonValue) :
  Forall (fun kv => ~ occurs_in (toLowerCase (fst kv)) (toLowerCase userInput))
         before ->
  occurs_in (toLowerCase key) (toLowerCase userInput) ->
  checkCallFlow userInput (Some (before ++ (key, value) :: after)) = value.
Proof.
  intros Hbefore Hkey. cbn [checkCallFlow].
  rewrite firstMatch_app by now apply firstMatch_none.
  cbn [firstMatch]. apply includes_occurs in Hkey. now rewrite Hkey.
Qed.

Lemma checkCallFlow_first_match_witness :
  checkCallFlow "Please CANCEL my plan"
    (Some ([("pricing"%string, JsonString "Here is our rate card.")]
           ++ ("Cancel"%string, JsonString "I can help with that.")
           :: [("plan"%string, JsonString "Which plan?")]))
  = JsonString "I can help with that.".
Proof.
  apply (checkCallFlow_first_match "Please CANCEL my plan"
           [("pricing"%string, JsonString "Here is our rate card.")]
           [("plan"%string, JsonString "Which plan?")]
           "Cancel" (JsonString "I can help with that.")).
  - constructor; [| constructor]. intros H.
    apply includes_occurs in H. discriminate.
  - exists "please "%string, " my plan"%string. reflexivity.
Defined.

Lemma firstMatch_some (u : string) (flow : list (string * JsonValue))
    (value : JsonValue) :
  firstMatch u flow = Some value ->
  exists key, In (key, value) flow /\ occurs_in (toLowerCase key) u.
Proof.
  induction flow as [| [key v] flow IH]; [discriminate |].
  cbn [firstMatch]. destruct (includes u (toLowerCase key)) eqn:E.
  - intros H. injection H as ->. exists key. split; [now left |].
    now apply includes_occurs.
  - intros H. destruct (IH H) as (k & Hin & Hocc). exists k.
    split; [now right | exact Hocc].
Qed.

(** X22.  [checkCallFlow] returns [null] when the call flow is not valid
    JSON and when no keyword of it occurs in the input; and whatever it
    returns other than [null] is the response listed for a keyword that
    occurs in the input. *)
Theorem checkCallFlow_null_or_listed (userInput : string)
    (parsed : option (list (string * JsonValue))) :
  (parsed = None -> checkCallFlow userInput parsed = JsonNull) /\
  (forall flow,
     parsed = Some flow ->
     Forall (fun kv =>
               ~ occurs_in (toLowerCase (fst kv)) (toLowerCase userInput))
            flow ->
     checkCallFlow userInput parsed = JsonNull) /\
  (checkCallFlow userInput parsed <> JsonNull ->
   exists flow key,
     parsed = Some flow /\
     In (key, checkCallFlow userInput parsed) flow /\
     occurs_in (toLowerCase key) (toLowerCase userInput)).
Proof.
  split; [now intros -> |]. split.
  - intros flow -> H. cbn [checkCallFlow]. now rewrite firstMatch_none.
  - destruct parsed as [flow |]; cbn [checkCallFlow]; [| congruence].
    destruct (firstMatch (toLowerCase userInput) flow) as [value |] eqn:E;
      [| congruence].
    intros _. destruct (firstMatch_some _ _ _ E) as (key & Hin & Hocc).
    now exists flow, key.
Qed.

Lemma checkCallFlow_null_or_listed_witness :
  checkCallFlow "What are your hours?" None = JsonNull /\
  exists flow key,
    Some sampleFlow = Some flow /\
    In (key, checkCallFlow "Your PRICING?" (Some sampleFlow)) flow /\
    occurs_in (toLowerCase key) (toLowerCase "Your PRICING?").
Proof.
  split.
  - now apply (checkCallFlow_null_or_listed "What are your hours?" None).
  - apply (checkCallFlow_null_or_listed "Your PRICING?" (Some sampleFlow)).
    discriminate.
Defined.

(** X23.  A keyword answer needs neither the API key nor the model: when
    the first keyword that occurs has a non-empty text as its response,
    [simulateAgentResponse] resolves to that text, whether or not the key
    is set and whatever the remote call would have done. *)
Theorem keyword_response_needs_no_model (userInput : string)
    (before after : list (string * JsonValue)) (keyword response : string)
    (key : option string) (remote : option (option string)) :
  Forall (fun kv => ~ occurs_in (toLowerCase (fst kv)) (toLowerCase userInput))
         before ->
  occurs_in (toLowerCase keyword) (toLowerCase userInput) ->
  response <> ""%string ->
  simulateAgentResponse userInput
    (Some (before ++ (keyword, JsonString response) :: after)) key remote
  = Value (JsonString response).
Proof.
  intros Hbefore Hkey Hne. unfold simulateAgentResponse. cbv zeta.
  cbn [checkCallFlow]. rewrite firstMatch_app by now apply firstMatch_none.
  cbn [firstMatch]. apply includes_occurs in Hkey. rewrite Hkey.
  destruct response; [congruence | reflexivity].
Qed.

Lemma keyword_response_needs_no_model_witness :
  simulateAgentResponse "Please CANCEL my plan"
    (Some ([("pricing"%string, JsonString "Here is our rate card.")]
           ++ ("Cancel"%string, JsonString "I can help with that.")
           :: []))
    None None
  = Value (JsonString "I can help with that.").
Proof.
  apply (keyword_response_needs_no_model "Please CANCEL my plan"
           [("pricing"%string, JsonString "Here is our rate card.")] []
           "Cancel" "I can help with that." None None).
  - constructor; [| constructor]. intros H.
    apply includes_occurs in H. discriminate.
  - exists "please "%string, " my plan"%string. reflexivity.
  - discriminate.
Defined.

(** ** The agent builder *)

Lemma saveAgent_Forall (P : Agent -> Prop) (a : Agent) (l : list Agent) :
  P a -> Forall P l -> Forall P (saveAgent a l).
Proof.
  intros Ha. induction 1 as [| x l Hx Hl IH].
  - unfold saveAgent. cbn. now constructor.
  - rewrite saveAgent_cons. destruct (String.eqb (id x) (id a));
      constructor; auto.
Qed.

Lemma findAgent_options (agentId : string) (l : list Agent) :
  existsb (String.eqb agentId) (map id l) = true ->
  findAgent agentId l <> None.
Proof.
  unfold findAgent. induction l as [| x l IH]; [discriminate |].
  cbn [map existsb List.find]. rewrite (String.eqb_sym agentId).
  destruct (String.eqb (id x) agentId); [discriminate | exact IH].
Qed.

Lemma handleSubmit_saves (now : string) (b b' : Builder) :
  form_selected b ->
  handleSubmit now b = Some b' ->
  builderAgents b' = saveAgent (agentOfForm now b) (builderAgents b) /\
  selectedAgentId b' = id (agentOfForm now b) /\
  form_name (formState b) <> ""%string /\ jsonError b = None.
Proof.
  unfold form_selected, handleSubmit, agentOfForm. intros Hsel H.
  destruct (jsonError b); [discriminate |].
  destruct (form_name (formState b)) eqn:En; [discriminate |].
  injection H as <-. cbn.
  destruct (String.eqb (selectedAgentId b) "new") eqn:E.
  - rewrite Hsel. cbn. repeat split. discriminate.
  - destruct Hsel as [Hid _]. rewrite Hid. repeat split. discriminate.
Qed.

Section AgentBuilder.

(** Whether [JSON.parse] accepts a text; it accepts the default call
    flow, which [JSON.stringify] wrote. *)
Variable JSON_parses : string -> bool.
Hypothesis default_parses : JSON_parses defaultCallFlow = true.

Lemma builderEffect_checked (phone : string) (b : Builder) :
  Forall (acceptable JSON_parses) (builderAgents b) ->
  form_checked JSON_parses b ->
  Forall (acceptable JSON_parses)
    (builderAgents (builderEffect JSON_parses phone b)) /\
  form_checked JSON_parses (builderEffect JSON_parses phone b).
Proof.
  intros Hall Hform. unfold builderEffect.
  destruct (String.eqb (selectedAgentId b) "new").
  - split; [exact Hall |]. intros _. right. exact default_parses.
  - destruct (findAgent (selectedAgentId b) (builderAgents b)) as [agent |];
      [| now split].
    split; [exact Hall |]. unfold form_checked. cbn.
    destruct (JSON_parses (callFlow agent)); [auto | discriminate].
Qed.

Lemma builderStep_checked (b : Builder) (e : BuilderEvent) :
  Forall (acceptable JSON_parses) (builderAgents b) /\
  form_checked JSON_parses b ->
  Forall (acceptable JSON_parses)
    (builderAgents (builderStep JSON_parses b e)) /\
  form_checked JSON_parses (builderStep JSON_parses b e).
Proof.
  intros [Hall Hform].
  destruct e as [agentId phone | field value | fileName content | fileName
                 | now phone]; cbn [builderStep].
  - destruct (_ || _); [now split |].
    now apply builderEffect_checked.
  - split; [exact Hall |]. unfold form_checked, handleChange. cbn.
    destruct field; cbn; try exact Hform.
    destruct (isBlank value) eqn:E; [auto |].
    destruct (JSON_parses value); [auto | discriminate].
  - split; [exact Hall | exact Hform].
  - split; [exact Hall | exact Hform].
  - unfold handleSubmit.
    destruct (jsonError b) eqn:Eerr; [now split |].
    destruct (form_name (formState b)) as [| ch rest] eqn:Ename; [now split |].
    apply builderEffect_checked.
    + cbn. apply saveAgent_Forall; [| exact Hall].
      split.
      * cbn [name]. discriminate.
      * cbn [callFlow]. apply Hform. exact Eerr.
    + unfold form_checked. cbn. intros _. now apply Hform.
Qed.

Lemma runBuilder_checked (events : list BuilderEvent) (b : Builder) :
  Forall (acceptable JSON_parses) (builderAgents b) /\
  form_checked JSON_parses b ->
  Forall (acceptable JSON_parses)
    (builderAgents (runBuilder JSON_parses b events)).
Proof.
  revert b. induction events as [| e events IH]; intros b Hb; [apply Hb |].
  cbn [runBuilder fold_left]. apply IH. now apply builderStep_checked.
Qed.

Lemma builderEffect_selected (phone : string) (b : Builder) :
  (String.eqb (selectedAgentId b) "new" = false ->
   findAgent (selectedAgentId b) (builderAgents b) <> None) ->
  form_selected (builderEffect JSON_parses phone b).
Proof.
  intros H. unfold builderEffect, form_selected.
  destruct (String.eqb (selectedAgentId b) "new") eqn:E.
  - cbn. now rewrite E.
  - specialize (H eq_refl).
    destruct (findAgent (selectedAgentId b) (builderAgents b)) as [a |] eqn:F;
      [| contradiction].
    cbn. rewrite E. split.
    + f_equal. now apply findAgent_id in F.
    + unfold findAgent in F. rewrite F. discriminate.
Qed.

Lemma builderStep_selected (b : Builder) (e : BuilderEvent) :
  form_selected b -> form_selected (builderStep JSON_parses b e).
Proof.
  intros Hsel.
  destruct e as [agentId phone | field value | fileName content | fileName
                 | now phone]; cbn [builderStep].
  - destruct (String.eqb agentId (selectedAgentId b)) eqn:E1; [exact Hsel |].
    destruct (existsb _ _) eqn:E2; [| exact Hsel]. cbn [orb negb].
    apply builderEffect_selected. cbn. intros Hnew.
    unfold selectOptions in E2. cbn [existsb] in E2. rewrite Hnew in E2.
    now apply findAgent_options.
  - unfold form_selected, handleChange in *. cbn.
    destruct (String.eqb (selectedAgentId b) "new"); destruct field; exact Hsel.
  - exact Hsel.
  - exact Hsel.
  - destruct (handleSubmit now b) as [b' |] eqn:E; [| exact Hsel].
    destruct (handleSubmit_saves now b b' Hsel E) as (Hag & Hid & _).
    apply builderEffect_selected. intros _. rewrite Hag, Hid.
    now rewrite findAgent_saveAgent.
Qed.

Lemma runBuilder_selected (events : list BuilderEvent) (b : Builder) :
  form_selected b -> form_selected (runBuilder JSON_parses b events).
Proof.
  revert b. induction events as [| e events IH]; intros b H; [exact H |].
  apply IH. now apply builderStep_selected.
Qed.

End AgentBuilder.

(** X24.  The builder never saves an agent it has not checked.  If every
    stored agent is named and has a call flow that is blank or valid
    JSON, then after any sequence of selections, edits, file uploads and
    submissions the same holds of every agent in the list: an unnamed
    agent is never saved, nor one whose call flow is neither blank nor
    valid JSON (a blank call flow is saved as it is).  [JSON_parses]
    stands for [JSON.parse] not throwing; it accepts the default call
    flow. *)
Theorem builder_saves_only_checked_agents (JSON_parses : string -> bool)
    (stored : list Agent) (phone : string) (events : list BuilderEvent) :
  JSON_parses defaultCallFlow = true ->
  Forall (acceptable JSON_parses) stored ->
  Forall (acceptable JSON_parses)
    (builderAgents
       (runBuilder JSON_parses (mountBuilder stored phone) events)).
Proof.
  intros Hdefault Hstored. apply runBuilder_checked; [exact Hdefault |].
  split; [exact Hstored |]. intros _. right. exact Hdefault.
Qed.

Lemma builder_saves_only_checked_agents_witness :
  Forall (acceptable braces)
    (builderAgents
       (runBuilder braces (mountBuilder [ann] "555-0102")
          [Change nameField "Cy"; Change callFlowField "oops";
           Submit "1700000000000" "555-0103"; Change callFlowField " ";
           Submit "1700000000001" "555-0104"; SelectAgent "a1" "555-0105";
           Change nameField ""; Submit "1700000000002" "555-0106"])).
Proof.
  apply (builder_saves_only_checked_agents braces [ann] "555-0102").
  - reflexivity.
  - constructor; [| constructor].
    split; [discriminate | right; reflexivity].
Defined.

(** X25.  A submission that passes the guard saves the form under the
    right id.  In any state the builder reaches, the agent saved has the
    fields of the form and, as id, the time stamp when a new agent is
    being made and the selected id otherwise; it can be looked up by that
    id right away; and updating a selected agent neither adds an agent
    nor reorders the list. *)
Theorem builder_submit_saves_form (JSON_parses : string -> bool)
    (stored : list Agent) (phone : string) (events : list BuilderEvent)
    (now phone' : string) (b' : Builder) :
  handleSubmit now
    (runBuilder JSON_parses (mountBuilder stored phone) events) = Some b' ->
  let b := runBuilder JSON_parses (mountBuilder stored phone) events in
  let after := builderStep JSON_parses b (Submit now phone') in
  builderAgents after = saveAgent (agentOfForm now b) (builderAgents b) /\
  findAgent (id (agentOfForm now b)) (builderAgents after)
  = Some (agentOfForm now b) /\
  (selectedAgentId b <> "new"%string ->
   map id (builderAgents after) = map id (builderAgents b)).
Proof.
  intros Hsub b after. fold b in Hsub.
  assert (Hsel : form_selected b) by (apply runBuilder_selected; reflexivity).
  destruct (handleSubmit_saves now b b' Hsel Hsub) as (Hag & Hid & _).
  assert (Hafter : builderAgents after = builderAgents b').
  { subst after. cbn [builderStep]. rewrite Hsub. unfold builderEffect.
    destruct (String.eqb (selectedAgentId b') "new"); [reflexivity |].
    now destruct (findAgent _ _). }
  rewrite Hafter, Hag. split; [reflexivity |].
  split; [apply findAgent_saveAgent |].
  intros Hne. apply String.eqb_neq in Hne.
  unfold form_selected in Hsel. rewrite Hne in Hsel. destruct Hsel as [_ Hfound].
  unfold agentOfForm. rewrite Hne.
  set (a := mkAgent _ _ _ _ _ _ _).
  change (selectedAgentId b) with (id a) in Hfound.
  clearbody a. clear -Hfound. unfold findAgent in Hfound.
  induction (builderAgents b) as [| x l IH]; [now contradiction Hfound |].
  rewrite saveAgent_cons. cbn [List.find] in Hfound.
  destruct (String.eqb (id x) (id a)) eqn:E.
  - apply String.eqb_eq in E. cbn [map]. now rewrite E.
  - cbn [map]. now rewrite IH.
Qed.

Lemma builder_submit_saves_form_witness :
  builderAgents
    (runBuilder braces (mountBuilder [ann] "555-0102")
       [SelectAgent "a1" "555-0103"; Change greetingField "Good day!";
        Submit "1700000000000" "555-0104"])
  = [mkAgent "a1" "Ann" "You are Ann." "Open from 9 to 5." "Good day!" "{}"
       "555-0100"].
Proof.
  destruct (builder_submit_saves_form braces [ann] "555-0102"
              [SelectAgent "a1" "555-0103"; Change greetingField "Good day!"]
              "1700000000000" "555-0104"
              (mkBuilder
                 [mkAgent "a1" "Ann" "You are Ann." "Open from 9 to 5."
                    "Good day!" "{}" "555-0100"]
                 "a1"
                 (mkFormState (Some "a1"%string) "Ann" "You are Ann."
                    "Open from 9 to 5." "Good day!" "{}" "555-0100")
                 None)) as [H _].
  - vm_compute. reflexivity.
  - exact H.
Defined.
